(** * iLert Icinga plugin: the disk-backed event queue and its flush protocol

    A shallow embedding of [ilert-icinga.py]: [create_xml], [persist_event],
    [lock_and_flush], [flush] and [log], over an explicit model of the event
    directory, of the other processes that share it, of the operating
    system's verdicts on writing calls, and of the HTTP transport.

    - Strings and paths: [endswith], [join], UTF-8, line ends.
    - The encoder ([escape], [quoteattr], [create_xml]) and a reader of the
      document it writes.
    - The world: directory, interference, network, faults, lock.
    - A state / exception / output monad, the system calls, the program.
    - Properties: the lock (C5), outcome classification, the order of
      delivery (C4), what [flush] leaves alone (C10), retained events (C8),
      files that vanish (C9), publishing an event file (C2), and the cases
      in which a turn of the loop departs from the table (C1), in which one
      event stops the batch (C3, C6) and in which the encoder loses the API
      key (C7).
    - Further properties: the selection, the queue over a whole [flush],
      the table turn by turn, the lock, what the service reads, and
      [main]. *)

From Stdlib Require Import String Ascii List ZArith Bool Lia.
From Stdlib Require Import Permutation Sorted SpecFloat.
From Stdlib Require DecimalString.
Import ListNotations.

Local Open Scope string_scope.
Local Open Scope Z_scope.

(** ** Strings and paths *)

Module Str.

(** [s.endswith(suffix)] *)
Fixpoint endswith (s suffix : string) : bool :=
  if String.eqb s suffix then true
  else match s with
       | EmptyString => false
       | String _ rest => endswith rest suffix
       end.

(** [s.startswith(p)] *)
Definition startswith (s p : string) : bool := String.prefix p s.

(** [c in s] for a single character [c] *)
Fixpoint contains (c : ascii) (s : string) : bool :=
  match s with
  | EmptyString => false
  | String d rest => Ascii.eqb c d || contains c rest
  end.

(** [s.replace(c, by)] for a single character [c] *)
Fixpoint replace (c : ascii) (by_ : string) (s : string) : string :=
  match s with
  | EmptyString => EmptyString
  | String d rest =>
      if Ascii.eqb d c then by_ ++ replace c by_ rest
      else String d (replace c by_ rest)
  end.

(** [posixpath.join(a, b)] with one component [b]. *)
Definition join (a b : string) : string :=
  if startswith b "/" then b
  else if String.eqb a "" || endswith a "/" then a ++ b
  else a ++ "/" ++ b.

(** Python's text mode on reading ([newline=None]): CR LF and a lone CR both
    read as LF.  XML 1.0 normalises line ends in the same way. *)
Fixpoint universal_newlines (after_cr : bool) (s : string) : string :=
  match s with
  | EmptyString => EmptyString
  | String c rest =>
      if Ascii.eqb c (ascii_of_nat 13)
      then String (ascii_of_nat 10) (universal_newlines true rest)
      else if Ascii.eqb c (ascii_of_nat 10) && after_cr
           then universal_newlines false rest
           else String c (universal_newlines false rest)
  end.

(** [s[len(p):]] when [s.startswith(p)] *)
Fixpoint strip_prefix (p s : string) : option string :=
  match p, s with
  | EmptyString, _ => Some s
  | String a p', String b s' => if Ascii.eqb a b then strip_prefix p' s' else None
  | String _ _, EmptyString => None
  end.

(** Is [s] the UTF-8 encoding of some text (RFC 3629: no overlong forms, no
    surrogates, nothing above U+10FFFF)?  This is what Python's strict
    ['utf-8'] codec accepts. *)
Definition between (lo hi : N) (c : ascii) : bool :=
  ((lo <=? N_of_ascii c) && (N_of_ascii c <=? hi))%N.

Definition continuation (c : ascii) : bool := between 128 191 c.

Fixpoint utf8_valid (s : string) : bool :=
  match s with
  | EmptyString => true
  | String b0 r0 =>
    if between 0 127 b0 then utf8_valid r0 else
    match r0 with
    | EmptyString => false
    | String b1 r1 =>
      if between 194 223 b0 then continuation b1 && utf8_valid r1 else
      match r1 with
      | EmptyString => false
      | String b2 r2 =>
        if between 224 239 b0 then
          (if between 224 224 b0 then between 160 191 b1
           else if between 237 237 b0 then between 128 159 b1
           else continuation b1)
          && continuation b2 && utf8_valid r2
        else
        match r2 with
        | EmptyString => false
        | String b3 r3 =>
          if between 240 244 b0 then
            (if between 240 240 b0 then between 144 191 b1
             else if between 244 244 b0 then between 128 143 b1
             else continuation b1)
            && continuation b2 && continuation b3 && utf8_valid r3
          else false
        end
      end
    end
  end.

(** ["%s" % n] for an integer [n] *)
Definition of_int (n : Z) : string :=
  DecimalString.NilZero.string_of_int (Z.to_int n).

End Str.

(** The permanent suffix of a published event file. *)
Definition permanent_suffix : string := ".ilert".

(** ** Facts about suffixes and [join] *)

Section StringFacts.

Lemma append_assoc (p q r : string) : (p ++ q) ++ r = p ++ (q ++ r).
Proof. induction p as [|c p IH]; simpl; [reflexivity | now rewrite IH]. Qed.

Lemma contains_app c p q :
  Str.contains c (p ++ q) = Str.contains c p || Str.contains c q.
Proof.
  induction p as [|d p IH]; simpl; [reflexivity|].
  now rewrite IH, orb_assoc.
Qed.

Lemma endswith_unfold s suffix :
  Str.endswith s suffix =
  if String.eqb s suffix then true
  else match s with
       | EmptyString => false
       | String _ rest => Str.endswith rest suffix
       end.
Proof. destruct s; reflexivity. Qed.

Lemma endswith_spec s suffix :
  Str.endswith s suffix = true <-> exists p, s = p ++ suffix.
Proof.
  split.
  - induction s as [|c s IH]; rewrite endswith_unfold.
    + destruct (String.eqb_spec "" suffix) as [E|E]; [|discriminate].
      intros _. exists "". now rewrite <- E.
    + destruct (String.eqb_spec (String c s) suffix) as [E|E].
      * intros _. exists "". now rewrite <- E.
      * intros H. destruct (IH H) as [p ->]. now exists (String c p).
  - intros [p ->]. induction p as [|c p IH]; rewrite endswith_unfold.
    + simpl. now rewrite String.eqb_refl.
    + destruct (String.eqb (String c p ++ suffix) suffix); [reflexivity|].
      exact IH.
Qed.

(** A suffix that lacks the character [c] cannot reach across an occurrence
    of [c]. *)
Lemma endswith_skip c p b suffix :
  Str.contains c suffix = false ->
  Str.endswith (p ++ String c b) suffix = Str.endswith b suffix.
Proof.
  intros Hc.
  assert (Hne : forall q, String.eqb (q ++ String c b) suffix = false).
  { intros q. destruct (String.eqb_spec (q ++ String c b) suffix) as [E|E];
      [|reflexivity].
    rewrite <- E, contains_app in Hc. simpl in Hc.
    rewrite Ascii.eqb_refl in Hc. simpl in Hc.
    now rewrite orb_true_r in Hc. }
  induction p as [|d p IH].
  - rewrite endswith_unfold. now rewrite (Hne "").
  - rewrite endswith_unfold. rewrite (Hne (String d p)). exact IH.
Qed.

(** The filter of [flush] looks at the joined path; it decides exactly as a
    test on the entry's name would. *)
Lemma join_endswith directory name :
  Str.endswith (Str.join directory name) permanent_suffix
  = Str.endswith name permanent_suffix.
Proof.
  unfold Str.join.
  destruct (Str.startswith name "/"); [reflexivity|].
  destruct (String.eqb_spec directory "") as [->|_]; simpl orb; [reflexivity|].
  destruct (Str.endswith directory "/") eqn:E.
  - apply endswith_spec in E as [p ->].
    rewrite append_assoc. simpl.
    now apply endswith_skip.
  - now apply endswith_skip.
Qed.

End StringFacts.

(** ** The encoder

    Python [str] values that come from the command line and the environment
    are modelled by [string]: the bytes of the text ([os.fsdecode] maps byte
    strings one to one to [str], valid UTF-8 or not).  Every character the
    encoder looks at is ASCII, so working on bytes or on code points is the
    same. *)

Module Chr.
Definition lf : ascii := ascii_of_nat 10.
Definition cr : ascii := ascii_of_nat 13.
Definition tab : ascii := ascii_of_nat 9.
Definition dquote : ascii := ascii_of_nat 34.
Definition squote : ascii := ascii_of_nat 39.
Definition amp : ascii := ascii_of_nat 38.
Definition lt : ascii := ascii_of_nat 60.
Definition gt : ascii := ascii_of_nat 62.
Definition space : ascii := ascii_of_nat 32.
End Chr.

Definition quoted (q : ascii) (s : string) : string :=
  String q (s ++ String q "").

(** [xml.sax.saxutils.__dict_replace] over the entities in their order. *)
Fixpoint dict_replace (s : string) (d : list (ascii * string)) : string :=
  match d with
  | [] => s
  | (key, value) :: d' => dict_replace (Str.replace key value s) d'
  end.

(** [xml.sax.saxutils.escape(data, entities)] *)
Definition escape (data : string) (entities : list (ascii * string)) : string :=
  let data := Str.replace Chr.amp "&amp;" data in
  let data := Str.replace Chr.gt "&gt;" data in
  let data := Str.replace Chr.lt "&lt;" data in
  dict_replace data entities.

(** [xml.sax.saxutils.quoteattr(data)] *)
Definition quoteattr (data : string) : string :=
  let entities := [(Chr.lf, "&#10;"); (Chr.cr, "&#13;"); (Chr.tab, "&#9;")] in
  let data := escape data entities in
  if Str.contains Chr.dquote data then
    if Str.contains Chr.squote data then
      quoted Chr.dquote (Str.replace Chr.dquote "&quot;" data)
    else quoted Chr.squote data
  else quoted Chr.dquote data.

(** A payload is a Python [dict] from [str] to [str]: its items in insertion
    order, the keys pairwise distinct. *)
Definition payload := list (string * string).

Definition xml_declaration : string :=
  "<?xml version=" ++ quoted Chr.dquote "1.0"
  ++ " encoding=" ++ quoted Chr.dquote "UTF-8"
  ++ " standalone=" ++ quoted Chr.dquote "yes" ++ "?>".

Definition xml_entry (entry : string * string) : string :=
  "<entry key=" ++ quoteattr (fst entry) ++ ">" ++ escape (snd entry) []
  ++ "</entry>".

(** [create_xml(apikey, payload)] *)
Definition create_xml (apikey : string) (p : payload) : string :=
  let xml_doc := xml_declaration in
  let xml_doc := xml_doc ++ ("<event><apiKey>" ++ apikey ++ "</apiKey><payload>") in
  let xml_doc := fold_left (fun doc entry => doc ++ xml_entry entry) p xml_doc in
  xml_doc ++ "</payload></event>".

(** ** A reader of the event document

    What the receiving side does with a document, as XML 1.0 has it: the
    text is UTF-8 and holds only the characters XML allows; line ends are
    normalised; then comes the fixed element structure [create_xml] writes,
    with the predefined entities and the character references (decimal and
    hexadecimal, to allowed characters only) expanded in character data and
    attribute values, [<] refused in attribute values and two right
    brackets followed by [>] refused in character data.  It is the inverse the encoder is
    measured against; all recursion is on an explicit bound, the length of
    the input. *)

Module Reader.

Definition newlines := Str.universal_newlines false.
Definition strip := Str.strip_prefix.

(** The production [Char] of XML 1.0 on code points. *)
Definition char_ok (n : N) : bool :=
  ((n =? 9) || (n =? 10) || (n =? 13)
   || ((32 <=? n) && (n <=? 55295))
   || ((57344 <=? n) && (n <=? 65533))
   || ((65536 <=? n) && (n <=? 1114111)))%N.

(** The same on UTF-8: every character of [s] is well encoded and is a
    [Char]; that is, no control character but tab, line feed and carriage
    return, and neither U+FFFE nor U+FFFF. *)
Fixpoint legal (s : string) : bool :=
  match s with
  | EmptyString => true
  | String b0 r0 =>
    if Str.between 0 127 b0 then char_ok (N_of_ascii b0) && legal r0 else
    match r0 with
    | EmptyString => false
    | String b1 r1 =>
      if Str.between 194 223 b0 then Str.continuation b1 && legal r1 else
      match r1 with
      | EmptyString => false
      | String b2 r2 =>
        if Str.between 224 239 b0 then
          (if Str.between 224 224 b0 then Str.between 160 191 b1
           else if Str.between 237 237 b0 then Str.between 128 159 b1
           else Str.continuation b1)
          && Str.continuation b2
          && negb (Str.between 239 239 b0 && Str.between 191 191 b1
                   && Str.between 190 191 b2)
          && legal r2
        else
        match r2 with
        | EmptyString => false
        | String b3 r3 =>
          if Str.between 240 244 b0 then
            (if Str.between 240 240 b0 then Str.between 144 191 b1
             else if Str.between 244 244 b0 then Str.between 128 143 b1
             else Str.continuation b1)
            && Str.continuation b2 && Str.continuation b3 && legal r3
          else false
        end
      end
    end
  end.

(** The UTF-8 encoding of a code point. *)
Definition encode (n : N) : string :=
  let byte (k : N) := ascii_of_N k in
  (if n <? 128 then String (byte n) ""
   else if n <? 2048 then
     String (byte (192 + n / 64)) (String (byte (128 + n mod 64)) "")
   else if n <? 65536 then
     String (byte (224 + n / 4096))
       (String (byte (128 + (n / 64) mod 64))
          (String (byte (128 + n mod 64)) ""))
   else
     String (byte (240 + n / 262144))
       (String (byte (128 + (n / 4096) mod 64))
          (String (byte (128 + (n / 64) mod 64))
             (String (byte (128 + n mod 64)) ""))))%N.

Definition digit (c : ascii) : option N :=
  let n := N_of_ascii c in
  if (48 <=? n)%N && (n <=? 57)%N then Some (n - 48)%N else None.

Definition hexdigit (c : ascii) : option N :=
  let n := N_of_ascii c in
  if (48 <=? n)%N && (n <=? 57)%N then Some (n - 48)%N
  else if (65 <=? n)%N && (n <=? 70)%N then Some (n - 55)%N
  else if (97 <=? n)%N && (n <=? 102)%N then Some (n - 87)%N
  else None.

(** Digits up to [;]: the value and what follows the [;]. *)
Fixpoint number (base : N) (digit : ascii -> option N) (acc : N)
    (seen : bool) (s : string) : option (N * string) :=
  match s with
  | EmptyString => None
  | String c rest =>
      if Ascii.eqb c ";" then (if seen then Some (acc, rest) else None)
      else match digit c with
           | Some d => number base digit (acc * base + d)%N true rest
           | None => None
           end
  end.

Definition first_some {A} (x y : option A) : option A :=
  match x with Some _ => x | None => y end.

Definition named (name : string) (c : ascii) (s : string)
  : option (string * string) :=
  option_map (fun rest => (String c "", rest)) (strip name s).

(** The character a reference stands for, when XML allows the character. *)
Definition numbered (r : option (N * string)) : option (string * string) :=
  match r with
  | Some (n, rest) => if char_ok n then Some (encode n, rest) else None
  | None => None
  end.

(** The reference that follows an ampersand. *)
Definition reference (s : string) : option (string * string) :=
  first_some (named "amp;" Chr.amp s)
  (first_some (named "lt;" Chr.lt s)
  (first_some (named "gt;" Chr.gt s)
  (first_some (named "quot;" Chr.dquote s)
  (first_some (named "apos;" Chr.squote s)
  (match strip "#x" s with
   | Some digits => numbered (number 16 hexdigit 0 false digits)
   | None =>
       match strip "#" s with
       | Some digits => numbered (number 10 digit 0 false digits)
       | None => None
       end
   end))))).

(** Character data up to the next tag. *)
Fixpoint chardata (fuel : nat) (s : string) : option (string * string) :=
  match fuel with
  | O => None
  | S fuel =>
      match s with
      | EmptyString => Some (EmptyString, EmptyString)
      | String c rest =>
          if Ascii.eqb c Chr.lt then Some (EmptyString, s)
          else if Ascii.eqb c Chr.amp then
            match reference rest with
            | Some (d, rest') =>
                option_map (fun r => (d ++ fst r, snd r))
                           (chardata fuel rest')
            | None => None
            end
          else
            match strip "]]>" s with
            | Some _ => None
            | None => option_map (fun r => (String c (fst r), snd r))
                                 (chardata fuel rest)
            end
      end
  end.

(** An attribute value up to the closing quote [q]; literal white space is
    normalised to a space. *)
Fixpoint attvalue (fuel : nat) (q : ascii) (s : string)
  : option (string * string) :=
  match fuel with
  | O => None
  | S fuel =>
      match s with
      | EmptyString => None
      | String c rest =>
          if Ascii.eqb c q then Some (EmptyString, rest)
          else if Ascii.eqb c Chr.lt then None
          else if Ascii.eqb c Chr.amp then
            match reference rest with
            | Some (d, rest') =>
                option_map (fun r => (d ++ fst r, snd r))
                           (attvalue fuel q rest')
            | None => None
            end
          else
            let c' := if Ascii.eqb c Chr.lf || Ascii.eqb c Chr.tab
                      then Chr.space else c in
            option_map (fun r => (String c' (fst r), snd r))
                       (attvalue fuel q rest)
      end
  end.

Definition entry (fuel : nat) (s : string)
  : option ((string * string) * string) :=
  match strip "<entry key=" s with
  | Some (String q rest) =>
      if Ascii.eqb q Chr.dquote || Ascii.eqb q Chr.squote then
        match attvalue fuel q rest with
        | Some (key, rest) =>
            match strip ">" rest with
            | Some rest =>
                match chardata fuel rest with
                | Some (value, rest) =>
                    option_map (fun rest => ((key, value), rest))
                               (strip "</entry>" rest)
                | None => None
                end
            | None => None
            end
        | None => None
        end
      else None
  | _ => None
  end.

Fixpoint entries (fuel : nat) (s : string) : option (payload * string) :=
  match fuel with
  | O => None
  | S fuel' =>
      match strip "</payload>" s with
      | Some rest => Some ([], rest)
      | None =>
          match entry (String.length s) s with
          | Some (kv, rest) =>
              option_map (fun r => (kv :: fst r, snd r)) (entries fuel' rest)
          | None => None
          end
      end
  end.

(** The API key and the payload entries of a document. *)
Definition read_event (doc : string) : option (string * payload) :=
  if negb (legal doc) then None else
  let doc := newlines doc in
  let fuel := S (String.length doc) in
  match strip xml_declaration doc with
  | Some rest =>
      match strip "<event><apiKey>" rest with
      | Some rest =>
          match chardata fuel rest with
          | Some (apikey, rest) =>
              match strip "</apiKey><payload>" rest with
              | Some rest =>
                  match entries fuel rest with
                  | Some (p, rest) =>
                      match strip "</event>" rest with
                      | Some EmptyString => Some (apikey, p)
                      | _ => None
                      end
                  | None => None
                  end
              | None => None
              end
          | None => None
          end
      | None => None
      end
  | None => None
  end.

End Reader.

(** ** The world

    The event directory, the other processes that share it, the network, and
    the few pieces of process state the program has. *)

(** A regular file: its bytes and its modification time as
    [os.path.getmtime] reports it.  That is a finite float; finite floats are
    integer multiples of one unit, 2^-1074, so an integer stands for it, with
    the same order. *)
Record file := mkfile { f_bytes : string; f_mtime : Z }.

(** The float [os.stat] makes of a modification time of [ns] nanoseconds
    since the epoch: CPython computes [sec + 1e-9 * nsec] in binary64
    arithmetic.  [st_mtime ns] is that float in units of 2^-1074 seconds. *)
Module Float.




End Float.


(** The entries of the event directory by name, in [os.listdir] order. *)
Definition dir := list (string * file).

(** What another process may do to the directory. *)
Inductive ext_action :=
| XRemove (name : string)
| XPut (name : string) (f : file).

(** The exceptions of the program.  An [HTTPError] carries the response it
    was made of, body unread: [fp] is what [e.read()] will give. *)
Inductive exn :=
| OSError (path : string)
| UnicodeDecodeError
| UnicodeEncodeError
| HTTPError (code : Z) (reason : string) (fp : stream)
| URLError (reason : string)
| OtherError (rendered : string)     (* some other subclass of Exception *)
| SystemExit (status : Z)
with stream :=
| Bytes (s : string)                 (* the whole body arrives *)
| Breaks (e : exn).                  (* reading ends in [e]: IncompleteRead, a timeout *)

(** What the network and the remote service make of one request. *)
Inductive wire :=
| Response (status : Z) (reason body : string)
    (* the final response, redirects followed *)
| Cut (status : Z) (reason : string) (failure : exn)
    (* status line and headers of the final response arrive, the body does
       not: reading it ends in [failure] *)
| Unreachable (reason : string)
    (* connection refused, name resolution, TLS, connect timeout *)
| Broken (rendered : string).
    (* any other failure inside the client *)

Record request := mkrequest {
  rq_url : string;
  rq_data : string;
  rq_headers : list (string * string)
}.

(** The verdict of the operating system on one writing system call. *)
Inductive fault :=
| NoFault
| Fault
| PartialFault (written : nat).  (* that many bytes got out, then an error *)

(** Our descriptor on the lock file. *)
Inductive lock_state := LockClosed | LockOpen | LockHeld.

Record world := mkworld {
  w_dir : dir;
  w_others : list (list ext_action);
    (* what other processes do just before each of our next system calls *)
  w_net : nat -> request -> wire;  (* the answer to our n-th request *)
  w_nreq : nat;                    (* requests made so far *)
  w_faults : list fault;           (* verdicts for our next writing calls *)
  w_clock : Z;                     (* modification time given to what we write *)
  w_fd : option string;            (* the file we have open for writing *)
  w_lock : lock_state;
  w_docker_mode : option string;   (* the environment variable DOCKER_MODE *)
  w_strict_stdout : bool
    (* [sys.stdout] refuses text it cannot encode ([errors='strict'], the
       default under a UTF-8 locale); under the C locale it does not *)
}.

Definition with_dir (d : dir) (w : world) : world :=
  mkworld d (w_others w) (w_net w) (w_nreq w) (w_faults w) (w_clock w)
          (w_fd w) (w_lock w) (w_docker_mode w) (w_strict_stdout w).
Definition with_others (o : list (list ext_action)) (w : world) : world :=
  mkworld (w_dir w) o (w_net w) (w_nreq w) (w_faults w) (w_clock w)
          (w_fd w) (w_lock w) (w_docker_mode w) (w_strict_stdout w).
Definition with_nreq (n : nat) (w : world) : world :=
  mkworld (w_dir w) (w_others w) (w_net w) n (w_faults w) (w_clock w)
          (w_fd w) (w_lock w) (w_docker_mode w) (w_strict_stdout w).
Definition with_faults (l : list fault) (w : world) : world :=
  mkworld (w_dir w) (w_others w) (w_net w) (w_nreq w) l (w_clock w)
          (w_fd w) (w_lock w) (w_docker_mode w) (w_strict_stdout w).
Definition with_fd (fd : option string) (w : world) : world :=
  mkworld (w_dir w) (w_others w) (w_net w) (w_nreq w) (w_faults w) (w_clock w)
          fd (w_lock w) (w_docker_mode w) (w_strict_stdout w).
Definition with_lock (l : lock_state) (w : world) : world :=
  mkworld (w_dir w) (w_others w) (w_net w) (w_nreq w) (w_faults w) (w_clock w)
          (w_fd w) l (w_docker_mode w) (w_strict_stdout w).

(** *** The directory *)

Definition has_name (name : string) (e : string * file) : bool :=
  String.eqb (fst e) name.

Fixpoint remove_first (p : string * file -> bool) (d : dir) : dir :=
  match d with
  | [] => []
  | e :: d' => if p e then d' else e :: remove_first p d'
  end.

(** Create the entry or replace it where it stands. *)
Fixpoint put (name : string) (f : file) (d : dir) : dir :=
  match d with
  | [] => [(name, f)]
  | e :: d' => if has_name name e then (name, f) :: d' else e :: put name f d'
  end.

Definition apply_ext (a : ext_action) (d : dir) : dir :=
  match a with
  | XRemove name => remove_first (has_name name) d
  | XPut name f => put name f d
  end.

(** The other processes take their turn. *)
Definition tick (w : world) : world :=
  match w_others w with
  | [] => w
  | acts :: later =>
      with_others later (with_dir (fold_left (fun d a => apply_ext a d) acts (w_dir w)) w)
  end.

(** [flush] reaches the files through paths [join(directory, name)]: such a
    path denotes the entry [name]. *)
Definition denotes (directory path : string) (e : string * file) : bool :=
  String.eqb (Str.join directory (fst e)) path.

Definition lookup (directory path : string) (d : dir) : option (string * file) :=
  find (denotes directory path) d.

(** [persist_event] and [lock_and_flush] build their paths as
    ["%s/%s" % (directory, name)]: the name such a path creates. *)
Definition name_of (directory path : string) : option string :=
  Str.strip_prefix (directory ++ "/") path.

(** ** Effects and the monad *)

(** [isinstance(e, IOError)]: [IOError] is [OSError], and [URLError] and
    [HTTPError] derive from it. *)
Definition is_IOError (e : exn) : bool :=
  match e with
  | OSError _ | HTTPError _ _ _ | URLError _ => true
  | _ => false
  end.

(** [isinstance(e, Exception)] *)
Definition is_Exception (e : exn) : bool :=
  match e with
  | SystemExit _ => false
  | _ => true
  end.

Inductive priority := LOG_ERR | LOG_WARNING | LOG_INFO.
Inductive sink := Stdout | Stderr | Syslog (p : priority).

(** The texts the program logs, by their format string. *)
Inductive message :=
| MWriting                                     (* writing event to disk... *)
| MPayload (p : payload)                       (* the payload itself *)
| MCreated (file_path : string)                (* created event file in %s *)
| MCouldNotWrite (file_path : string) (e : exn)
                                               (* could not write event to %s. Cause: %s %s *)
| MSending (event : string)                    (* sending event %s to iLert... *)
| MTooMany (body : string)                     (* too many requests, will try later. Server response: %s *)
| MNotAccepted (body : string)                 (* event not accepted by iLert. Reason: %s *)
| MHttpError (code : Z) (reason body : string) (* could not send event to iLert. HTTP error code %s, reason: %s, %s *)
| MUnreachable (reason : string)               (* could not send event to iLert. Reason: %s *)
| MUnexpected (e : exn)                        (* an unexpected error occurred. Please report a bug. Cause: %s %s *)
| MSent (event : string).                      (* event %s has been sent to iLert and removed from event directory *)

(** What the process does that can be seen from outside. *)
Inductive effect :=
| ELog (to : sink) (level : string) (m : message)  (* through [log] *)
| EStderr (m : message)                            (* [sys.stderr.write] *)
| EOpen (path : string)                            (* [open(path, 'r')] *)
| ESend (event : string) (rq : request) (answer : wire)
    (* [urlopen] for the event file [event] *)
| ERemove (path : string).                         (* [os.remove(path)] *)

Inductive outcome (A : Type) :=
| Ok (a : A)
| Raised (e : exn).
Arguments Ok {A} a.
Arguments Raised {A} e.

Definition M (A : Type) : Type := world -> outcome A * world * list effect.

Definition ret {A} (a : A) : M A := fun w => (Ok a, w, []).

Definition raise {A} (e : exn) : M A := fun w => (Raised e, w, []).

Definition bind {A B} (m : M A) (k : A -> M B) : M B := fun w =>
  match m w with
  | (Ok a, w1, t1) => let '(r, w2, t2) := k a w1 in (r, w2, (t1 ++ t2)%list)
  | (Raised e, w1, t1) => (Raised e, w1, t1)
  end.

Declare Scope monad_scope.
Delimit Scope monad_scope with monad.
Notation "x <- m ;; k" := (bind m (fun x => k))
  (at level 61, m at next level, right associativity) : monad_scope.
Notation "m ;; k" := (bind m (fun _ => k))
  (at level 61, right associativity) : monad_scope.
Local Open Scope monad_scope.

(** [try: body / except ...: handler / else: orelse].  A handler that does
    not apply leaves the exception to propagate; exceptions raised by a
    handler or by the else clause are not handled here. *)
Definition try_except_else {A B} (body : M A) (handler : exn -> option (M B))
    (orelse : A -> M B) : M B := fun w =>
  match body w with
  | (Ok a, w1, t1) => let '(r, w2, t2) := orelse a w1 in (r, w2, (t1 ++ t2)%list)
  | (Raised e, w1, t1) =>
      match handler e with
      | Some h => let '(r, w2, t2) := h w1 in (r, w2, (t1 ++ t2)%list)
      | None => (Raised e, w1, t1)
      end
  end.

Definition try_except {A} (body : M A) (handler : exn -> option (M A)) : M A :=
  try_except_else body handler ret.

(** [try: body / finally: final] *)
Definition try_finally {A} (body : M A) (final : M unit) : M A := fun w =>
  let '(r, w1, t1) := body w in
  match final w1 with
  | (Ok _, w2, t2) => (r, w2, (t1 ++ t2)%list)
  | (Raised e, w2, t2) => (Raised e, w2, (t1 ++ t2)%list)
  end.

(** [for x in l: body x] *)
Fixpoint for_each {A} (l : list A) (body : A -> M unit) : M unit :=
  match l with
  | [] => ret tt
  | x :: l' => body x ;; for_each l' body
  end.

Fixpoint map_m {A B} (f : A -> M B) (l : list A) : M (list B) :=
  match l with
  | [] => ret []
  | x :: l' => y <- f x ;; ys <- map_m f l' ;; ret (y :: ys)
  end.

Definition result {A} (x : outcome A * world * list effect) : outcome A :=
  fst (fst x).
Definition after {A} (x : outcome A * world * list effect) : world :=
  snd (fst x).
Definition effects {A} (x : outcome A * world * list effect) : list effect :=
  snd x.

(** ** System and library calls *)

(** Every call that reaches the operating system first lets the other
    processes run ([tick]). *)

(** [os.listdir(directory)] *)
Definition listdir : M (list string) := fun w =>
  let w := tick w in (Ok (map fst (w_dir w)), w, []).

(** [os.path.getmtime(path)] *)
Definition getmtime (directory path : string) : M Z := fun w =>
  let w := tick w in
  match lookup directory path (w_dir w) with
  | Some e => (Ok (f_mtime (snd e)), w, [])
  | None => (Raised (OSError path), w, [])
  end.

(** [with open(path, 'r', encoding='utf-8') as f: f.read()]: a missing file
    is an [OSError]; bytes that are not UTF-8 are a [UnicodeDecodeError],
    which is a [ValueError]; text mode translates the line ends. *)
Definition read_text (directory path : string) : M string := fun w =>
  let w := tick w in
  match lookup directory path (w_dir w) with
  | Some e =>
      if Str.utf8_valid (f_bytes (snd e))
      then (Ok (Str.universal_newlines false (f_bytes (snd e))), w, [EOpen path])
      else (Raised UnicodeDecodeError, w, [EOpen path])
  | None => (Raised (OSError path), w, [EOpen path])
  end.

(** The verdict of the operating system on the writing call that comes
    next. *)
Definition verdict (w : world) : fault * world :=
  match w_faults w with
  | [] => (NoFault, w)
  | v :: later => (v, with_faults later w)
  end.

(** [os.remove(path)]: an [OSError] when the entry is missing, and when the
    operating system refuses (permissions, a read-only file system). *)
Definition os_remove (directory path : string) : M unit := fun w =>
  let w := tick w in
  let '(v, w) := verdict w in
  match v, lookup directory path (w_dir w) with
  | NoFault, Some _ =>
      (Ok tt, with_dir (remove_first (denotes directory path) (w_dir w)) w,
       [ERemove path])
  | _, _ => (Raised (OSError path), w, [ERemove path])
  end.

(** [urllib.request.urlopen(req, timeout=60)] with the default opener: a
    response outside 200..299 is raised as [HTTPError] by
    [HTTPErrorProcessor], its body still to be read. *)
Definition urlopen (event : string) (rq : request) : M unit := fun w =>
  let w := tick w in
  let answer := w_net w (w_nreq w) rq in
  let w := with_nreq (S (w_nreq w)) w in
  let t := [ESend event rq answer] in
  match answer with
  | Response status reason body =>
      if (200 <=? status) && (status <? 300) then (Ok tt, w, t)
      else (Raised (HTTPError status reason (Bytes body)), w, t)
  | Cut status reason failure =>
      if (200 <=? status) && (status <? 300) then (Ok tt, w, t)
      else (Raised (HTTPError status reason (Breaks failure)), w, t)
  | Unreachable reason => (Raised (URLError reason), w, t)
  | Broken rendered => (Raised (OtherError rendered), w, t)
  end.

(** [e.read()] on an [HTTPError] *)
Definition read (fp : stream) : M string := fun w =>
  let w := tick w in
  match fp with
  | Bytes s => (Ok s, w, [])
  | Breaks e => (Raised e, w, [])
  end.

(** [sys.stderr.write]: the error stream replaces what it cannot encode
    ([errors='backslashreplace']). *)
Definition stderr_write (m : message) : M unit := fun w =>
  (Ok tt, w, [EStderr m]).

(** [exit(status)] *)
Definition exit {A} (status : Z) : M A := raise (SystemExit status).

Fixpoint update (name : string) (g : file -> file) (d : dir) : dir :=
  match d with
  | [] => []
  | e :: d' =>
      if has_name name e then (fst e, g (snd e)) :: d'
      else e :: update name g d'
  end.

(** [io.open(path, mode="w", encoding="utf-8")]: creates or truncates. *)
Definition open_w (directory path : string) : M string := fun w =>
  let w := tick w in
  let '(v, w) := verdict w in
  match v, name_of directory path with
  | NoFault, Some name =>
      (Ok name,
       with_fd (Some name)
         (with_dir (put name (mkfile "" (w_clock w)) (w_dir w)) w), [])
  | _, _ => (Raised (OSError path), w, [])
  end.

(** [f.write(data)]: text that has no UTF-8 encoding is refused; otherwise
    all of it, or on a fault a part of it, is added to the file. *)
Definition fwrite (f data : string) : M unit := fun w =>
  if negb (Str.utf8_valid data) then (Raised UnicodeEncodeError, w, [])
  else
    let w := tick w in
    let '(v, w) := verdict w in
    let add part :=
      with_dir (update f (fun old => mkfile (f_bytes old ++ part) (w_clock w))
                       (w_dir w)) w in
    match v with
    | NoFault => (Ok tt, add data, [])
    | Fault => (Raised (OSError f), w, [])
    | PartialFault n => (Raised (OSError f), add (substring 0 n data), [])
    end.

(** [f.flush()] *)
Definition fflush (f : string) : M unit := fun w =>
  let '(v, w) := verdict w in
  match v with
  | NoFault => (Ok tt, w, [])
  | _ => (Raised (OSError f), w, [])
  end.

(** [f.close()]: nothing to do on a file that is closed already. *)
Definition fclose (f : string) : M unit := fun w =>
  match w_fd w with
  | None => (Ok tt, w, [])
  | Some _ =>
      let '(v, w) := verdict w in
      let w := with_fd None w in
      match v with
      | NoFault => (Ok tt, w, [])
      | _ => (Raised (OSError f), w, [])
      end
  end.

(** [with io.open(...) as f: body f] *)
Definition with_open {A} (directory path : string) (body : string -> M A) : M A :=
  f <- open_w directory path ;; try_finally (body f) (fclose f).

(** [os.rename(src, dst)]: atomic, replaces [dst]. *)
Definition os_rename (directory src dst : string) : M unit := fun w =>
  let w := tick w in
  let '(v, w) := verdict w in
  match v, name_of directory src, name_of directory dst with
  | NoFault, Some s, Some d =>
      match find (has_name s) (w_dir w) with
      | Some e =>
          (Ok tt,
           with_dir (put d (snd e) (remove_first (has_name s) (w_dir w))) w, [])
      | None => (Raised (OSError src), w, [])
      end
  | _, _, _ => (Raised (OSError src), w, [])
  end.

(** [lockfile = open(lock_filename, "w")] *)
Definition open_lockfile (directory path : string) : M unit := fun w =>
  let w := tick w in
  let '(v, w) := verdict w in
  match v, name_of directory path with
  | NoFault, Some name =>
      (Ok tt,
       with_lock LockOpen
         (with_dir (put name (mkfile "" (w_clock w)) (w_dir w)) w), [])
  | _, _ => (Raised (OSError path), w, [])
  end.

(** [fcntl.flock(lockfile.fileno(), fcntl.LOCK_EX)]: returns once no other
    process holds the lock. *)
Definition flock_ex : M unit := fun w =>
  let '(v, w) := verdict w in
  match v with
  | NoFault => (Ok tt, with_lock LockHeld w, [])
  | _ => (Raised (OSError "lockfile"), w, [])
  end.

(** [lockfile.close()]: closing the only descriptor gives the lock up. *)
Definition close_lockfile : M unit := fun w =>
  (Ok tt, with_lock LockClosed w, []).

(** [sorted(l, key=key)]: the keys are computed first, one call per element
    in list order; the sort is stable. *)
Fixpoint insert_keyed (x : Z * string) (l : list (Z * string)) : list (Z * string) :=
  match l with
  | [] => [x]
  | y :: l' => if fst x <=? fst y then x :: l else y :: insert_keyed x l'
  end.

Fixpoint sort_keyed (l : list (Z * string)) : list (Z * string) :=
  match l with
  | [] => []
  | x :: l' => insert_keyed x (sort_keyed l')
  end.

Definition sorted (l : list string) (key : string -> M Z) : M (list string) :=
  keys <- map_m key l ;;
  ret (map snd (sort_keyed (combine keys l))).

(** ** The program *)

Definition PLUGIN_VERSION : string := "1.5".

(** Can the line [log] makes of the message be encoded in UTF-8?  The
    paths and the reason are put into the line as they are, and a [str] made
    of bytes that are no UTF-8 holds lone surrogates, which the strict codec
    refuses.  Everything else goes through [repr] (a [dict], a [bytes], a
    type, a tuple of arguments), which writes such characters as escapes. *)
Definition encodable (m : message) : bool :=
  match m with
  | MCreated file_path | MCouldNotWrite file_path _ => Str.utf8_valid file_path
  | MSending event | MSent event => Str.utf8_valid event
  | MUnreachable reason => Str.utf8_valid reason
  | MWriting | MPayload _ | MTooMany _ | MNotAccepted _ | MHttpError _ _ _
  | MUnexpected _ => true
  end.

(** [log(level, message)]; the time stamp in front of the line is left out.
    [syslog.syslog] encodes the line in UTF-8 and [sys.stdout.write] in the
    encoding of the stream: a line that cannot be encoded is a
    [UnicodeEncodeError] and nothing is written.  [sys.stderr] replaces what
    it cannot encode. *)
Definition log (level : string) (m : message) : M unit := fun w =>
  let docker_mode :=
    match w_docker_mode w with Some v => v | None => "false" end in
  if String.eqb docker_mode "yes" || String.eqb docker_mode "true"
     || String.eqb docker_mode "y"
  then
    if String.eqb level "ERROR" then (Ok tt, w, [ELog Stderr level m])
    else if w_strict_stdout w && negb (encodable m)
         then (Raised UnicodeEncodeError, w, [])
         else (Ok tt, w, [ELog Stdout level m])
  else
    if negb (encodable m) then (Raised UnicodeEncodeError, w, [])
    else if String.eqb level "ERROR"
         then (Ok tt, w, [ELog (Syslog LOG_ERR) level m])
         else if String.eqb level "WARN"
              then (Ok tt, w, [ELog (Syslog LOG_WARNING) level m])
              else (Ok tt, w, [ELog (Syslog LOG_INFO) level m]).

(** [persist_event(api_key, directory, payload)]; [uid] is what
    [uuid.uuid4()] returns. *)
Definition persist_event (api_key directory : string) (p : payload)
    (uid : string) : M unit :=
  log "INFO" MWriting ;;
  log "INFO" (MPayload p) ;;
  let xml_doc := create_xml api_key p in
  let filename := uid ++ ".ilert" in
  let filename_tmp := uid ++ ".tmp" in
  let file_path := directory ++ "/" ++ filename in
  let file_path_tmp := directory ++ "/" ++ filename_tmp in
  try_except
    (with_open directory file_path_tmp (fun f =>
       fwrite f xml_doc ;;
       fflush f ;;
       fclose f ;;
       os_rename directory file_path_tmp file_path ;;
       log "INFO" (MCreated file_path)))
    (fun e =>
       if is_Exception e
       then Some (log "ERROR" (MCouldNotWrite file_path e) ;; exit 1)
       else None).

Definition headers : list (string * string) :=
  [("Content-type", "application/xml"); ("Accept", "application/xml")].

(** The [except HTTPError as e] clause of [flush]: each branch reads the
    body first, inside the clause, where no handler covers it. *)
Definition on_http_error (directory event : string) (code : Z)
    (reason : string) (fp : stream) : M unit :=
  if code =? 429 then
    body <- read fp ;;
    log "WARN" (MTooMany body)
  else if (400 <=? code) && (code <=? 499) then
    body <- read fp ;;
    log "WARN" (MNotAccepted body) ;;
    os_remove directory event
  else
    body <- read fp ;;
    stderr_write (MHttpError code reason body).

(** The body of the loop of [flush] for one event file.  The text was
    decoded from UTF-8, so encoding it again cannot fail. *)
Definition flush_event (directory url event : string) : M unit :=
  r <- try_except
         (xml_doc <- read_text directory event ;; ret (Some xml_doc))
         (fun e => if is_IOError e then Some (ret None) else None) ;;
  match r with
  | None => ret tt  (* continue *)
  | Some xml_doc =>
      log "INFO" (MSending event) ;;
      try_except_else
        (let data := xml_doc in  (* the UTF-8 encoding of the text *)
         let req := mkrequest url data headers in
         urlopen event req)
        (fun e =>
           match e with
           | HTTPError code reason fp =>
               Some (on_http_error directory event code reason fp)
           | URLError reason => Some (log "ERROR" (MUnreachable reason))
           | _ =>
               if is_Exception e then Some (log "ERROR" (MUnexpected e))
               else None
           end)
        (fun _ =>
           os_remove directory event ;;
           log "INFO" (MSent event))
  end.

(** The event files of the directory, oldest first. *)
Definition pending (directory : string) : M (list string) :=
  names <- listdir ;;
  let events := map (fun f => Str.join directory f) names in
  let events := filter (fun x => Str.endswith x ".ilert") events in
  sorted events (fun x => getmtime directory x).

(** [flush(endpoint, directory, port)] *)
Definition flush (endpoint directory : string) (port : Z) : M unit :=
  let url := endpoint ++ ":" ++ Str.of_int port ++ "/api/v1/events/icinga" in
  events <- pending directory ;;
  for_each events (flush_event directory url).

(** [lock_and_flush(endpoint, directory, port)] *)
Definition lock_and_flush (endpoint directory : string) (port : Z) : M unit :=
  let lock_filename := directory ++ "/lockfile" in
  open_lockfile directory lock_filename ;;
  try_finally
    (flock_ex ;;
     flush endpoint directory port)
    close_lockfile.

(** * Properties *)

(** ** Running the monad *)

Definition quiet (w : world) : Prop := w_others w = [].

Lemma tick_quiet w : quiet w -> tick w = w.
Proof. unfold quiet, tick. now intros ->. Qed.

(** Where a line of the given level goes. *)
Definition sink_of (w : world) (level : string) : sink :=
  let docker_mode :=
    match w_docker_mode w with Some v => v | None => "false" end in
  if String.eqb docker_mode "yes" || String.eqb docker_mode "true"
     || String.eqb docker_mode "y"
  then if String.eqb level "ERROR" then Stderr else Stdout
  else if String.eqb level "ERROR" then Syslog LOG_ERR
       else if String.eqb level "WARN" then Syslog LOG_WARNING
            else Syslog LOG_INFO.

(** Does the sink of that level refuse a line it cannot encode? *)
Definition strict (w : world) (level : string) : bool :=
  match sink_of w level with
  | Stderr => false
  | Stdout => w_strict_stdout w
  | Syslog _ => true
  end.

(** [log] gets the line out. *)
Definition speaks (w : world) (level : string) (m : message) : bool :=
  negb (strict w level) || encodable m.

Lemma log_run level m w :
  log level m w =
  if speaks w level m then (Ok tt, w, [ELog (sink_of w level) level m])
  else (Raised UnicodeEncodeError, w, []).
Proof.
  unfold log, speaks, strict, sink_of.
  destruct (_ || _); repeat (destruct (String.eqb level _));
    cbn [negb orb]; try reflexivity;
    destruct (encodable m), (w_strict_stdout w); reflexivity.
Qed.

Lemma speaks_encodable level m w : encodable m = true -> speaks w level m = true.
Proof. unfold speaks. intros ->. apply orb_true_r. Qed.

(** What a call of [log] leaves behind, whether it gets the line out or
    not. *)
Lemma log_after level m w : after (log level m w) = w.
Proof. rewrite log_run. now destruct (speaks w level m). Qed.

Lemma bind_run {A B} (m : M A) (k : A -> M B) w :
  bind m k w =
  match m w with
  | (Ok a, w1, t1) => let '(r, w2, t2) := k a w1 in (r, w2, (t1 ++ t2)%list)
  | (Raised e, w1, t1) => (Raised e, w1, t1)
  end.
Proof. reflexivity. Qed.

Lemma for_each_cons {A} (x : A) l body w :
  for_each (x :: l) body w =
  match body x w with
  | (Ok _, w1, t1) =>
      let '(r, w2, t2) := for_each l body w1 in (r, w2, (t1 ++ t2)%list)
  | (Raised e, w1, t1) => (Raised e, w1, t1)
  end.
Proof. reflexivity. Qed.

(** ** The lock (C5) *)

Section Lock.

Variables (endpoint directory : string) (port : Z).

Lemma tick_lock w : w_lock (tick w) = w_lock w.
Proof. unfold tick. now destruct (w_others w). Qed.

Lemma verdict_lock w : w_lock (snd (verdict w)) = w_lock w.
Proof. unfold verdict. now destruct (w_faults w). Qed.

Lemma open_lockfile_raised w e w1 t :
  open_lockfile directory (directory ++ "/lockfile") w = (Raised e, w1, t) ->
  w_lock w1 = w_lock w.
Proof.
  unfold open_lockfile.
  pose proof (verdict_lock (tick w)) as Hv.
  destruct (verdict (tick w)) as [v w']. simpl in Hv.
  rewrite tick_lock in Hv.
  destruct v; [destruct (name_of _ _)|..]; intros H; inversion H; subst;
    assumption.
Qed.

(** C5.  When [lock_and_flush] is left, normally or by an exception (of
    opening the lock file, of taking the lock, of [flush]), the process does
    not hold the lock: the descriptor it took it on is closed. *)
Theorem lock_released_on_every_exit_path w :
  w_lock w = LockClosed ->
  w_lock (after (lock_and_flush endpoint directory port w)) = LockClosed.
Proof.
  intros Hw. unfold lock_and_flush. rewrite bind_run.
  destruct (open_lockfile _ _ w) as [[[[]|e] w1] t1] eqn:Hopen.
  - unfold try_finally, close_lockfile.
    destruct (bind flock_ex _ w1) as [[r w2] t2]. reflexivity.
  - apply open_lockfile_raised in Hopen. unfold after; simpl. congruence.
Qed.

End Lock.

(** ** Outcome classification *)

(** The table of the specification, in its words: what is done with the
    event file, and where the outcome is reported.  It goes by the status of
    the final response, whether or not its body can be read. *)
Inductive action := Delete | Keep.
Inductive notice := LogInfo | LogWarning | ErrorStream | LogError.

Definition table (answer : wire) : action * notice :=
  match answer with
  | Response status _ _ | Cut status _ _ =>
      if (200 <=? status) && (status <=? 299) then (Delete, LogInfo)
      else if status =? 429 then (Keep, LogWarning)
      else if (400 <=? status) && (status <=? 499) then (Delete, LogWarning)
      else (Keep, ErrorStream)
  | Unreachable _ => (Keep, LogError)
  | Broken _ => (Keep, LogError)
  end.

Definition deleting (answer : wire) : bool :=
  match fst (table answer) with Delete => true | Keep => false end.


Definition is_notice (e : effect) : Prop :=
  match e with
  | ELog _ _ _ | EStderr _ => True
  | _ => False
  end.


(** What [flush_event] does once the answer to its request is known. *)
Definition dispose (directory event : string) (answer : wire) : M unit :=
  match answer with
  | Response status reason body =>
      if (200 <=? status) && (status <? 300) then
        os_remove directory event ;; log "INFO" (MSent event)
      else on_http_error directory event status reason (Bytes body)
  | Cut status reason failure =>
      if (200 <=? status) && (status <? 300) then
        os_remove directory event ;; log "INFO" (MSent event)
      else on_http_error directory event status reason (Breaks failure)
  | Unreachable reason => log "ERROR" (MUnreachable reason)
  | Broken rendered => log "ERROR" (MUnexpected (OtherError rendered))
  end.

Lemma sink_of_tick w level : sink_of (tick w) level = sink_of w level.
Proof. unfold tick. now destruct (w_others w). Qed.

Lemma speaks_tick w level m : speaks (tick w) level m = speaks w level m.
Proof.
  unfold speaks, strict. rewrite sink_of_tick.
  unfold tick. now destruct (w_others w).
Qed.

Lemma two_xx status :
  (200 <=? status) && (status <? 300) = (200 <=? status) && (status <=? 299).
Proof.
  destruct (200 <=? status); simpl; [|reflexivity].
  destruct (Z.ltb_spec status 300), (Z.leb_spec status 299); reflexivity || lia.
Qed.

Lemma read_run fp w :
  read fp w = match fp with
              | Bytes s => (Ok s, tick w, [])
              | Breaks e => (Raised e, tick w, [])
              end.
Proof. now destruct fp. Qed.

Lemma os_remove_run directory path w :
  os_remove directory path w =
  let w1 := snd (verdict (tick w)) in
  match fst (verdict (tick w)), lookup directory path (w_dir w1) with
  | NoFault, Some _ =>
      (Ok tt, with_dir (remove_first (denotes directory path) (w_dir w1)) w1,
       [ERemove path])
  | _, _ => (Raised (OSError path), w1, [ERemove path])
  end.
Proof. unfold os_remove. now destruct (verdict (tick w)) as [v w1]. Qed.

Section Classification.

Variables (directory url event : string).

(** One turn of the loop, step by step. *)
Lemma flush_event_run w :
  flush_event directory url event w =
  let w1 := tick w in
  match lookup directory event (w_dir w1) with
  | None => (Ok tt, w1, [EOpen event])
  | Some e =>
      if Str.utf8_valid (f_bytes (snd e)) then
        if speaks w "INFO" (MSending event) then
          let rq := mkrequest url (Str.universal_newlines false (f_bytes (snd e)))
                              headers in
          let w2 := tick w1 in
          let answer := w_net w2 (w_nreq w2) rq in
          let '(r, w3, t) :=
            dispose directory event answer (with_nreq (S (w_nreq w2)) w2) in
          (r, w3,
           [EOpen event; ELog (sink_of w "INFO") "INFO" (MSending event);
            ESend event rq answer] ++ t)%list
        else (Raised UnicodeEncodeError, w1, [EOpen event])
      else (Raised UnicodeDecodeError, w1, [EOpen event])
  end.
Proof.
  unfold flush_event. rewrite bind_run.
  unfold try_except, try_except_else. rewrite bind_run. unfold read_text, ret.
  cbv zeta.
  destruct (lookup directory event (w_dir (tick w))) as [e|]; [|reflexivity].
  destruct (Str.utf8_valid (f_bytes (snd e))); [|reflexivity].
  cbn [app]. rewrite bind_run, log_run, sink_of_tick, speaks_tick.
  destruct (speaks w "INFO" (MSending event)); [|reflexivity].
  unfold urlopen, dispose. cbv zeta.
  destruct (w_net _ _ _) as [status reason body|status reason failure
                            |reason|rendered]; cbn [is_Exception];
    try (destruct ((200 <=? status) && (status <? 300)));
    match goal with
    | |- context [bind ?m ?k ?w'] =>
        destruct (bind m k w') as [[r w3] t]; reflexivity
    | |- context [on_http_error ?d ?ev ?c ?rs ?fp ?w'] =>
        destruct (on_http_error d ev c rs fp w') as [[r w3] t]; reflexivity
    | |- context [log ?l ?m ?w'] =>
        destruct (log l m w') as [[r w3] t]; reflexivity
    end.
Qed.

(** The effects of what follows an answer: notices, and at most one removal,
    of this event's file, under the table's licence. *)
Lemma dispose_effects answer w :
  exists t1 t2 (b : bool),
    effects (dispose directory event answer w)
    = (t1 ++ (if b then [ERemove event] else []) ++ t2)%list
    /\ Forall is_notice t1 /\ Forall is_notice t2
    /\ (b = true -> deleting answer = true).
Proof.
  unfold dispose, on_http_error, deleting, table.
  destruct answer as [status reason body|status reason failure
                     |reason|rendered];
    rewrite ?two_xx;
    try (destruct ((200 <=? status) && (status <=? 299));
         [|destruct (status =? 429);
           [|destruct ((400 <=? status) && (status <=? 499))]]);
    unfold bind, stderr_write; rewrite ?read_run, ?os_remove_run; cbv zeta;
    repeat match goal with
           | |- context [log ?l ?m ?w'] => rewrite (log_run l m w')
           | |- context [os_remove ?d ?p ?w'] =>
               rewrite (os_remove_run d p w'); cbv zeta
           | |- context [if speaks ?w' ?l ?m then _ else _] =>
               destruct (speaks w' l m)
           | |- context [match fst (verdict ?w') with _ => _ end] =>
               destruct (fst (verdict w'))
           | |- context [match lookup ?d ?p ?l with _ => _ end] =>
               destruct (lookup d p l)
           end;
    unfold effects; cbn [snd fst app];
    first
      [ solve [exists [], [], false; split; [reflexivity|];
               repeat split; (constructor || discriminate)]
      | solve [exists [], [], true; split; [reflexivity|];
               repeat split; constructor]
      | solve [eexists [_], [], false; split; [reflexivity|];
               repeat split; repeat constructor; discriminate]
      | solve [eexists [], [_], true; split; [reflexivity|];
               repeat split; repeat constructor]
      | solve [eexists [_], [], true; split; [reflexivity|];
               repeat split; repeat constructor] ].
Qed.




End Classification.

Section Loop.

Variables (directory url : string).


Lemma map_m_getmtime_effects l : forall w,
  effects (map_m (fun x => getmtime directory x) l w) = [].
Proof.
  induction l as [|x l IH]; intros w; [reflexivity|].
  simpl. unfold bind, getmtime.
  destruct (lookup directory x (w_dir (tick w))); [|reflexivity].
  specialize (IH (tick w)).
  destruct (map_m _ l (tick w)) as [[[ys|e] w1] t1]; unfold effects in *;
    simpl in *; subst; reflexivity.
Qed.

Lemma pending_effects w : effects (pending directory w) = [].
Proof.
  unfold pending, sorted, bind, listdir.
  match goal with |- context [map_m ?f ?l ?w'] =>
    pose proof (map_m_getmtime_effects l w') as H;
    destruct (map_m f l w') as [[[ys|e] w1] t1]
  end; unfold effects in *; simpl in *; subst; reflexivity.
Qed.

End Loop.

Lemma flush_run endpoint directory port w :
  flush endpoint directory port w =
  let url := endpoint ++ ":" ++ Str.of_int port ++ "/api/v1/events/icinga" in
  match pending directory w with
  | (Ok events, w1, _) => for_each events (flush_event directory url) w1
  | (Raised e, w1, _) => (Raised e, w1, [])
  end.
Proof.
  unfold flush, bind. pose proof (pending_effects directory w) as H.
  destruct (pending directory w) as [[[events|e] w1] t1];
    unfold effects in H; simpl in H; subst; [|reflexivity].
  now destruct (for_each _ _ w1) as [[r w2] t2].
Qed.


(** ** The order of delivery: [sorted] *)

Section Sorting.

Definition key_rel (R : Z -> Z -> Prop) (a b : Z * string) : Prop :=
  R (fst a) (fst b).

Lemma insert_keyed_perm x l : Permutation (insert_keyed x l) (x :: l).
Proof.
  induction l as [|y l IH]; simpl; [reflexivity|].
  destruct (fst x <=? fst y); [reflexivity|].
  rewrite IH. apply perm_swap.
Qed.

Lemma sort_keyed_perm l : Permutation (sort_keyed l) l.
Proof.
  induction l as [|x l IH]; simpl; [reflexivity|].
  rewrite insert_keyed_perm. now constructor.
Qed.

Lemma insert_keyed_sorted x l :
  StronglySorted (key_rel Z.le) l ->
  StronglySorted (key_rel Z.le) (insert_keyed x l).
Proof.
  induction 1 as [|y l Hl IH Hy]; simpl.
  - constructor; constructor.
  - destruct (Z.leb_spec (fst x) (fst y)) as [Hxy|Hxy].
    + constructor; [now constructor|].
      constructor; [exact Hxy|].
      eapply Forall_impl; [|exact Hy].
      unfold key_rel. intros a Ha. lia.
    + constructor; [exact IH|].
      rewrite insert_keyed_perm. constructor; [|exact Hy].
      unfold key_rel. lia.
Qed.

Lemma sort_keyed_sorted l : StronglySorted (key_rel Z.le) (sort_keyed l).
Proof.
  induction l as [|x l IH]; simpl; [constructor|].
  now apply insert_keyed_sorted.
Qed.

(** Equal keys keep the order of the listing: the sort is stable. *)
Lemma insert_keyed_first x l :
  Forall (fun y => fst x <= fst y) l -> insert_keyed x l = x :: l.
Proof.
  destruct l as [|y l]; [reflexivity|]. intros H. simpl.
  inversion H; subst. destruct (Z.leb_spec (fst x) (fst y)); [reflexivity|lia].
Qed.

Lemma sort_keyed_stable l :
  StronglySorted (key_rel Z.le) l -> sort_keyed l = l.
Proof.
  induction 1 as [|x l Hl IH Hx]; simpl; [reflexivity|].
  rewrite IH. now apply insert_keyed_first.
Qed.

Lemma sorted_distinct_strict l :
  StronglySorted (key_rel Z.le) l -> NoDup (map fst l) ->
  StronglySorted (key_rel Z.lt) l.
Proof.
  induction 1 as [|x l Hl IH Hx]; intros Hnd; [constructor|].
  simpl in Hnd. inversion Hnd as [|k ks Hnotin Hnd']; subst.
  constructor; [now apply IH|].
  rewrite Forall_forall in *. intros y Hy.
  specialize (Hx y Hy). unfold key_rel in *.
  assert (fst x <> fst y).
  { intros E. apply Hnotin. rewrite E. now apply in_map. }
  lia.
Qed.

Lemma sorted_project (R : Z -> Z -> Prop) (m : string -> Z) l :
  StronglySorted (key_rel R) l ->
  Forall (fun kp => fst kp = m (snd kp)) l ->
  StronglySorted (fun p q => R (m p) (m q)) (map snd l).
Proof.
  induction 1 as [|x l Hl IH Hx]; intros Hm; simpl; [constructor|].
  inversion Hm as [|? ? Hmx Hml]; subst.
  constructor; [now apply IH|].
  rewrite Forall_forall in *. intros q Hq.
  apply in_map_iff in Hq as [kq [<- Hin]].
  specialize (Hx kq Hin). unfold key_rel in Hx.
  now rewrite Hmx, (Hml kq Hin) in Hx.
Qed.

(** What [sorted] returns when every key is [m] of its element. *)
Definition by_key (m : string -> Z) (l : list string) : list string :=
  map snd (sort_keyed (map (fun p => (m p, p)) l)).

Lemma by_key_perm m l : Permutation (by_key m l) l.
Proof.
  unfold by_key. rewrite sort_keyed_perm, map_map. simpl.
  now rewrite map_id.
Qed.


Lemma by_key_strict m l :
  NoDup (map m l) -> StronglySorted (fun p q => m p < m q) (by_key m l).
Proof.
  intros Hnd. unfold by_key. apply (sorted_project Z.lt).
  - apply sorted_distinct_strict; [apply sort_keyed_sorted|].
    eapply Permutation_NoDup; [|exact Hnd].
    rewrite sort_keyed_perm, map_map. simpl. reflexivity.
  - eapply Permutation_Forall; [symmetry; apply sort_keyed_perm|].
    rewrite Forall_forall. intros kp Hin.
    apply in_map_iff in Hin as [p [<- _]]. reflexivity.
Qed.

Lemma combine_map_self {A B} (f : A -> B) (l : list A) :
  combine (map f l) l = map (fun x => (f x, x)) l.
Proof. induction l as [|x l IH]; simpl; [reflexivity | now rewrite IH]. Qed.

End Sorting.

(** ** The directory under [flush] *)

Definition permanent (e : string * file) : bool :=
  Str.endswith (fst e) ".ilert".

(** The paths [flush] selects from a listing. *)
Definition selected (directory : string) (d : dir) : list string :=
  filter (fun x => Str.endswith x ".ilert")
         (map (fun f => Str.join directory f) (map fst d)).

Definition mtime_of (directory : string) (d : dir) (path : string) : Z :=
  match lookup directory path d with
  | Some e => f_mtime (snd e)
  | None => 0
  end.

(** The text [flush] reads from a path and the request it makes of it. *)
Definition text_of (directory : string) (d : dir) (path : string) : string :=
  match lookup directory path d with
  | Some e => Str.universal_newlines false (f_bytes (snd e))
  | None => ""
  end.

Definition request_for (directory url : string) (d : dir) (path : string)
  : request :=
  mkrequest url (text_of directory d path) headers.

(** Every event file holds UTF-8 text. *)
Definition decodable (d : dir) : Prop :=
  forall e, In e d -> permanent e = true -> Str.utf8_valid (f_bytes (snd e)) = true.

(** Names in a directory are distinct and have no slash in them. *)
Definition well_formed (d : dir) : Prop :=
  NoDup (map fst d) /\ forall e, In e d -> Str.contains "/" (fst e) = false.

Definition sends (t : list effect) : list (string * request) :=
  flat_map (fun e => match e with ESend ev rq _ => [(ev, rq)] | _ => [] end) t.

Definition opened (t : list effect) : list string :=
  flat_map (fun e => match e with EOpen p => [p] | _ => [] end) t.

Section RemoveFirst.

Lemma remove_first_in p (d : dir) e : In e (remove_first p d) -> In e d.
Proof.
  induction d as [|x d IH]; simpl; [tauto|].
  destruct (p x); simpl; intuition.
Qed.

Lemma remove_first_filter p q (d : dir) :
  (forall e, p e = true -> q e = false) ->
  filter q (remove_first p d) = filter q d.
Proof.
  intros Hpq. induction d as [|x d IH]; simpl; [reflexivity|].
  destruct (p x) eqn:Ep; simpl.
  - now rewrite (Hpq x Ep).
  - now rewrite IH.
Qed.

Lemma remove_first_find p q (d : dir) :
  (forall e, p e = true -> q e = false) ->
  find q (remove_first p d) = find q d.
Proof.
  intros Hpq. induction d as [|x d IH]; simpl; [reflexivity|].
  destruct (p x) eqn:Ep; simpl.
  - now rewrite (Hpq x Ep).
  - now rewrite IH.
Qed.

End RemoveFirst.

Section Directory.

Variable directory : string.

Lemma denotes_spec path e :
  denotes directory path e = true <-> Str.join directory (fst e) = path.
Proof. unfold denotes. apply String.eqb_eq. Qed.

Lemma denotes_permanent path e :
  denotes directory path e = true ->
  permanent e = Str.endswith path ".ilert".
Proof.
  intros H. apply denotes_spec in H. subst path. unfold permanent.
  symmetry. apply join_endswith.
Qed.

Lemma lookup_some path (d : dir) e :
  lookup directory path d = Some e ->
  In e d /\ Str.join directory (fst e) = path.
Proof.
  unfold lookup. intros H. apply find_some in H as [Hin Hd].
  split; [exact Hin | now apply denotes_spec].
Qed.

Lemma lookup_listed (d : dir) name :
  In name (map fst d) -> lookup directory (Str.join directory name) d <> None.
Proof.
  intros Hin Hnone. apply in_map_iff in Hin as [e [<- He]].
  unfold lookup in Hnone. pose proof (find_none _ _ Hnone e He) as H.
  unfold denotes in H. now rewrite String.eqb_refl in H.
Qed.

Lemma lookup_remove_other p q (d : dir) :
  p <> q ->
  lookup directory q (remove_first (denotes directory p) d)
  = lookup directory q d.
Proof.
  intros Hpq. unfold lookup. apply remove_first_find.
  intros e Hp. apply denotes_spec in Hp.
  destruct (denotes directory q e) eqn:Hq; [|reflexivity].
  apply denotes_spec in Hq. congruence.
Qed.

Lemma selected_spec (d : dir) :
  selected directory d
  = map (fun f => Str.join directory f)
        (filter (fun n => Str.endswith n ".ilert") (map fst d)).
Proof.
  unfold selected. induction (map fst d) as [|n l IH]; simpl; [reflexivity|].
  pose proof (join_endswith directory n) as E. unfold permanent_suffix in E.
  rewrite E. destruct (Str.endswith n ".ilert"); simpl; now rewrite IH.
Qed.

Lemma selected_in (d : dir) path :
  In path (selected directory d) ->
  exists name, In name (map fst d) /\ path = Str.join directory name
               /\ Str.endswith name ".ilert" = true.
Proof.
  rewrite selected_spec. intros H.
  apply in_map_iff in H as [name [<- Hin]].
  apply filter_In in Hin as [Hin Hend]. now exists name.
Qed.

End Directory.

(** ** One turn of the loop, when no other process interferes *)

(** What a turn leaves of the world: the other processes' schedule, the
    network, where the log goes, and the absence of faults to come. *)
Definition stays (w w' : world) : Prop :=
  w_others w' = w_others w /\ w_net w' = w_net w
  /\ w_docker_mode w' = w_docker_mode w
  /\ w_strict_stdout w' = w_strict_stdout w
  /\ w_lock w' = w_lock w
  /\ (w_faults w = [] -> w_faults w' = []).

Lemma stays_refl w : stays w w.
Proof. unfold stays. repeat split; auto. Qed.

Lemma stays_trans w1 w2 w3 : stays w1 w2 -> stays w2 w3 -> stays w1 w3.
Proof.
  unfold stays. intros (A1 & A2 & A3 & A4 & A5 & A6) (B1 & B2 & B3 & B4 & B5 & B6).
  repeat split; try congruence. auto.
Qed.

Lemma stays_quiet w w' : stays w w' -> quiet w -> quiet w'.
Proof. unfold stays, quiet. intros (H & _). congruence. Qed.

Lemma stays_speaks w w' level m :
  stays w w' -> speaks w' level m = speaks w level m.
Proof.
  unfold stays, speaks, strict, sink_of. intros (_ & _ & -> & -> & _).
  reflexivity.
Qed.

(** An answer after which nothing can go wrong but the removal: the body of
    an error response can be read, and the reason of a failure logged. *)
Definition plain (w : world) (answer : wire) : bool :=
  match answer with
  | Response _ _ _ | Broken _ => true
  | Cut status _ _ => (200 <=? status) && (status <? 300)
  | Unreachable reason => speaks w "ERROR" (MUnreachable reason)
  end.

Section QuietEvent.

Variables (directory url event : string).

Definition gone (w : world) : world :=
  with_dir (remove_first (denotes directory event) (w_dir w)) w.

Ltac run_dispose Q :=
  unfold dispose, on_http_error, deleting, table;
  match goal with
  | |- context [match ?answer with Response _ _ _ => _ | _ => _ end] =>
      destruct answer as [? ? ?|? ? ?|?|?]
  end;
  rewrite ?two_xx;
  try match goal with
      | |- context [(200 <=? ?st) && (?st <=? 299)] =>
          destruct ((200 <=? st) && (st <=? 299));
          [|destruct (st =? 429);
            [|destruct ((400 <=? st) && (st <=? 499))]]
      end;
  unfold bind, stderr_write;
  repeat match goal with
         | |- context [tick ?x] => rewrite (tick_quiet x Q)
         | |- context [read ?fp ?w'] => rewrite (read_run fp w')
         | |- context [log ?l ?m ?w'] => rewrite (log_run l m w')
         | |- context [os_remove ?d ?p ?w'] =>
             rewrite (os_remove_run d p w'); cbv zeta
         | |- context [verdict ?x] =>
             unfold verdict;
             cbn [w_faults with_dir with_faults with_nreq];
             let F := fresh "F" in
             destruct (w_faults x) as [|[| |?] ?] eqn:F
         | |- context [speaks (with_dir ?d ?x) ?l ?m] =>
             change (speaks (with_dir d x) l m) with (speaks x l m)
         | |- context [speaks (with_faults ?f ?x) ?l ?m] =>
             change (speaks (with_faults f x) l m) with (speaks x l m)
         | |- context [sink_of (with_dir ?d ?x) ?l] =>
             change (sink_of (with_dir d x) l) with (sink_of x l)
         | |- context [sink_of (with_faults ?f ?x) ?l] =>
             change (sink_of (with_faults f x) l) with (sink_of x l)
         | |- context [if speaks ?w' ?l ?m then _ else _] =>
             first [ rewrite (speaks_encodable l m w' eq_refl)
                   | let S := fresh "S" in destruct (speaks w' l m) eqn:S ]
         | |- context [match lookup ?d ?p ?l with _ => _ end] =>
             let L := fresh "L" in destruct (lookup d p l) eqn:L
         | _ => progress cbn [fst snd w_dir w_others w_net w_nreq w_faults
                               w_docker_mode w_strict_stdout w_lock
                               with_dir with_faults with_nreq]
         end.

(** Whatever the answer, the turn leaves the directory as it was or without
    the entry of this event, and that only under the table's licence. *)
Lemma dispose_frame answer w :
  quiet w ->
  let x := dispose directory event answer w in
  stays w (after x)
  /\ w_nreq (after x) = w_nreq w
  /\ sends (effects x) = [] /\ opened (effects x) = []
  /\ (w_dir (after x) = w_dir w
      \/ (w_dir (after x) = w_dir (gone w)
          /\ deleting answer = true
          /\ lookup directory event (w_dir w) <> None)).
Proof.
  intros Q. cbv zeta. run_dispose Q;
    unfold after, effects, stays, gone;
    cbn [fst snd w_dir w_others w_net w_nreq w_faults w_docker_mode
         w_strict_stdout w_lock with_dir with_faults with_nreq
         sends opened flat_map app] in *;
    repeat split; auto; try congruence;
    try (right; repeat split; congruence).
Qed.


(** When nothing is in the way, the turn is completed. *)
Lemma dispose_quiet answer w e :
  quiet w -> w_faults w = [] ->
  lookup directory event (w_dir w) = Some e ->
  plain w answer = true ->
  speaks w "INFO" (MSent event) = true ->
  exists t,
    dispose directory event answer w
    = (Ok tt, if deleting answer then gone w else w, t)
    /\ sends t = [] /\ opened t = [].
Proof.
  intros Q F0 L0 P S0. revert P. unfold plain.
  run_dispose Q; intros P; cbn [fst snd] in *;
    try congruence;
    unfold gone; eexists; repeat split.
Qed.

(** The event file is there and holds text: it is sent, and kept or deleted
    as the table says. *)
Lemma flush_event_quiet w e :
  quiet w -> w_faults w = [] ->
  lookup directory event (w_dir w) = Some e ->
  Str.utf8_valid (f_bytes (snd e)) = true ->
  speaks w "INFO" (MSending event) = true ->
  let rq := request_for directory url (w_dir w) event in
  let answer := w_net w (w_nreq w) rq in
  let w1 := with_nreq (S (w_nreq w)) w in
  plain w answer = true ->
  exists t,
    flush_event directory url event w
    = (Ok tt, if deleting answer then gone w1 else w1,
       [EOpen event; ELog (sink_of w "INFO") "INFO" (MSending event);
        ESend event rq answer] ++ t)%list
    /\ sends t = [] /\ opened t = [].
Proof.
  intros Q F L V S. cbv zeta. intros P. rewrite flush_event_run. cbv zeta.
  unfold request_for, text_of in *.
  rewrite !(tick_quiet w Q), L, V, S. rewrite L in P.
  match goal with |- context [dispose ?d ?ev ?a ?w'] =>
    destruct (dispose_quiet a w' e Q F L P S) as (t & -> & Hs & Ho)
  end.
  exists t. repeat split; assumption.
Qed.

(** Whatever the file is and however the turn ends: the directory is as it
    was or without the entry of this event, and that only after a request
    for it was answered as the table wants for a deletion. *)
Lemma flush_event_frame w :
  quiet w ->
  let x := flush_event directory url event w in
  stays w (after x)
  /\ (w_dir (after x) = w_dir w
      \/ (w_dir (after x) = w_dir (gone w)
          /\ exists rq,
               In (ESend event rq (w_net w (w_nreq w) rq)) (effects x)
               /\ deleting (w_net w (w_nreq w) rq) = true)).
Proof.
  intros Q. rewrite flush_event_run. cbv zeta. rewrite !(tick_quiet w Q).
  destruct (lookup directory event (w_dir w)) as [e|];
    [|unfold after; cbn [fst snd]; split; [apply stays_refl|now left]].
  destruct (Str.utf8_valid (f_bytes (snd e)));
    [|unfold after; cbn [fst snd]; split; [apply stays_refl|now left]].
  destruct (speaks w "INFO" (MSending event));
    [|unfold after; cbn [fst snd]; split; [apply stays_refl|now left]].
  match goal with |- context [dispose ?d ?ev ?a ?w'] =>
    pose proof (dispose_frame a w' Q) as (H1 & H2 & _ & _ & H3);
    destruct (dispose d ev a w') as [[r w3] t]
  end.
  unfold after, effects in *. cbn [fst snd] in *. split; [exact H1|].
  destruct H3 as [H3|(H3 & Hd & _)]; [now left|right].
  split; [exact H3|]. eexists. split; [|exact Hd]. right; right. now left.
Qed.



(** In any world, the turn opens, sends and removes this event's path and no
    other. *)
Definition touches (P : string -> Prop) (e : effect) : Prop :=
  match e with
  | EOpen p | ERemove p | ESend p _ _ => P p
  | _ => True
  end.

Lemma dispose_touches answer w :
  Forall (touches (eq event)) (effects (dispose directory event answer w)).
Proof.
  destruct (dispose_effects directory event answer w)
    as (t1 & t2 & b & -> & H1 & H2 & _).
  assert (N : forall t, Forall is_notice t -> Forall (touches (eq event)) t).
  { intros t Ht. eapply Forall_impl; [|exact Ht].
    intros [] Ha; try destruct Ha; exact I. }
  apply Forall_app. split; [now apply N|].
  apply Forall_app. split; [|now apply N].
  destruct b; repeat constructor.
Qed.

Lemma flush_event_touches w :
  Forall (touches (eq event)) (effects (flush_event directory url event w)).
Proof.
  rewrite flush_event_run. cbv zeta.
  destruct (lookup directory event (w_dir (tick w))) as [e|];
    [|repeat constructor].
  destruct (Str.utf8_valid (f_bytes (snd e))); [|repeat constructor].
  destruct (speaks w "INFO" (MSending event)); [|repeat constructor].
  match goal with |- context [dispose ?d ?ev ?a ?w'] =>
    pose proof (dispose_touches a w') as H;
    destruct (dispose d ev a w') as [[r w3] t]
  end.
  unfold effects in *. simpl in *. repeat constructor. exact H.
Qed.

End QuietEvent.

(** ** The listing *)

Section Pending.

Variable directory : string.

Lemma getmtime_run path w :
  getmtime directory path w =
  match lookup directory path (w_dir (tick w)) with
  | Some e => (Ok (f_mtime (snd e)), tick w, [])
  | None => (Raised (OSError path), tick w, [])
  end.
Proof. reflexivity. Qed.

Lemma map_m_getmtime_quiet l : forall w,
  quiet w ->
  (forall p, In p l -> lookup directory p (w_dir w) <> None) ->
  map_m (fun x => getmtime directory x) l w
  = (Ok (map (mtime_of directory (w_dir w)) l), w, []).
Proof.
  induction l as [|x l IH]; intros w Q Hl; [reflexivity|].
  simpl. unfold bind at 1. rewrite getmtime_run. unfold mtime_of at 1.
  rewrite (tick_quiet w Q).
  destruct (lookup directory x (w_dir w)) as [e|] eqn:E.
  - unfold bind. rewrite IH; [reflexivity | exact Q |].
    intros p Hp. apply Hl. now right.
  - exfalso. apply (Hl x); [now left | exact E].
Qed.

(** A lookup that fails stops [sorted] before anything is sorted. *)
Lemma map_m_getmtime_missing l : forall w,
  quiet w ->
  (exists p, In p l /\ lookup directory p (w_dir w) = None) ->
  exists p, map_m (fun x => getmtime directory x) l w
            = (Raised (OSError p), w, []).
Proof.
  induction l as [|x l IH]; intros w Q [p [Hin Hp]]; [destruct Hin|].
  simpl. unfold bind at 1. rewrite getmtime_run.
  rewrite (tick_quiet w Q).
  destruct (lookup directory x (w_dir w)) as [e|] eqn:E.
  - destruct Hin as [->|Hin]; [congruence|].
    destruct (IH w Q (ex_intro _ p (conj Hin Hp))) as [q Hq].
    exists q. unfold bind. now rewrite Hq.
  - now exists x.
Qed.

Lemma pending_quiet w :
  quiet w ->
  pending directory w
  = (Ok (by_key (mtime_of directory (w_dir w)) (selected directory (w_dir w))),
     w, []).
Proof.
  intros Q. unfold pending, sorted, listdir, bind.
  rewrite (tick_quiet w Q).
  fold (selected directory (w_dir w)).
  rewrite map_m_getmtime_quiet; [| exact Q |].
  - unfold ret. now rewrite combine_map_self.
  - intros p Hp. apply selected_in in Hp as [name [Hin [-> _]]].
    now apply lookup_listed.
Qed.

Lemma map_m_length {A B} (f : A -> M B) l : forall w ys w1 t,
  map_m f l w = (Ok ys, w1, t) -> length ys = length l.
Proof.
  induction l as [|x l IH]; intros w ys w1 t; simpl.
  - unfold ret. intros H. now inversion H.
  - unfold bind. destruct (f x w) as [[[y|e] w'] t']; [|discriminate].
    destruct (map_m f l w') as [[[ys'|e] w''] t''] eqn:E; [|discriminate].
    unfold ret. intros H. inversion H; subst. simpl.
    f_equal. eapply IH; eassumption.
Qed.

(** In any world, what [flush] goes through is made of paths selected from
    the listing it took. *)
Lemma pending_selected w events w1 t :
  pending directory w = (Ok events, w1, t) ->
  forall p, In p events -> In p (selected directory (w_dir (tick w))).
Proof.
  unfold pending, sorted, listdir, bind.
  fold (selected directory (w_dir (tick w))).
  destruct (map_m _ _ (tick w)) as [[[keys|e] w'] t'] eqn:E; [|discriminate].
  unfold ret. intros H p Hp. inversion H; subst.
  apply in_map_iff in Hp as [[k q] [Hq Hin]]. simpl in Hq. subst q.
  eapply Permutation_in in Hin; [|apply sort_keyed_perm].
  now apply in_combine_r in Hin.
Qed.

End Pending.

(** ** The loop *)

Section QuietLoop.

Variables (directory url : string).

Lemma for_each_touches l : forall w,
  Forall (touches (fun p => In p l))
         (effects (for_each l (flush_event directory url) w)).
Proof.
  induction l as [|x l IH]; intros w; [constructor|].
  rewrite for_each_cons.
  pose proof (flush_event_touches directory url x w) as Hx.
  assert (Hx' : Forall (touches (fun p => In p (x :: l)))
                       (effects (flush_event directory url x w))).
  { eapply Forall_impl; [|exact Hx].
    intros [] Ha; simpl in *; auto. }
  destruct (flush_event directory url x w) as [[[[]|e] w1] t1]; [|exact Hx'].
  specialize (IH w1). destruct (for_each l _ w1) as [[r w2] t2].
  unfold effects in *. simpl in *. apply Forall_app. split; [exact Hx'|].
  eapply Forall_impl; [|exact IH]. intros [] Ha; simpl in *; auto.
Qed.

(** With no other process about, [flush] only ever takes entries away, and
    only entries its paths denote. *)
Lemma for_each_frame l : forall w,
  quiet w ->
  let x := for_each l (flush_event directory url) w in
  stays w (after x)
  /\ (forall e, In e (w_dir (after x)) -> In e (w_dir w))
  /\ ((forall p, In p l -> Str.endswith p ".ilert" = true) ->
      filter (fun e => negb (permanent e)) (w_dir (after x))
      = filter (fun e => negb (permanent e)) (w_dir w)).
Proof.
  induction l as [|p l IH]; intros w Q.
  { unfold after; simpl. split; [apply stays_refl|auto]. }
  cbv zeta. rewrite for_each_cons.
  pose proof (flush_event_frame directory url p w Q) as (S1 & Hd).
  assert (Hsub : forall e, In e (w_dir (after (flush_event directory url p w)))
                           -> In e (w_dir w)).
  { intros e He. destruct Hd as [Hd|[Hd _]]; rewrite Hd in He; [exact He|].
    now apply remove_first_in in He. }
  assert (Hkeep : Str.endswith p ".ilert" = true ->
            filter (fun e => negb (permanent e))
                   (w_dir (after (flush_event directory url p w)))
            = filter (fun e => negb (permanent e)) (w_dir w)).
  { intros Hp. destruct Hd as [Hd|[Hd _]]; rewrite Hd; [reflexivity|].
    apply remove_first_filter.
    intros e He. rewrite (denotes_permanent _ _ _ He). now rewrite Hp. }
  clear Hd.
  destruct (flush_event directory url p w) as [[[[]|e] w1] t1];
    unfold after in *; cbn [fst snd] in *.
  - specialize (IH w1 (stays_quiet _ _ S1 Q)) as (S2 & Hin & Hf).
    destruct (for_each l _ w1) as [[r w2] t2]. cbn [fst snd] in *.
    split; [exact (stays_trans _ _ _ S1 S2)|]. split.
    + intros e He. auto.
    + intros Hl. rewrite Hf by (intros q Hq; apply Hl; now right).
      apply Hkeep, Hl. now left.
  - split; [exact S1|]. split; [exact Hsub|].
    intros Hl. apply Hkeep, Hl. now left.
Qed.


(** With no other process about, no fault to come, text in every file,
    paths that can be logged and answers that can be read, every event of
    the list is opened and sent, in the order of the list. *)
Lemma for_each_quiet l : forall w,
  quiet w -> w_faults w = [] -> NoDup l ->
  (forall p, In p l -> exists e,
      lookup directory p (w_dir w) = Some e
      /\ Str.utf8_valid (f_bytes (snd e)) = true) ->
  (forall p, In p l -> speaks w "INFO" (MSending p) = true) ->
  (forall n rq, plain w (w_net w n rq) = true) ->
  let x := for_each l (flush_event directory url) w in
  result x = Ok tt
  /\ sends (effects x) = map (fun p => (p, request_for directory url (w_dir w) p)) l
  /\ opened (effects x) = l.
Proof.
  induction l as [|p l IH]; intros w Q F Hnd Hl Hsp Hpl;
    [unfold result; simpl; auto|].
  cbv zeta. rewrite for_each_cons.
  destruct (Hl p (or_introl eq_refl)) as (e & Le & Ve).
  destruct (flush_event_quiet directory url p w e Q F Le Ve
              (Hsp p (or_introl eq_refl)) (Hpl _ _))
    as (t & -> & Hs & Ho).
  inversion Hnd as [|? ? Hnotin Hnd']; subst.
  set (w1 := if deleting _ then _ else _).
  assert (Q1 : quiet w1) by (unfold w1; destruct (deleting _); exact Q).
  assert (F1 : w_faults w1 = []) by (unfold w1; destruct (deleting _); exact F).
  assert (Hsame : forall q, In q l ->
            lookup directory q (w_dir w1) = lookup directory q (w_dir w)).
  { intros q Hq. unfold w1. destruct (deleting _); [|reflexivity].
    simpl. apply lookup_remove_other. intros ->. contradiction. }
  specialize (IH w1 Q1 F1 Hnd').
  destruct IH as (Hr & Hsends & Hopened).
  { intros q Hq. rewrite (Hsame q Hq). apply Hl. now right. }
  { intros q Hq. unfold w1. destruct (deleting _); apply Hsp; now right. }
  { intros n rq. unfold w1. destruct (deleting _); apply Hpl. }
  destruct (for_each l _ w1) as [[r w2] t2].
  unfold result, effects in *. simpl in *.
  split; [exact Hr|].
  unfold sends, opened in *. rewrite !flat_map_app. rewrite Hs, Ho. simpl.
  rewrite Hsends, Hopened. split; [|reflexivity].
  f_equal. apply map_ext_in. intros q Hq.
  unfold request_for, text_of. now rewrite (Hsame q Hq).
Qed.

End QuietLoop.

(** ** [flush] as a whole *)

Section Flush.

Variables (endpoint directory : string) (port : Z).

Let url : string :=
  endpoint ++ ":" ++ Str.of_int port ++ "/api/v1/events/icinga".

Lemma append_inj (p a b : string) : p ++ a = p ++ b -> a = b.
Proof.
  induction p as [|c p IH]; simpl; [auto|].
  intros H. inversion H. auto.
Qed.

Lemma no_slash_startswith name :
  Str.contains "/" name = false -> Str.startswith name "/" = false.
Proof.
  destruct name as [|c r]; [reflexivity|].
  intros H. change (Ascii.eqb "/" c || Str.contains "/" r = false) in H.
  apply orb_false_elim in H as [H _]. unfold Str.startswith.
  change (prefix "/" (String c r))
    with (if ascii_dec "/" c then prefix "" r else false).
  destruct (ascii_dec "/" c) as [E|_]; [|reflexivity].
  rewrite <- E in H. now rewrite Ascii.eqb_refl in H.
Qed.

Lemma join_injective n1 n2 :
  Str.contains "/" n1 = false -> Str.contains "/" n2 = false ->
  Str.join directory n1 = Str.join directory n2 -> n1 = n2.
Proof.
  intros H1 H2. unfold Str.join.
  rewrite (no_slash_startswith _ H1), (no_slash_startswith _ H2).
  destruct (_ || _); intros E; apply append_inj in E; [exact E|].
  now apply (append_inj "/") in E.
Qed.

Lemma selected_nodup (d : dir) :
  well_formed d -> NoDup (selected directory d).
Proof.
  intros [Hnd Hslash]. rewrite selected_spec.
  apply NoDup_map_NoDup_ForallPairs; [|now apply NoDup_filter].
  intros a b Ha Hb. apply filter_In in Ha as [Ha _], Hb as [Hb _].
  apply in_map_iff in Ha as [ea [<- Hea]], Hb as [eb [<- Heb]].
  apply join_injective; auto.
Qed.



(** The paths of the event files can be put into a log line. *)
Definition nameable (w : world) : Prop :=
  forall e, In e (w_dir w) -> permanent e = true ->
    speaks w "INFO" (MSending (Str.join directory (fst e))) = true.

(** Every answer of the service can be dealt with. *)
Definition readable (w : world) : Prop :=
  forall n rq, plain w (w_net w n rq) = true.

(** With no other process about, no fault to come, distinct slash-free
    names, text in every event file, paths that can be logged and answers
    that can be read, [flush] goes through all of the selection, oldest
    first, and returns. *)
Lemma flush_quiet w :
  quiet w -> w_faults w = [] ->
  well_formed (w_dir w) -> decodable (w_dir w) ->
  nameable w -> readable w ->
  let events :=
    by_key (mtime_of directory (w_dir w)) (selected directory (w_dir w)) in
  let x := flush endpoint directory port w in
  result x = Ok tt
  /\ sends (effects x)
     = map (fun p => (p, request_for directory url (w_dir w) p)) events
  /\ opened (effects x) = events.
Proof.
  intros Q F Hwf Hdec Hname Hread. cbv zeta. rewrite flush_run. cbv zeta.
  rewrite (pending_quiet directory w Q). fold url.
  assert (Hsel : forall p,
            In p (by_key (mtime_of directory (w_dir w))
                         (selected directory (w_dir w))) ->
            exists e, lookup directory p (w_dir w) = Some e
                      /\ In e (w_dir w) /\ permanent e = true
                      /\ p = Str.join directory (fst e)).
  { intros p Hp. eapply Permutation_in in Hp; [|apply by_key_perm].
    apply selected_in in Hp as [name [Hin [-> Hend]]].
    destruct (lookup directory (Str.join directory name) (w_dir w)) as [e|] eqn:E;
      [|exfalso; exact (lookup_listed directory _ _ Hin E)].
    exists e. split; [reflexivity|].
    apply lookup_some in E as [He Hj]. split; [exact He|].
    split; [|now rewrite Hj].
    unfold permanent. pose proof (join_endswith directory (fst e)) as J.
    pose proof (join_endswith directory name) as J'.
    unfold permanent_suffix in *. congruence. }
  apply for_each_quiet; [exact Q | exact F | | | | exact Hread].
  - eapply Permutation_NoDup; [symmetry; apply by_key_perm|].
    now apply selected_nodup.
  - intros p Hp. destruct (Hsel p Hp) as (e & Le & He & Pe & _).
    exists e. split; [exact Le|]. now apply Hdec.
  - intros p Hp. destruct (Hsel p Hp) as (e & _ & He & Pe & ->).
    now apply Hname.
Qed.




Lemma insert_keyed_filter x l :
  StronglySorted (key_rel Z.le) l ->
  filter (fun kp => fst kp =? fst x) (insert_keyed x l)
  = x :: filter (fun kp => fst kp =? fst x) l.
Proof.
  induction 1 as [|y l Hl IH Hy]; cbn [insert_keyed filter].
  - now rewrite Z.eqb_refl.
  - destruct (Z.leb_spec (fst x) (fst y)) as [Hxy|Hxy]; cbn [filter].
    + now rewrite Z.eqb_refl.
    + rewrite IH. destruct (Z.eqb_spec (fst y) (fst x)); [lia|reflexivity].
Qed.

Lemma insert_keyed_filter_other x l t :
  fst x <> t ->
  filter (fun kp => fst kp =? t) (insert_keyed x l)
  = filter (fun kp => fst kp =? t) l.
Proof.
  intros Hx. induction l as [|y l IH]; cbn [insert_keyed filter].
  - destruct (Z.eqb_spec (fst x) t); [contradiction|reflexivity].
  - destruct (fst x <=? fst y); cbn [filter].
    + destruct (Z.eqb_spec (fst x) t); [contradiction|reflexivity].
    + now rewrite IH.
Qed.

(** The sort is stable: the elements of one key stand in the sorted list as
    they stood in the list. *)
Lemma sort_keyed_filter t l :
  filter (fun kp => fst kp =? t) (sort_keyed l)
  = filter (fun kp => fst kp =? t) l.
Proof.
  induction l as [|x l IH]; [reflexivity|]. cbn [sort_keyed filter].
  destruct (Z.eqb_spec (fst x) t) as [E|E].
  - subst t.
    rewrite insert_keyed_filter by apply sort_keyed_sorted.
    now rewrite IH.
  - now rewrite insert_keyed_filter_other, IH.
Qed.

Lemma by_key_filter m t l :
  filter (fun p => m p =? t) (by_key m l) = filter (fun p => m p =? t) l.
Proof.
  unfold by_key.
  assert (H : forall kl : list (Z * string),
            Forall (fun kp => fst kp = m (snd kp)) kl ->
            filter (fun p => m p =? t) (map snd kl)
            = map snd (filter (fun kp => fst kp =? t) kl)).
  { induction kl as [|kp kl IHk]; intros Hk; [reflexivity|].
    inversion Hk as [|? ? Hh Ht']; subst. cbn [map filter].
    rewrite <- Hh, (IHk Ht'). now destruct (fst kp =? t). }
  rewrite H.
  - rewrite sort_keyed_filter, <- H.
    + now rewrite map_map, map_id.
    + rewrite Forall_forall. intros kp Hin.
      apply in_map_iff in Hin as [p [<- _]]. reflexivity.
  - eapply Permutation_Forall; [symmetry; apply sort_keyed_perm|].
    rewrite Forall_forall. intros kp Hin.
    apply in_map_iff in Hin as [p [<- _]]. reflexivity.
Qed.


(** C10.  In any world, the paths [flush] opens, sends and removes are paths
    of entries whose names end with [.ilert]; and with no other process
    about, every other entry of the directory, the lock file and temporary
    files among them, is there afterwards as it was, in its place. *)
Theorem flush_touches_only_event_files (w w' : world) :
  quiet w' ->
  Forall (touches (fun p => exists name,
            p = Str.join directory name
            /\ Str.endswith name permanent_suffix = true))
         (effects (flush endpoint directory port w))
  /\ filter (fun e => negb (permanent e))
            (w_dir (after (flush endpoint directory port w')))
     = filter (fun e => negb (permanent e)) (w_dir w').
Proof.
  intros Q. split.
  - rewrite flush_run. cbv zeta.
    destruct (pending directory w) as [[[events|e] w1] t1] eqn:E;
      [|constructor].
    eapply Forall_impl; [|apply for_each_touches].
    intros a Ha.
    assert (H : forall p, In p events -> exists name,
                p = Str.join directory name
                /\ Str.endswith name permanent_suffix = true).
    { intros p Hp. apply (pending_selected _ _ _ _ _ E) in Hp.
      apply selected_in in Hp as [name [_ [-> Hend]]]. now exists name. }
    destruct a; simpl in *; auto.
  - rewrite flush_run. cbv zeta. rewrite (pending_quiet directory w' Q).
    apply (for_each_frame directory url _ w' Q).
    intros p Hp. eapply Permutation_in in Hp; [|apply by_key_perm].
    unfold selected in Hp. now apply filter_In in Hp as [_ Hp].
Qed.

End Flush.

(** ** Retained events (C8) and vanishing files (C9) *)


Section Retained.

Variables (endpoint directory : string) (port : Z).

Let url : string :=
  endpoint ++ ":" ++ Str.of_int port ++ "/api/v1/events/icinga".

Lemma nodup_fst_functional (d : dir) name f f' :
  NoDup (map fst d) -> In (name, f) d -> In (name, f') d -> f = f'.
Proof.
  induction d as [|[n g] d IH]; simpl; [tauto|].
  intros Hnd H H'. inversion Hnd as [|? ? Hnotin Hnd']; subst.
  destruct H as [H|H], H' as [H'|H'].
  - congruence.
  - inversion H; subst. exfalso. apply Hnotin.
    now apply (in_map fst) in H'.
  - inversion H'; subst. exfalso. apply Hnotin.
    now apply (in_map fst) in H.
  - now apply IH.
Qed.

Lemma lookup_entry (d : dir) name f :
  well_formed d -> In (name, f) d ->
  lookup directory (Str.join directory name) d = Some (name, f).
Proof.
  intros [Hnd Hslash] Hin.
  destruct (lookup directory (Str.join directory name) d) as [[n g]|] eqn:E.
  - apply lookup_some in E as [He Hj]. simpl in Hj.
    apply join_injective in Hj;
      [| exact (Hslash _ He) | exact (Hslash _ Hin)].
    subst n. now rewrite (nodup_fst_functional d name f g Hnd Hin He).
  - exfalso. apply (lookup_listed directory d name); [|exact E].
    now apply (in_map fst) in Hin.
Qed.



Lemma selected_entry (d : dir) name f :
  In (name, f) d -> Str.endswith name ".ilert" = true ->
  In (Str.join directory name) (selected directory d).
Proof.
  intros Hin Hend. rewrite selected_spec. apply in_map, filter_In.
  split; [|exact Hend]. now apply (in_map fst) in Hin.
Qed.

(** When nothing is in the way, every event file is sent, with the text it
    holds. *)
Lemma flush_sends_entry w name f :
  quiet w -> w_faults w = [] ->
  well_formed (w_dir w) -> decodable (w_dir w) ->
  nameable directory w -> readable w ->
  In (name, f) (w_dir w) -> Str.endswith name ".ilert" = true ->
  In (Str.join directory name,
      mkrequest url (Str.universal_newlines false (f_bytes f)) headers)
     (sends (effects (flush endpoint directory port w))).
Proof.
  intros Q F Hwf Hdec Hn Hr Hin Hend.
  destruct (flush_quiet endpoint directory port w Q F Hwf Hdec Hn Hr)
    as (_ & -> & _).
  apply in_map_iff. exists (Str.join directory name). split.
  - unfold request_for, text_of. now rewrite (lookup_entry _ _ _ Hwf Hin).
  - eapply Permutation_in; [symmetry; apply by_key_perm|].
    now apply (selected_entry _ name f).
Qed.


Lemma tick_nreq w : w_nreq (tick w) = w_nreq w.
Proof. unfold tick. now destruct (w_others w). Qed.

Lemma getmtime_tick path w :
  quiet (tick w) ->
  getmtime directory path w = getmtime directory path (tick w).
Proof.
  intros Q. rewrite !getmtime_run. now rewrite (tick_quiet (tick w) Q).
Qed.

(** A missing file at [open] is skipped. *)
Lemma flush_event_skips_missing event w :
  lookup directory event (w_dir (tick w)) = None ->
  flush_event directory url event w = (Ok tt, tick w, [EOpen event]).
Proof. intros H. rewrite flush_event_run. cbv zeta. now rewrite H. Qed.

(** C9.  The skipping covers the opening and reading of a selected event
    file, where a missing file is passed over.  It does not cover the sort:
    when an entry of the listing whose name ends with [.ilert] is gone by the
    time the modification times are looked up, [flush] ends with the
    [OSError] of [os.path.getmtime], having opened, sent, removed and logged
    nothing. *)
Theorem flush_aborts_when_listed_file_vanishes w name :
  In name (map fst (w_dir (tick w))) ->
  Str.endswith name permanent_suffix = true ->
  lookup directory (Str.join directory name) (w_dir (tick (tick w))) = None ->
  quiet (tick (tick w)) ->
  let x := flush endpoint directory port w in
  (exists p, result x = Raised (OSError p))
  /\ effects x = []
  /\ w_nreq (after x) = w_nreq w
  /\ w_dir (after x) = w_dir (tick (tick w))
  /\ (forall event w', lookup directory event (w_dir (tick w')) = None ->
        flush_event directory url event w' = (Ok tt, tick w', [EOpen event])).
Proof.
  intros Hin Hend Hgone Q. cbv zeta.
  assert (Hsel : In (Str.join directory name)
                    (selected directory (w_dir (tick w)))).
  { rewrite selected_spec. apply in_map, filter_In. now split. }
  assert (Hp : exists p, pending directory w
                         = (Raised (OSError p), tick (tick w), [])).
  { unfold pending, sorted, listdir. rewrite bind_run.
    fold (selected directory (w_dir (tick w))).
    destruct (selected directory (w_dir (tick w))) as [|x l] eqn:El;
      [destruct Hsel|].
    rewrite bind_run. simpl map_m. rewrite bind_run.
    rewrite (getmtime_tick x (tick w) Q).
    change (match getmtime directory x (tick (tick w)) with
            | (Ok a, w1, t1) => let '(r, w2, t2) :=
                (ys <- map_m (fun x0 => getmtime directory x0) l;; ret (a :: ys)) w1
                in (r, w2, (t1 ++ t2)%list)
            | (Raised e, w1, t1) => (Raised e, w1, t1)
            end)
      with (map_m (fun x0 => getmtime directory x0) (x :: l) (tick (tick w))).
    destruct (map_m_getmtime_missing directory (x :: l) (tick (tick w)) Q)
      as [p Hp].
    { exists (Str.join directory name). split; [exact Hsel|exact Hgone]. }
    exists p. now rewrite Hp. }
  destruct Hp as [p Hp]. rewrite flush_run. cbv zeta. rewrite Hp.
  unfold result, effects, after. simpl.
  split; [now exists p|]. split; [reflexivity|].
  split; [now rewrite !tick_nreq|].
  split; [reflexivity|]. intros event w'. apply flush_event_skips_missing.
Qed.

End Retained.

(** ** Publishing an event file (C2) *)

(** No fault in the next [n] verdicts. *)
Definition clean (n : nat) (l : list fault) : bool :=
  forallb (fun v => match v with NoFault => true | _ => false end) (firstn n l).

(** The [try] block of [persist_event]. *)
Definition publish (directory tmp perm doc : string) : M unit :=
  with_open directory (directory ++ "/" ++ tmp) (fun f =>
    fwrite f doc ;;
    fflush f ;;
    fclose f ;;
    os_rename directory (directory ++ "/" ++ tmp) (directory ++ "/" ++ perm) ;;
    log "INFO" (MCreated (directory ++ "/" ++ perm))).

Section Publish.

Variable directory : string.

Lemma strip_prefix_app p s : Str.strip_prefix p (p ++ s) = Some s.
Proof.
  induction p as [|c p IH]; [now destruct s|].
  simpl. now rewrite Ascii.eqb_refl.
Qed.

Lemma name_of_path name : name_of directory (directory ++ "/" ++ name) = Some name.
Proof.
  unfold name_of. rewrite <- append_assoc. apply strip_prefix_app.
Qed.

Lemma filter_put name f (d : dir) :
  Str.endswith name ".ilert" = false ->
  filter permanent (put name f d) = filter permanent d.
Proof.
  intros Hn.
  assert (Hf : forall g, permanent (name, g) = false) by (intros g; exact Hn).
  induction d as [|e d IH]; simpl.
  - now rewrite Hf.
  - unfold has_name. destruct (String.eqb_spec (fst e) name) as [E|E]; simpl.
    + rewrite Hf. destruct e as [n g]. simpl in E. subst n. now rewrite Hf.
    + now rewrite IH.
Qed.

Lemma filter_update name g (d : dir) :
  Str.endswith name ".ilert" = false ->
  filter permanent (update name g d) = filter permanent d.
Proof.
  intros Hn.
  assert (Hf : forall h, permanent (name, h) = false) by (intros h; exact Hn).
  induction d as [|e d IH]; simpl; [reflexivity|].
  unfold has_name. destruct (String.eqb_spec (fst e) name) as [E|E]; simpl.
  - destruct e as [n h]. simpl in *. subst n. now rewrite !Hf.
  - now rewrite IH.
Qed.

Lemma find_put name f (d : dir) :
  find (has_name name) (put name f d) = Some (name, f).
Proof.
  induction d as [|e d IH]; simpl.
  - unfold has_name. simpl. now rewrite String.eqb_refl.
  - destruct (has_name name e) eqn:E; simpl.
    + unfold has_name. simpl. now rewrite String.eqb_refl.
    + now rewrite E.
Qed.

Lemma find_update name g (d : dir) :
  find (has_name name) (update name g d)
  = option_map (fun e => (fst e, g (snd e))) (find (has_name name) d).
Proof.
  induction d as [|e d IH]; simpl; [reflexivity|].
  destruct (has_name name e) eqn:E; simpl.
  - unfold has_name in *. simpl. now rewrite E.
  - now rewrite E.
Qed.

Lemma in_put name f (d : dir) e :
  In e (put name f d) -> e = (name, f) \/ In e d.
Proof.
  induction d as [|x d IH]; simpl; [intuition|].
  destruct (has_name name x); simpl; intuition.
Qed.

Lemma put_in name f (d : dir) : In (name, f) (put name f d).
Proof.
  induction d as [|x d IH]; simpl; [now left|].
  destruct (has_name name x); simpl; auto.
Qed.

Lemma in_update name g (d : dir) e :
  In e (update name g d) -> fst e = name \/ In e d.
Proof.
  induction d as [|x d IH]; simpl; [intuition|].
  destruct (has_name name x) eqn:E; simpl.
  - intros [<-|H]; [|auto]. left. simpl.
    unfold has_name in E. now apply String.eqb_eq in E.
  - intuition.
Qed.

End Publish.

(** A run of [m] from [w] ends in [ok] or, by an exception, in [ex]. *)
Definition triple {A} (m : M A) (w : world)
    (ok : A -> world -> Prop) (ex : exn -> world -> Prop) : Prop :=
  match m w with
  | (Ok a, w', _) => ok a w'
  | (Raised e, w', _) => ex e w'
  end.

Lemma triple_bind {A B} (m : M A) (k : A -> M B) w ok ex :
  triple m w (fun a w' => triple (k a) w' ok ex) ex ->
  triple (bind m k) w ok ex.
Proof.
  unfold triple, bind. destruct (m w) as [[[a|e] w1] t1]; [|auto].
  now destruct (k a w1) as [[[b|e] w2] t2].
Qed.

Lemma triple_finally {A} (body : M A) (final : M unit) w ok ex :
  triple body w
    (fun a w' => triple final w' (fun _ w'' => ok a w'') ex)
    (fun e w' => triple final w' (fun _ w'' => ex e w'') ex) ->
  triple (try_finally body final) w ok ex.
Proof.
  unfold triple, try_finally. destruct (body w) as [[[a|e] w1] t1];
    now destruct (final w1) as [[[[]|e'] w2] t2].
Qed.

Section PublishSteps.

Variables (directory tmp perm doc : string) (c : Z) (d0 : dir) (target : bool)
          (docker_mode : option string) (strict_stdout : bool).
Hypothesis tmp_not_permanent : Str.endswith tmp ".ilert" = false.

(** [k] writing calls to go, the directory is [d], the descriptor [fd]; the
    run is to succeed ([target]) exactly when the text can be encoded and
    the verdicts still to come are good. *)
Definition on_track (k : nat) (d : dir) (fd : option string) (w : world) : Prop :=
  w_others w = [] /\ w_clock w = c /\ w_dir w = d /\ w_fd w = fd
  /\ w_docker_mode w = docker_mode /\ w_strict_stdout w = strict_stdout
  /\ Str.utf8_valid doc && clean k (w_faults w) = target.

(** The run has failed: nothing with the permanent suffix has changed. *)
Definition failed (e : exn) (w : world) : Prop :=
  is_Exception e = true
  /\ filter permanent (w_dir w) = filter permanent d0
  /\ target = false.

Definition published (w : world) : Prop :=
  In (perm, mkfile doc c) (w_dir w)
  /\ (forall e, In e (w_dir w) ->
        e = (perm, mkfile doc c) \/ fst e = tmp \/ In e d0)
  /\ target = true.

Definition as_before (w : world) : Prop :=
  w_docker_mode w = docker_mode /\ w_strict_stdout w = strict_stdout.

(** The file is published and the line that says so could not be logged. *)
Definition late (e : exn) (w : world) : Prop :=
  e = UnicodeEncodeError /\ published w /\ w_fd w = None /\ as_before w
  /\ speaks w "INFO" (MCreated (directory ++ "/" ++ perm)) = false.

Definition announced (w : world) : Prop :=
  published w /\ as_before w
  /\ speaks w "INFO" (MCreated (directory ++ "/" ++ perm)) = true.

Definition stopped (e : exn) (w : world) : Prop :=
  failed e w \/ late e w.

Lemma clean_nil k : clean k [] = true.
Proof. now destruct k. Qed.

Lemma verdict_step k d fd w :
  on_track (S k) d fd w ->
  match verdict w with
  | (NoFault, w') => on_track k d fd w'
  | (_, w') =>
      target = false /\ w_others w' = [] /\ w_dir w' = d /\ w_fd w' = fd
  end.
Proof.
  intros (Ho & Hc & Hd & Hf & Hm & Hs & Ht). unfold verdict, on_track.
  destruct (w_faults w) as [|v l] eqn:F.
  - rewrite F, !clean_nil in *. repeat split; auto.
  - unfold clean in Ht. simpl in Ht.
    destruct v; simpl in *; rewrite ?andb_false_r in Ht; repeat split; auto.
Qed.

Ltac on_track_solve :=
  unfold on_track, failed in *;
  cbn [w_dir w_others w_net w_nreq w_faults w_clock w_fd w_lock
       w_docker_mode w_strict_stdout with_dir with_others with_nreq
       with_faults with_fd with_lock is_Exception] in *;
  repeat match goal with H : _ /\ _ |- _ => destruct H end;
  repeat match goal with
         | H : w_clock ?x = _ |- context [w_clock ?x] => rewrite H
         | H : w_dir ?x = _ |- context [w_dir ?x] => rewrite H
         end;
  repeat split; auto; try congruence.

Lemma open_w_step w :
  on_track 5 d0 (w_fd w) w ->
  triple (open_w directory (directory ++ "/" ++ tmp)) w
    (fun f w' => f = tmp
       /\ on_track 4 (put tmp (mkfile "" c) d0) (Some tmp) w')
    failed.
Proof.
  intros H. pose proof (verdict_step _ _ _ _ H) as Hv.
  destruct H as (Ho & Hc & _).
  unfold triple, open_w. rewrite (tick_quiet w Ho), name_of_path.
  destruct (verdict w) as [[| |n] w']; on_track_solve.
Qed.

Definition same_permanent (d : dir) : Prop :=
  filter permanent d = filter permanent d0.

Lemma fwrite_step d w :
  on_track 4 d (Some tmp) w -> same_permanent d ->
  triple (fwrite tmp doc) w
    (fun _ w' =>
       on_track 3 (update tmp (fun old => mkfile (f_bytes old ++ doc) c) d)
                (Some tmp) w'
       /\ Str.utf8_valid doc = true)
    failed.
Proof.
  intros H FP. pose proof (verdict_step _ _ _ _ H) as Hv.
  destruct H as (Ho & Hc & Hd & Hf & Hm & Hs & Ht).
  unfold triple, fwrite. destruct (Str.utf8_valid doc) eqn:V; simpl.
  - rewrite (tick_quiet w Ho).
    destruct (verdict w) as [[| |n] w']; unfold same_permanent in *;
      on_track_solve.
    now rewrite filter_update.
  - unfold same_permanent in *. on_track_solve.
Qed.

Lemma fflush_step d fd w :
  on_track 3 d fd w -> same_permanent d ->
  triple (fflush tmp) w (fun _ w' => on_track 2 d fd w') failed.
Proof.
  intros H FP. pose proof (verdict_step _ _ _ _ H) as Hv.
  unfold triple, fflush.
  destruct (verdict w) as [[| |n] w']; unfold same_permanent in *;
    on_track_solve.
Qed.

Lemma fclose_step d w :
  on_track 2 d (Some tmp) w -> same_permanent d ->
  triple (fclose tmp) w (fun _ w' => on_track 1 d None w') failed.
Proof.
  intros H FP. pose proof (verdict_step _ _ _ _ H) as Hv.
  destruct H as (Ho & Hc & Hd & Hf & Hm & Hs & Ht).
  unfold triple, fclose. rewrite Hf.
  destruct (verdict w) as [[| |n] w']; unfold same_permanent in *;
    on_track_solve.
Qed.

Lemma os_rename_step d f w :
  on_track 1 d None w -> same_permanent d ->
  find (has_name tmp) d = Some (tmp, f) ->
  triple (os_rename directory (directory ++ "/" ++ tmp)
                    (directory ++ "/" ++ perm)) w
    (fun _ w' =>
       on_track 0 (put perm f (remove_first (has_name tmp) d)) None w')
    failed.
Proof.
  intros H FP Hfind. pose proof (verdict_step _ _ _ _ H) as Hv.
  destruct H as (Ho & Hc & Hd & Hf & Hm & Hs & Ht).
  unfold triple, os_rename. rewrite (tick_quiet w Ho), !name_of_path.
  destruct (verdict w) as [[| |n] w'] eqn:V; unfold same_permanent in *.
  - destruct Hv as (Ho' & Hc' & Hd' & Hf' & Hm' & Hs' & Ht').
    rewrite Hd', Hfind. on_track_solve.
  - on_track_solve.
  - on_track_solve.
Qed.

(** Closing on the way out of a failed run keeps it failed. *)
Lemma fclose_failed e f w :
  failed e w -> triple (fclose f) w (fun _ w' => failed e w') failed.
Proof.
  intros H. unfold triple, fclose, verdict.
  destruct (w_fd w); [|exact H].
  destruct (w_faults w) as [|[| |n] l]; on_track_solve.
Qed.

Lemma triple_weaken {A} (m : M A) w (ok ok' : A -> world -> Prop)
    (ex ex' : exn -> world -> Prop) :
  triple m w ok ex ->
  (forall a w', ok a w' -> ok' a w') ->
  (forall e w', ex e w' -> ex' e w') ->
  triple m w ok' ex'.
Proof.
  unfold triple. destruct (m w) as [[[a|e] w'] t]; auto.
Qed.

Lemma fclose_stopped e f w :
  stopped e w -> triple (fclose f) w (fun _ w' => stopped e w') stopped.
Proof.
  intros [H|H].
  - eapply triple_weaken; [apply (fclose_failed e f w H) | |];
      intros; now left.
  - unfold triple, fclose. destruct H as (He & Hp & Hf & Hs).
    rewrite Hf. right. exact (conj He (conj Hp (conj Hf Hs))).
Qed.

Lemma publish_steps w :
  on_track 5 d0 (w_fd w) w ->
  triple (publish directory tmp perm doc) w (fun _ w' => announced w') stopped.
Proof.
  intros H. unfold publish, with_open.
  apply triple_bind.
  eapply triple_weaken; [apply open_w_step, H | | intros; now left].
  intros f w1 [-> H1]. cbv beta.
  assert (FP1 : same_permanent (put tmp (mkfile "" c) d0))
    by (now apply filter_put).
  apply triple_finally.
  apply triple_bind.
  eapply triple_weaken; [apply (fwrite_step _ _ H1 FP1) | |].
  2: { intros e w' He. apply fclose_stopped. now left. }
  intros ? w2 [H2 V]. cbv beta.
  set (d2 := update tmp _ _) in H2.
  assert (FP2 : same_permanent d2).
  { unfold d2, same_permanent. now rewrite filter_update. }
  apply triple_bind.
  eapply triple_weaken; [apply (fflush_step _ _ _ H2 FP2) | |].
  2: { intros e w' He. apply fclose_stopped. now left. }
  intros ? w3 H3. cbv beta.
  apply triple_bind.
  eapply triple_weaken; [apply (fclose_step _ _ H3 FP2) | |].
  2: { intros e w' He. apply fclose_stopped. now left. }
  intros ? w4 H4. cbv beta.
  apply triple_bind.
  eapply triple_weaken;
    [apply (os_rename_step d2 (mkfile doc c) _ H4 FP2) | |].
  { unfold d2. rewrite find_update, find_put. reflexivity. }
  2: { intros e w' He. apply fclose_stopped. now left. }
  intros ? w5 H5. cbv beta.
  unfold triple at 1. rewrite log_run.
  destruct H5 as (Ho & Hc & Hd & Hf & Hm & Hs & Ht).
  assert (P5 : published w5).
  { unfold published. rewrite Hd. split; [apply put_in|]. split.
    - intros e He. apply in_put in He as [He|He]; [now left|].
      apply remove_first_in in He. unfold d2 in He.
      apply in_update in He as [He|He]; [auto|].
      apply in_put in He as [He|He]; [|auto].
      right; left. now subst e.
    - rewrite V in Ht. unfold clean in Ht. simpl in Ht. auto. }
  destruct (speaks w5 "INFO" (MCreated (directory ++ "/" ++ perm))) eqn:S5;
    unfold triple, fclose; rewrite Hf;
    [exact (conj P5 (conj (conj Hm Hs) S5))|].
  right. exact (conj eq_refl (conj P5 (conj Hf (conj (conj Hm Hs) S5)))).
Qed.

End PublishSteps.

(** The exit status of the process: that of [SystemExit], or 1 when an
    exception reaches the top. *)
Definition exit_status (r : outcome unit) : Z :=
  match r with
  | Ok _ => 0
  | Raised (SystemExit status) => status
  | Raised _ => 1
  end.

Lemma speaks_fields w w' level m :
  w_docker_mode w' = w_docker_mode w ->
  w_strict_stdout w' = w_strict_stdout w ->
  speaks w' level m = speaks w level m.
Proof. unfold speaks, strict, sink_of. now intros -> ->. Qed.

Section Persist.

Variables (api_key directory : string) (p : payload) (uid : string).

Fixpoint last_char (s : string) : option ascii :=
  match s with
  | EmptyString => None
  | String c rest =>
      match rest with
      | EmptyString => Some c
      | String _ _ => last_char rest
      end
  end.

Lemma last_char_app q s : s <> "" -> last_char (q ++ s) = last_char s.
Proof.
  intros Hs. induction q as [|c q IH]; [reflexivity|].
  simpl. destruct (q ++ s) eqn:E; [|exact IH].
  destruct q; simpl in E; [contradiction|discriminate].
Qed.

(** The temporary name is not a permanent one. *)
Lemma tmp_not_permanent : Str.endswith (uid ++ ".tmp") ".ilert" = false.
Proof.
  destruct (Str.endswith (uid ++ ".tmp") ".ilert") eqn:E; [|reflexivity].
  apply endswith_spec in E as [q E].
  apply (f_equal last_char) in E.
  rewrite !last_char_app in E by discriminate. discriminate.
Qed.

Lemma persist_event_run w :
  persist_event api_key directory p uid w =
  let '(r, w1, t) :=
    try_except
      (publish directory (uid ++ ".tmp") (uid ++ ".ilert")
               (create_xml api_key p))
      (fun e =>
         if is_Exception e
         then Some (log "ERROR"
                      (MCouldNotWrite (directory ++ "/" ++ uid ++ ".ilert") e) ;;
                    exit 1)
         else None) w in
  (r, w1,
   [ELog (sink_of w "INFO") "INFO" MWriting;
    ELog (sink_of w "INFO") "INFO" (MPayload p)] ++ t)%list.
Proof.
  unfold persist_event. rewrite bind_run, log_run.
  change (speaks w "INFO" MWriting) with (negb (strict w "INFO") || true).
  rewrite orb_true_r, bind_run, log_run.
  change (speaks w "INFO" (MPayload p)) with (negb (strict w "INFO") || true).
  rewrite orb_true_r.
  cbv zeta. fold (publish directory (uid ++ ".tmp") (uid ++ ".ilert")
                          (create_xml api_key p)).
  now destruct (try_except _ _ w) as [[r w1] t].
Qed.

(** What the handler of [persist_event] does with an exception. *)
Lemma persist_handler_run e w :
  (log "ERROR" (MCouldNotWrite (directory ++ "/" ++ uid ++ ".ilert") e) ;;
   @exit unit 1) w =
  if speaks w "ERROR" (MCouldNotWrite (directory ++ "/" ++ uid ++ ".ilert") e)
  then (Raised (SystemExit 1), w,
        [ELog (sink_of w "ERROR") "ERROR"
           (MCouldNotWrite (directory ++ "/" ++ uid ++ ".ilert") e)])
  else (Raised UnicodeEncodeError, w, []).
Proof.
  rewrite bind_run, log_run. now destruct (speaks w "ERROR" _).
Qed.

(** C2.  [persist_event] writes the document under the temporary name and
    renames it to the permanent one.  With the verdicts of the operating
    system on its five writing calls (open, write, flush, close, rename)
    arbitrary, and no other process about: it returns, or it leaves by
    [exit(1)], or by the exception of a log line that names a path the log
    cannot encode, which ends the process with status 1 as well; it returns
    exactly when the text can be encoded, no call failed and the line that
    names the new file was logged, and where the path can be encoded it
    leaves by [exit(1)] whenever it does not return; an entry with the
    permanent suffix in the directory afterwards is an entry that was there
    before or the new file with the whole document in it; when the five
    calls succeed the new file is there; and when one of them fails, the
    status of the process is 1 and the entries with the permanent suffix
    are what they were.  As the verdicts are arbitrary, every state the
    directory passes through is covered: it is the final state of the run
    that fails at the next call. *)
Theorem persist_publishes_atomically w :
  quiet w ->
  let doc := create_xml api_key p in
  let x := persist_event api_key directory p uid w in
  let path := directory ++ "/" ++ uid ++ permanent_suffix in
  let published := (uid ++ permanent_suffix, mkfile doc (w_clock w)) in
  let written := Str.utf8_valid doc && clean 5 (w_faults w) in
  (result x = Ok tt \/ result x = Raised (SystemExit 1)
   \/ result x = Raised UnicodeEncodeError)
  /\ (result x = Ok tt <->
      written && speaks w "INFO" (MCreated path) = true)
  /\ (Str.utf8_valid path = true ->
      result x = if written then Ok tt else Raised (SystemExit 1))
  /\ (forall e, In e (w_dir (after x)) -> permanent e = true ->
        In e (w_dir w) \/ e = published)
  /\ (written = true -> In published (w_dir (after x)))
  /\ (written = false ->
      exit_status (result x) = 1
      /\ filter permanent (w_dir (after x)) = filter permanent (w_dir w)).
Proof.
  intros Q. cbv zeta. unfold permanent_suffix. rewrite persist_event_run.
  pose proof (publish_steps directory (uid ++ ".tmp") (uid ++ ".ilert")
                (create_xml api_key p) (w_clock w) (w_dir w)
                (Str.utf8_valid (create_xml api_key p)
                 && clean 5 (w_faults w))
                (w_docker_mode w) (w_strict_stdout w)
                tmp_not_permanent w) as H.
  assert (H0 : on_track (create_xml api_key p) (w_clock w)
                 (Str.utf8_valid (create_xml api_key p)
                  && clean 5 (w_faults w))
                 (w_docker_mode w) (w_strict_stdout w)
                 5 (w_dir w) (w_fd w) w)
    by (unfold on_track; repeat split; auto).
  specialize (H H0). clear H0.
  unfold triple in H. unfold try_except, try_except_else.
  assert (Old : forall w1,
    published (uid ++ ".tmp") (uid ++ ".ilert") (create_xml api_key p)
      (w_clock w) (w_dir w)
      (Str.utf8_valid (create_xml api_key p) && clean 5 (w_faults w)) w1 ->
    forall e, In e (w_dir w1) -> permanent e = true ->
      In e (w_dir w)
      \/ e = (uid ++ ".ilert", mkfile (create_xml api_key p) (w_clock w))).
  { intros w1 (_ & Hall & _) e He Hp.
    destruct (Hall e He) as [->|[Hn|Hold]]; auto.
    exfalso. unfold permanent in Hp. rewrite Hn, tmp_not_permanent in Hp.
    discriminate. }
  destruct (publish _ _ _ _ w) as [[[[]|e] w1] t1].
  - destruct H as (Hp & [Hm Hs] & Hsp).
    rewrite (speaks_fields w w1 _ _ Hm Hs) in Hsp.
    pose proof Hp as (Hin & _ & Ht).
    unfold result, after, ret. cbn [fst snd]. rewrite Ht, Hsp.
    repeat split; auto; try congruence. now apply Old.
  - destruct H as [(He & Hsame & Ht)|(He & Hp & _ & [Hm Hs] & Hsp)].
    + rewrite He, persist_handler_run.
      pose proof (speaks_encodable "ERROR"
        (MCouldNotWrite (directory ++ "/" ++ uid ++ ".ilert") e) w1) as Hen.
      cbn [encodable] in Hen.
      destruct (speaks w1 "ERROR" _);
        unfold result, after; cbn [fst snd]; rewrite Ht;
        (repeat split; auto; try congruence; try discriminate;
         try (intros Hv; specialize (Hen Hv); discriminate);
         try (intros e' Hin Hq; left;
              assert (Hf : In e' (filter permanent (w_dir w1)))
                by (apply filter_In; auto);
              rewrite Hsame in Hf; now apply filter_In in Hf)).
    + subst e. cbn [is_Exception]. rewrite persist_handler_run.
      rewrite (speaks_fields w w1 _ _ Hm Hs) in Hsp.
      pose proof Hp as (Hin & _ & Ht).
      pose proof (speaks_encodable "ERROR"
        (MCouldNotWrite (directory ++ "/" ++ uid ++ ".ilert")
           UnicodeEncodeError) w1) as Hen.
      pose proof (speaks_encodable "INFO"
        (MCreated (directory ++ "/" ++ uid ++ ".ilert")) w) as Hen'.
      cbn [encodable] in Hen, Hen'.
      destruct (speaks w1 "ERROR" _);
        unfold result, after; cbn [fst snd]; rewrite Ht, Hsp;
        (repeat split; auto; try congruence; try discriminate;
         try (intros Hv; specialize (Hen' Hv); congruence);
         try (now apply Old)).
Qed.

End Persist.

(** ** The lock stays as it is while [flush] runs *)

Section LockKept.

Variables (endpoint directory : string) (port : Z).

Lemma bind_lock {A B} (m : M A) (k : A -> M B) w :
  w_lock (after (m w)) = w_lock w ->
  (forall a w', w_lock (after (k a w')) = w_lock w') ->
  w_lock (after (bind m k w)) = w_lock w.
Proof.
  intros Hm Hk. rewrite bind_run.
  destruct (m w) as [[[a|e] w1] t1]; [|exact Hm].
  specialize (Hk a w1). destruct (k a w1) as [[r w2] t2].
  unfold after in *. cbn [fst snd] in *. congruence.
Qed.

Lemma read_lock fp w : w_lock (after (read fp w)) = w_lock w.
Proof. rewrite read_run. destruct fp; apply tick_lock. Qed.

Lemma os_remove_lock path w :
  w_lock (after (os_remove directory path w)) = w_lock w.
Proof.
  rewrite os_remove_run. cbv zeta.
  pose proof (verdict_lock (tick w)) as Hv. rewrite tick_lock in Hv.
  destruct (verdict (tick w)) as [[| |n] w1]; cbn [fst snd] in *;
    destruct (lookup directory path (w_dir w1)); exact Hv.
Qed.

Lemma on_http_error_lock event code reason fp w :
  w_lock (after (on_http_error directory event code reason fp w)) = w_lock w.
Proof.
  unfold on_http_error.
  destruct (code =? 429); [|destruct ((400 <=? code) && (code <=? 499))];
    (apply bind_lock; [apply read_lock|intros body w']);
    [now rewrite log_after| |reflexivity].
  apply bind_lock; [now rewrite log_after|intros _ w''].
  apply os_remove_lock.
Qed.

Lemma dispose_lock event answer w :
  w_lock (after (dispose directory event answer w)) = w_lock w.
Proof.
  unfold dispose.
  destruct answer as [status reason body|status reason failure|reason|rendered];
    [destruct ((200 <=? status) && (status <? 300))..| |];
    try apply on_http_error_lock; try (now rewrite log_after);
    (apply bind_lock; [apply os_remove_lock|intros _ w'; now rewrite log_after]).
Qed.

Lemma flush_event_lock url event w :
  w_lock (after (flush_event directory url event w)) = w_lock w.
Proof.
  rewrite flush_event_run. cbv zeta.
  destruct (lookup directory event (w_dir (tick w))) as [e|];
    [|unfold after; simpl; apply tick_lock].
  destruct (Str.utf8_valid (f_bytes (snd e)));
    [|unfold after; simpl; apply tick_lock].
  destruct (speaks w "INFO" (MSending event));
    [|unfold after; simpl; apply tick_lock].
  match goal with |- context [dispose ?d ?ev ?a ?w'] =>
    pose proof (dispose_lock ev a w') as H;
    destruct (dispose d ev a w') as [[r w3] t]
  end.
  unfold after in *. simpl in *. now rewrite H, !tick_lock.
Qed.

Lemma for_each_lock url l : forall w,
  w_lock (after (for_each l (flush_event directory url) w)) = w_lock w.
Proof.
  induction l as [|x l IH]; intros w; [reflexivity|].
  rewrite for_each_cons.
  pose proof (flush_event_lock url x w) as Hx.
  destruct (flush_event directory url x w) as [[[[]|e] w1] t1];
    unfold after in *; simpl in *; [|exact Hx].
  specialize (IH w1). destruct (for_each l _ w1) as [[r w2] t2].
  simpl in *. congruence.
Qed.

Lemma map_m_getmtime_lock l : forall w,
  w_lock (after (map_m (fun x => getmtime directory x) l w)) = w_lock w.
Proof.
  induction l as [|x l IH]; intros w; [reflexivity|].
  simpl. unfold bind at 1. rewrite getmtime_run.
  destruct (lookup directory x (w_dir (tick w)));
    [|unfold after; simpl; apply tick_lock].
  unfold bind. specialize (IH (tick w)).
  destruct (map_m _ l (tick w)) as [[[ys|e] w1] t1];
    unfold after in *; simpl in *; now rewrite IH, tick_lock.
Qed.

(** [flush] neither takes nor gives up the lock: under [lock_and_flush] it
    runs with the lock held from its first call to its last. *)
Lemma flush_keeps_lock w :
  w_lock (after (flush endpoint directory port w)) = w_lock w.
Proof.
  rewrite flush_run. cbv zeta.
  assert (H : w_lock (after (pending directory w)) = w_lock w).
  { unfold pending, sorted, listdir, bind.
    match goal with |- context [map_m ?f ?l ?w'] =>
      pose proof (map_m_getmtime_lock l w') as Hm;
      destruct (map_m f l w') as [[[ys|e] w1] t1]
    end; unfold after in *; simpl in *; now rewrite Hm, tick_lock. }
  destruct (pending directory w) as [[[events|e] w1] t1]; [|exact H].
  rewrite for_each_lock. exact H.
Qed.

End LockKept.

(** ** What stops the loop, and what the encoder leaves alone *)

Section Stops.

Variables (directory url : string).

(** An exception that leaves one turn leaves the loop: the events after it
    are not taken up. *)
Lemma for_each_raised {A} (body : A -> M unit) x l w e w1 t1 :
  body x w = (Raised e, w1, t1) ->
  for_each (x :: l) body w = (Raised e, w1, t1).
Proof. intros H. rewrite for_each_cons. now rewrite H. Qed.

(** A file that is there and does not hold UTF-8 raises out of the turn. *)
Lemma flush_event_undecodable event w e :
  lookup directory event (w_dir (tick w)) = Some e ->
  Str.utf8_valid (f_bytes (snd e)) = false ->
  flush_event directory url event w
  = (Raised UnicodeDecodeError, tick w, [EOpen event]).
Proof.
  intros L V. rewrite flush_event_run. cbv zeta. now rewrite L, V.
Qed.

(** A file that is gone when an accepted event is to be deleted raises out
    of the turn, before the delivery is logged. *)
Lemma dispose_remove_fails event status reason body w :
  (200 <=? status) && (status <? 300) = true ->
  lookup directory event (w_dir (snd (verdict (tick w)))) = None ->
  dispose directory event (Response status reason body) w
  = (Raised (OSError event), snd (verdict (tick w)), [ERemove event]).
Proof.
  intros H2 L. unfold dispose. rewrite H2, bind_run, os_remove_run.
  cbv zeta. rewrite L. now destruct (fst (verdict (tick w))).
Qed.

End Stops.

Lemma append_nil_r (s : string) : s ++ "" = s.
Proof. induction s as [|ch s IH]; simpl; [reflexivity | now rewrite IH]. Qed.

Lemma fold_left_append_entries (p : payload) doc :
  fold_left (fun doc entry => doc ++ xml_entry entry) p doc
  = doc ++ fold_right append "" (map xml_entry p).
Proof.
  revert doc. induction p as [|e p IH]; intros doc; simpl.
  - now rewrite append_nil_r.
  - now rewrite IH, append_assoc.
Qed.

(** The API key stands in the document as it was given; the entries are
    escaped. *)
Lemma create_xml_shape apikey (p : payload) :
  create_xml apikey p
  = xml_declaration
    ++ ("<event><apiKey>" ++ apikey ++ "</apiKey><payload>")
    ++ fold_right append "" (map xml_entry p) ++ "</payload></event>".
Proof.
  unfold create_xml. rewrite fold_left_append_entries.
  now rewrite !append_assoc.
Qed.

(** ** Reading back what the encoder escaped *)

Section Expansion.

(** Replacing characters one by one. *)
Fixpoint expand (f : ascii -> string) (s : string) : string :=
  match s with
  | EmptyString => EmptyString
  | String c rest => f c ++ expand f rest
  end.

Definition swap (c : ascii) (by_ : string) (d : ascii) : string :=
  if Ascii.eqb d c then by_ else String d "".

Lemma replace_expand c by_ s : Str.replace c by_ s = expand (swap c by_) s.
Proof.
  induction s as [|d s IH]; simpl; [reflexivity|].
  unfold swap at 1. rewrite IH. now destruct (Ascii.eqb d c).
Qed.

Lemma expand_app f a b : expand f (a ++ b) = expand f a ++ expand f b.
Proof.
  induction a as [|c a IH]; simpl; [reflexivity|].
  now rewrite IH, append_assoc.
Qed.

Lemma expand_expand f g s :
  expand g (expand f s) = expand (fun c => expand g (f c)) s.
Proof.
  induction s as [|c s IH]; simpl; [reflexivity|].
  now rewrite expand_app, IH.
Qed.

Lemma expand_ext f g s :
  (forall c, f c = g c) -> expand f s = expand g s.
Proof.
  intros H. induction s as [|c s IH]; simpl; [reflexivity|].
  now rewrite H, IH.
Qed.

(** What [escape(data)] makes of one character of text. *)
Definition text_char (c : ascii) : string :=
  if Ascii.eqb c Chr.amp then "&amp;"
  else if Ascii.eqb c Chr.gt then "&gt;"
  else if Ascii.eqb c Chr.lt then "&lt;"
  else String c "".

(** What [quoteattr] makes of one character before it chooses the quotes. *)
Definition attr_char (c : ascii) : string :=
  if Ascii.eqb c Chr.amp then "&amp;"
  else if Ascii.eqb c Chr.gt then "&gt;"
  else if Ascii.eqb c Chr.lt then "&lt;"
  else if Ascii.eqb c Chr.lf then "&#10;"
  else if Ascii.eqb c Chr.cr then "&#13;"
  else if Ascii.eqb c Chr.tab then "&#9;"
  else String c "".

Lemma escape_text s : escape s [] = expand text_char s.
Proof.
  unfold escape, dict_replace. rewrite !replace_expand, !expand_expand.
  apply expand_ext. intros [[] [] [] [] [] [] [] []]; reflexivity.
Qed.

End Expansion.

Section ReadingBack.

Lemma escape_attr s :
  escape s [(Chr.lf, "&#10;"); (Chr.cr, "&#13;"); (Chr.tab, "&#9;")]
  = expand attr_char s.
Proof.
  unfold escape, dict_replace. rewrite !replace_expand, !expand_expand.
  apply expand_ext. intros [[] [] [] [] [] [] [] []]; reflexivity.
Qed.

(** Escaped text has no end of a marked section in it: [>] is escaped. *)
Lemma no_section_end c v rest :
  Reader.strip "]]>" (String c (expand text_char v ++ String Chr.lt rest))
  = None.
Proof.
  cbn [Reader.strip Str.strip_prefix].
  destruct (Ascii.eqb "]" c); [|reflexivity].
  destruct v as [|c1 v]; [reflexivity|].
  cbn [expand]. unfold text_char at 1.
  destruct (Ascii.eqb c1 Chr.amp); [reflexivity|].
  destruct (Ascii.eqb c1 Chr.gt); [reflexivity|].
  destruct (Ascii.eqb c1 Chr.lt); [reflexivity|].
  cbn [append Str.strip_prefix].
  destruct (Ascii.eqb "]" c1); [|reflexivity].
  destruct v as [|c2 v]; [reflexivity|].
  cbn [expand]. unfold text_char at 1.
  destruct (Ascii.eqb c2 Chr.amp); [reflexivity|].
  destruct (Ascii.eqb_spec c2 Chr.gt) as [->|Hg]; [reflexivity|].
  destruct (Ascii.eqb c2 Chr.lt); [reflexivity|].
  cbn [append Str.strip_prefix].
  apply Ascii.eqb_neq in Hg. rewrite Ascii.eqb_sym in Hg.
  change (Ascii.eqb ">" c2 = false) in Hg. now rewrite Hg.
Qed.

(** Character data. *)
Lemma chardata_escaped v : forall fuel rest,
  (String.length v < fuel)%nat ->
  Reader.chardata fuel (expand text_char v ++ String Chr.lt rest)
  = Some (v, String Chr.lt rest).
Proof.
  induction v as [|c v IH]; intros fuel rest Hf;
    (destruct fuel as [|fuel]; [inversion Hf|]).
  - reflexivity.
  - simpl in Hf. apply PeanoNat.lt_S_n in Hf.
    specialize (IH fuel rest Hf).
    cbn [expand]. rewrite append_assoc.
    pose proof (no_section_end c v rest) as Hn.
    set (Y := String Chr.lt rest) in *.
    set (X := expand text_char v ++ Y) in *.
    clearbody X Y. unfold text_char.
    destruct (Ascii.eqb_spec c Chr.amp) as [->|Ha];
      [cbn; rewrite IH; reflexivity|].
    destruct (Ascii.eqb_spec c Chr.gt) as [->|Hg];
      [cbn; rewrite IH; reflexivity|].
    destruct (Ascii.eqb_spec c Chr.lt) as [->|Hl];
      [cbn; rewrite IH; reflexivity|].
    cbn [append Reader.chardata].
    apply Ascii.eqb_neq in Ha, Hl. rewrite Ha, Hl, Hn, IH. reflexivity.
Qed.

End ReadingBack.

Section Attributes.

(** What [quoteattr] makes of one character when it has to quote with
    double quotes a value that holds both kinds of quote. *)
Definition attr_char_q (c : ascii) : string :=
  if Ascii.eqb c Chr.dquote then "&quot;" else attr_char c.

Lemma quot_attr s :
  Str.replace Chr.dquote "&quot;" (expand attr_char s) = expand attr_char_q s.
Proof.
  rewrite replace_expand, expand_expand. apply expand_ext.
  intros [[] [] [] [] [] [] [] []]; reflexivity.
Qed.

Lemma contains_expand q f s :
  (forall c, Str.contains q (f c) = Ascii.eqb q c) ->
  Str.contains q (expand f s) = Str.contains q s.
Proof.
  intros H. induction s as [|c s IH]; simpl; [reflexivity|].
  now rewrite contains_app, H, IH.
Qed.

Lemma contains_expand_never q f s :
  (forall c, Str.contains q (f c) = false) ->
  Str.contains q (expand f s) = false.
Proof.
  intros H. induction s as [|c s IH]; simpl; [reflexivity|].
  now rewrite contains_app, H, IH.
Qed.

Lemma attvalue_quoted q key :
  q = Chr.dquote \/ q = Chr.squote ->
  forall fuel rest,
  Str.contains q key = false ->
  (String.length key < fuel)%nat ->
  Reader.attvalue fuel q (expand attr_char key ++ String q rest)
  = Some (key, rest).
Proof.
  intros Hq. induction key as [|c key IH]; intros fuel rest Hc Hf;
    (destruct fuel as [|fuel]; [inversion Hf|]).
  - cbn [expand append Reader.attvalue]. now rewrite Ascii.eqb_refl.
  - simpl in Hf. apply PeanoNat.lt_S_n in Hf.
    change (Ascii.eqb q c || Str.contains q key = false) in Hc.
    apply orb_false_elim in Hc as [Hqc Hk].
    specialize (IH fuel rest Hk Hf).
    cbn [expand]. rewrite append_assoc.
    set (X := expand attr_char key ++ String q rest) in *. clearbody X.
    destruct Hq as [-> | ->];
      destruct c as [[] [] [] [] [] [] [] []];
      try discriminate Hqc; cbn in IH |- *; rewrite IH; reflexivity.
Qed.

Lemma attvalue_quoted_both key : forall fuel rest,
  (String.length key < fuel)%nat ->
  Reader.attvalue fuel Chr.dquote
    (expand attr_char_q key ++ String Chr.dquote rest)
  = Some (key, rest).
Proof.
  induction key as [|c key IH]; intros fuel rest Hf;
    (destruct fuel as [|fuel]; [inversion Hf|]).
  - reflexivity.
  - simpl in Hf. apply PeanoNat.lt_S_n in Hf.
    specialize (IH fuel rest Hf).
    cbn [expand]. rewrite append_assoc.
    set (X := expand attr_char_q key ++ String Chr.dquote rest) in *.
    clearbody X.
    destruct c as [[] [] [] [] [] [] [] []]; cbn in IH |- *; rewrite IH; reflexivity.
Qed.

(** The three ways [quoteattr] quotes. *)
Lemma quoteattr_cases key :
  (Str.contains Chr.dquote key = false
   /\ quoteattr key = quoted Chr.dquote (expand attr_char key))
  \/ (Str.contains Chr.squote key = false
      /\ quoteattr key = quoted Chr.squote (expand attr_char key))
  \/ quoteattr key = quoted Chr.dquote (expand attr_char_q key).
Proof.
  unfold quoteattr. cbv zeta. rewrite escape_attr.
  rewrite !contains_expand
    by (intros [[] [] [] [] [] [] [] []]; reflexivity).
  destruct (Str.contains Chr.dquote key); [|now left].
  destruct (Str.contains Chr.squote key); [|right; now left].
  right; right. now rewrite quot_attr.
Qed.

End Attributes.

Section Document.

Lemma length_app (a b : string) :
  String.length (a ++ b) = (String.length a + String.length b)%nat.
Proof. induction a as [|c a IH]; simpl; [reflexivity | now rewrite IH]. Qed.

Lemma length_expand f s :
  (forall c, (1 <= String.length (f c))%nat) ->
  (String.length s <= String.length (expand f s))%nat.
Proof.
  intros H. induction s as [|c s IH]; simpl; [lia|].
  rewrite length_app. specialize (H c). lia.
Qed.

Lemma length_quoteattr key :
  (String.length key < String.length (quoteattr key))%nat.
Proof.
  assert (Ha : (String.length key <= String.length (expand attr_char key))%nat)
    by (apply length_expand; intros [[] [] [] [] [] [] [] []]; simpl; lia).
  assert (Hq : (String.length key <= String.length (expand attr_char_q key))%nat)
    by (apply length_expand; intros [[] [] [] [] [] [] [] []]; simpl; lia).
  destruct (quoteattr_cases key) as [[_ ->]|[[_ ->]| ->]];
    unfold quoted; simpl; rewrite length_app; simpl; lia.
Qed.

Lemma length_escape v :
  (String.length v <= String.length (escape v []))%nat.
Proof.
  rewrite escape_text. apply length_expand.
  intros [[] [] [] [] [] [] [] []]; simpl; lia.
Qed.

Lemma xml_entry_unfold k v rest :
  xml_entry (k, v) ++ rest
  = "<entry key=" ++ quoteattr k ++ ">" ++ escape v [] ++ "</entry>" ++ rest.
Proof. unfold xml_entry. simpl fst. simpl snd. now rewrite !append_assoc. Qed.

(** One entry is read back as it was given. *)
Lemma entry_escaped k v fuel rest :
  (String.length k < fuel)%nat -> (String.length v < fuel)%nat ->
  Reader.entry fuel (xml_entry (k, v) ++ rest) = Some ((k, v), rest).
Proof.
  intros Hk Hv. rewrite xml_entry_unfold. unfold Reader.entry.
  change (Reader.strip "<entry key="
            ("<entry key=" ++ quoteattr k ++ ">" ++ escape v [] ++ "</entry>" ++ rest))
    with (Some (quoteattr k ++ ">" ++ escape v [] ++ "</entry>" ++ rest)).
  rewrite escape_text.
  assert (Hchar : Reader.chardata fuel
                    (expand text_char v ++ "</entry>" ++ rest)
                  = Some (v, "</entry>" ++ rest))
    by (apply (chardata_escaped v fuel ("/entry>" ++ rest) Hv)).
  set (T := expand text_char v ++ "</entry>" ++ rest) in *. clearbody T.
  destruct (quoteattr_cases k) as [[Hc ->]|[[Hc ->]| ->]]; unfold quoted;
    cbn [append]; rewrite append_assoc; cbn [append].
  - rewrite Ascii.eqb_refl. cbn [orb].
    rewrite (attvalue_quoted Chr.dquote k (or_introl eq_refl) fuel _ Hc Hk).
    cbn [Reader.strip Str.strip_prefix]. cbn.
    rewrite Hchar. reflexivity.
  - rewrite Ascii.eqb_refl, orb_true_r.
    rewrite (attvalue_quoted Chr.squote k (or_intror eq_refl) fuel _ Hc Hk).
    cbn. rewrite Hchar. reflexivity.
  - rewrite Ascii.eqb_refl. cbn [orb].
    rewrite (attvalue_quoted_both k fuel _ Hk).
    cbn. rewrite Hchar. reflexivity.
Qed.

End Document.

(** ** The characters XML allows *)

Section Legal.

(** No byte of [s] is an ASCII character. *)
Fixpoint high (s : string) : bool :=
  match s with
  | EmptyString => true
  | String c rest => negb (Str.between 0 127 c) && high rest
  end.

Lemma between_high lo hi c :
  (128 <= lo)%N -> Str.between lo hi c = true -> Str.between 0 127 c = false.
Proof.
  unfold Str.between. intros Hlo H.
  apply andb_true_iff in H as [H _]. apply N.leb_le in H.
  apply andb_false_iff. right. apply N.leb_gt. lia.
Qed.

(** The first character of a text that is allowed, and what follows it. *)
Lemma legal_step s :
  Reader.legal s = true ->
  s = ""
  \/ exists pre rest,
       s = pre ++ rest
       /\ (String.length rest < String.length s)%nat
       /\ Reader.legal rest = true
       /\ (forall X, Reader.legal (pre ++ X) = Reader.legal X)
       /\ ((exists c, pre = String c "" /\ Str.between 0 127 c = true
                      /\ Reader.char_ok (N_of_ascii c) = true)
           \/ high pre = true).
Proof.
  intros H. destruct s as [|b0 r0]; [now left|right].
  cbn [Reader.legal] in H.
  destruct (Str.between 0 127 b0) eqn:E0.
  { apply andb_true_iff in H as [H0 H1].
    exists (String b0 ""), r0. split; [reflexivity|]. split; [simpl; lia|].
    split; [assumption|]. split.
    - intros X. cbn [append Reader.legal]. now rewrite E0, H0.
    - left. now exists b0. }
  destruct r0 as [|b1 r1]; [discriminate|].
  destruct (Str.between 194 223 b0) eqn:E1.
  { apply andb_true_iff in H as [H0 H1].
    exists (String b0 (String b1 "")), r1. split; [reflexivity|]. split; [simpl; lia|].
    split; [assumption|]. split.
    - intros X. cbn [append Reader.legal]. now rewrite E0, E1, H0.
    - right. cbn [high]. rewrite E0.
      now rewrite (between_high 128 191 b1) by (auto; lia). }
  destruct r1 as [|b2 r2]; [discriminate|].
  destruct (Str.between 224 239 b0) eqn:E2.
  { apply andb_true_iff in H as [H H3].
    apply andb_true_iff in H as [H H2].
    apply andb_true_iff in H as [H0 H1].
    exists (String b0 (String b1 (String b2 ""))), r2. split; [reflexivity|]. split; [simpl; lia|].
    split; [assumption|]. split.
    - intros X. cbn [append Reader.legal].
      now rewrite E0, E1, E2, H0, H1, H2.
    - right. cbn [high]. rewrite E0.
      rewrite (between_high 128 191 b2) by (auto; lia).
      assert (Hb1 : Str.between 0 127 b1 = false).
      { destruct (Str.between 224 224 b0);
          [apply (between_high 160 191); auto; lia|].
        destruct (Str.between 237 237 b0);
          [apply (between_high 128 159); auto; lia|].
        apply (between_high 128 191); auto; lia. }
      now rewrite Hb1. }
  destruct r2 as [|b3 r3]; [discriminate|].
  destruct (Str.between 240 244 b0) eqn:E3; [|discriminate].
  apply andb_true_iff in H as [H H3].
  apply andb_true_iff in H as [H H2].
  apply andb_true_iff in H as [H0 H1].
  exists (String b0 (String b1 (String b2 (String b3 "")))), r3.
  split; [reflexivity|]. split; [simpl; lia|].
    split; [assumption|]. split.
  - intros X. cbn [append Reader.legal].
    now rewrite E0, E1, E2, E3, H0, H1, H2.
  - right. cbn [high]. rewrite E0.
    rewrite (between_high 128 191 b2) by (auto; lia).
    rewrite (between_high 128 191 b3) by (auto; lia).
    assert (Hb1 : Str.between 0 127 b1 = false).
    { destruct (Str.between 240 240 b0);
        [apply (between_high 144 191); auto; lia|].
      destruct (Str.between 244 244 b0);
        [apply (between_high 128 143); auto; lia|].
      apply (between_high 128 191); auto; lia. }
    now rewrite Hb1.
Qed.

(** A replacement of characters that leaves the bytes of the encoded
    characters alone and writes allowed text for the ASCII ones. *)
Definition harmless (f : ascii -> string) : Prop :=
  (forall c, Str.between 0 127 c = false -> f c = String c "")
  /\ (forall c X, Str.between 0 127 c = true ->
        Reader.char_ok (N_of_ascii c) = true ->
        Reader.legal (f c ++ X) = Reader.legal X).

Lemma expand_high f s :
  (forall c, Str.between 0 127 c = false -> f c = String c "") ->
  high s = true -> expand f s = s.
Proof.
  intros Hf. induction s as [|c s IH]; [reflexivity|].
  cbn [high expand]. intros H. apply andb_true_iff in H as [Hc Hs].
  apply negb_true_iff in Hc. now rewrite (Hf c Hc), (IH Hs).
Qed.

Lemma legal_expand_bounded f :
  harmless f ->
  forall n s, (String.length s <= n)%nat -> Reader.legal s = true ->
  forall Y, Reader.legal (expand f s ++ Y) = Reader.legal Y.
Proof.
  intros [H1 H2]. induction n as [|n IH]; intros s Hn Hs Y.
  { destruct s; [reflexivity|cbn [String.length] in Hn; lia]. }
  destruct (legal_step s Hs) as [->|(pre & rest & -> & Hl & Hr & Hp & Hk)];
    [reflexivity|].
  rewrite expand_app, append_assoc.
  assert (IHr : Reader.legal (expand f rest ++ Y) = Reader.legal Y)
    by (apply IH; [lia|exact Hr]).
  destruct Hk as [(c & -> & Hc & Ho)|Hh].
  - cbn [expand]. rewrite append_nil_r. now rewrite (H2 c _ Hc Ho).
  - now rewrite (expand_high f pre H1 Hh), Hp.
Qed.

Lemma legal_expand f s Y :
  harmless f -> Reader.legal s = true ->
  Reader.legal (expand f s ++ Y) = Reader.legal Y.
Proof.
  intros Hf Hs. now apply (legal_expand_bounded f Hf (String.length s) s).
Qed.

Lemma expand_same s : expand (fun c => String c "") s = s.
Proof. induction s as [|c s IH]; cbn; [reflexivity|now rewrite IH]. Qed.

(** Allowed text may stand before any text. *)
Lemma legal_app s Y :
  Reader.legal s = true -> Reader.legal (s ++ Y) = Reader.legal Y.
Proof.
  intros Hs. rewrite <- (expand_same s) at 1.
  apply legal_expand; [|exact Hs]. split; [reflexivity|].
  intros c X Hc Ho. cbn [append Reader.legal]. now rewrite Hc, Ho.
Qed.

Lemma harmless_text_char : harmless text_char.
Proof.
  split.
  - intros [[] [] [] [] [] [] [] []] H; vm_compute in H;
      try discriminate H; reflexivity.
  - intros [[] [] [] [] [] [] [] []] X H1 H2; vm_compute in H1, H2;
      try discriminate; reflexivity.
Qed.

Lemma harmless_attr_char : harmless attr_char.
Proof.
  split.
  - intros [[] [] [] [] [] [] [] []] H; vm_compute in H;
      try discriminate H; reflexivity.
  - intros [[] [] [] [] [] [] [] []] X H1 H2; vm_compute in H1, H2;
      try discriminate; reflexivity.
Qed.

Lemma harmless_attr_char_q : harmless attr_char_q.
Proof.
  split.
  - intros [[] [] [] [] [] [] [] []] H; vm_compute in H;
      try discriminate H; reflexivity.
  - intros [[] [] [] [] [] [] [] []] X H1 H2; vm_compute in H1, H2;
      try discriminate; reflexivity.
Qed.

Lemma legal_quoteattr k Y :
  Reader.legal k = true ->
  Reader.legal (quoteattr k ++ Y) = Reader.legal Y.
Proof.
  intros Hk.
  destruct (quoteattr_cases k) as [[_ ->]|[[_ ->]| ->]]; unfold quoted;
    cbn [append]; rewrite append_assoc; cbn [Reader.legal];
    change (Str.between 0 127 _) with true; cbv iota;
    change (Reader.char_ok _) with true; cbn [andb];
    rewrite legal_expand
      by auto using harmless_attr_char, harmless_attr_char_q;
    reflexivity.
Qed.

Lemma legal_xml_entry k v Y :
  Reader.legal k = true -> Reader.legal v = true ->
  Reader.legal (xml_entry (k, v) ++ Y) = Reader.legal Y.
Proof.
  intros Hk Hv. unfold xml_entry. cbn [fst snd]. rewrite !append_assoc.
  rewrite (legal_app "<entry key=") by reflexivity.
  rewrite legal_quoteattr by exact Hk.
  rewrite (legal_app ">") by reflexivity.
  rewrite escape_text, legal_expand by auto using harmless_text_char.
  now rewrite (legal_app "</entry>") by reflexivity.
Qed.

Lemma legal_entries (p : payload) Y :
  (forall kv, In kv p ->
     Reader.legal (fst kv) = true /\ Reader.legal (snd kv) = true) ->
  Reader.legal (fold_right append "" (map xml_entry p) ++ Y) = Reader.legal Y.
Proof.
  induction p as [|[k v] p IH]; intros H; [reflexivity|].
  cbn [map fold_right]. rewrite append_assoc.
  destruct (H (k, v) (or_introl eq_refl)) as [Hk Hv].
  rewrite legal_xml_entry by assumption.
  apply IH. intros kv Hin. apply H. now right.
Qed.

(** The document of an API key and a payload that hold allowed characters
    holds allowed characters. *)
Lemma legal_create_xml apikey (p : payload) :
  Reader.legal apikey = true ->
  (forall kv, In kv p ->
     Reader.legal (fst kv) = true /\ Reader.legal (snd kv) = true) ->
  Reader.legal (create_xml apikey p) = true.
Proof.
  intros Ha Hp. rewrite create_xml_shape.
  rewrite (legal_app xml_declaration) by reflexivity.
  rewrite !append_assoc.
  rewrite (legal_app "<event><apiKey>") by reflexivity.
  rewrite legal_app by exact Ha.
  rewrite (legal_app "</apiKey><payload>") by reflexivity.
  now rewrite legal_entries by exact Hp.
Qed.

End Legal.

Section WholeDocument.

(** Two right brackets and [>] stand somewhere in [s]. *)
Fixpoint holds_section_end (s : string) : bool :=
  match s with
  | EmptyString => false
  | String c rest =>
      match Reader.strip "]]>" s with
      | Some _ => true
      | None => holds_section_end rest
      end
  end.

Lemma no_section_end_plain c k rest :
  Reader.strip "]]>" (String c k) = None ->
  Reader.strip "]]>" (String c (k ++ String Chr.lt rest)) = None.
Proof.
  cbn [Reader.strip Str.strip_prefix].
  destruct (Ascii.eqb "]" c); [|reflexivity].
  destruct k as [|c1 k]; [reflexivity|].
  cbn [append Str.strip_prefix].
  destruct (Ascii.eqb "]" c1); [|reflexivity].
  destruct k as [|c2 k]; [reflexivity|].
  cbn [append Str.strip_prefix].
  now destruct (Ascii.eqb ">" c2).
Qed.

Lemma chardata_plain k : forall fuel rest,
  Str.contains Chr.amp k = false -> Str.contains Chr.lt k = false ->
  holds_section_end k = false ->
  (String.length k < fuel)%nat ->
  Reader.chardata fuel (k ++ String Chr.lt rest) = Some (k, String Chr.lt rest).
Proof.
  induction k as [|c k IH]; intros fuel rest Ha Hl Hg Hf;
    (destruct fuel as [|fuel]; [inversion Hf|]).
  - reflexivity.
  - simpl in Hf. apply PeanoNat.lt_S_n in Hf.
    cbn [holds_section_end] in Hg.
    destruct (Reader.strip "]]>" (String c k)) eqn:Hs; [discriminate|].
    pose proof (no_section_end_plain c k rest Hs) as Hn.
    change (Ascii.eqb Chr.amp c || Str.contains Chr.amp k = false) in Ha.
    change (Ascii.eqb Chr.lt c || Str.contains Chr.lt k = false) in Hl.
    apply orb_false_elim in Ha as [Ha Hak], Hl as [Hl Hlk].
    specialize (IH fuel rest Hak Hlk Hg Hf).
    cbn [append Reader.chardata].
    rewrite Ascii.eqb_sym in Ha. rewrite Ascii.eqb_sym in Hl.
    now rewrite Ha, Hl, Hn, IH.
Qed.

Lemma entries_escaped (p : payload) : forall fuel rest,
  (length p < fuel)%nat ->
  Reader.entries fuel
    (fold_right append "" (map xml_entry p) ++ "</payload>" ++ rest)
  = Some (p, rest).
Proof.
  induction p as [|[k v] p IH]; intros fuel rest Hf;
    (destruct fuel as [|fuel]; [inversion Hf|]).
  - reflexivity.
  - simpl in Hf. apply PeanoNat.lt_S_n in Hf.
    specialize (IH fuel rest Hf).
    cbn [map fold_right]. rewrite append_assoc.
    set (X := fold_right append "" (map xml_entry p) ++ "</payload>" ++ rest)
      in *. clearbody X.
    cbn [Reader.entries].
    assert (Hstrip : Reader.strip "</payload>" (xml_entry (k, v) ++ X) = None)
      by (rewrite xml_entry_unfold; reflexivity).
    rewrite Hstrip.
    rewrite entry_escaped.
    + now rewrite IH.
    + rewrite xml_entry_unfold, !length_app.
      pose proof (length_quoteattr k). cbn [String.length]. lia.
    + rewrite xml_entry_unfold, !length_app.
      pose proof (length_escape v). cbn [String.length]. lia.
Qed.

Lemma newlines_id s :
  Str.contains Chr.cr s = false -> Str.universal_newlines false s = s.
Proof.
  induction s as [|c s IH]; [reflexivity|].
  intros H. change (Ascii.eqb Chr.cr c || Str.contains Chr.cr s = false) in H.
  apply orb_false_elim in H as [Hc Hs].
  cbn [Str.universal_newlines]. rewrite Ascii.eqb_sym in Hc.
  change (ascii_of_nat 13) with Chr.cr. rewrite Hc, andb_false_r.
  now rewrite IH.
Qed.

Lemma contains_quoteattr_cr k : Str.contains Chr.cr (quoteattr k) = false.
Proof.
  destruct (quoteattr_cases k) as [[_ ->]|[[_ ->]| ->]]; unfold quoted;
    cbn [Str.contains]; rewrite contains_app;
    rewrite contains_expand_never
      by (intros [[] [] [] [] [] [] [] []]; reflexivity);
    reflexivity.
Qed.

Lemma contains_entries_cr (p : payload) :
  (forall kv, In kv p -> Str.contains Chr.cr (snd kv) = false) ->
  Str.contains Chr.cr (fold_right append "" (map xml_entry p)) = false.
Proof.
  induction p as [|[k v] p IH]; intros H; [reflexivity|].
  cbn [map fold_right]. rewrite contains_app, IH
    by (intros kv Hkv; apply H; now right).
  unfold xml_entry. cbn [fst snd]. rewrite !contains_app.
  rewrite contains_quoteattr_cr, escape_text.
  rewrite contains_expand
    by (intros [[] [] [] [] [] [] [] []]; reflexivity).
  pose proof (H (k, v) (or_introl eq_refl)) as Hv. cbn [snd] in Hv.
  rewrite Hv. reflexivity.
Qed.

Lemma length_entries (p : payload) :
  (length p <= String.length (fold_right append "" (map xml_entry p)))%nat.
Proof.
  induction p as [|[k v] p IH]; [simpl; lia|].
  cbn [map fold_right length]. rewrite length_app. unfold xml_entry at 1.
  rewrite !length_app. cbn [String.length]. lia.
Qed.

(** Where the API key and the keys and values of the payload hold only
    characters XML allows, an API key without ampersand, less-than sign,
    carriage return and the sequence of two right brackets and [>], and
    payload values without carriage return, are read back as they were
    given, and so are the keys of the payload. *)
Lemma event_read_back apikey (p : payload) :
  Reader.legal apikey = true ->
  Str.contains Chr.amp apikey = false ->
  Str.contains Chr.lt apikey = false ->
  holds_section_end apikey = false ->
  Str.contains Chr.cr apikey = false ->
  (forall kv, In kv p ->
     Reader.legal (fst kv) = true /\ Reader.legal (snd kv) = true) ->
  (forall kv, In kv p -> Str.contains Chr.cr (snd kv) = false) ->
  Reader.read_event (create_xml apikey p) = Some (apikey, p).
Proof.
  intros Hlegal Ha Hl Hg Hr Hlp Hp. unfold Reader.read_event.
  rewrite (legal_create_xml apikey p Hlegal Hlp). cbn [negb].
  rewrite create_xml_shape.
  unfold Reader.newlines. rewrite newlines_id.
  2: { rewrite !contains_app, Hr, (contains_entries_cr p Hp). reflexivity. }
  cbv zeta.
  set (fuel := S (String.length _)).
  unfold Reader.strip at 1. rewrite strip_prefix_app.
  rewrite !append_assoc.
  unfold Reader.strip at 1. rewrite strip_prefix_app.
  assert (Hk : (String.length apikey < fuel)%nat).
  { unfold fuel. rewrite !length_app. lia. }
  assert (Hn : (length p < fuel)%nat).
  { unfold fuel. rewrite !length_app. pose proof (length_entries p). lia. }
  clearbody fuel.
  change ("</apiKey><payload>" ++ ?x) with (String Chr.lt ("/apiKey><payload>" ++ x)).
  rewrite (chardata_plain apikey fuel _ Ha Hl Hg Hk).
  change (String Chr.lt ("/apiKey><payload>" ++ ?x))
    with ("</apiKey><payload>" ++ x).
  unfold Reader.strip at 1. rewrite strip_prefix_app.
  pose proof (entries_escaped p fuel "</event>" Hn) as He.
  cbn [append] in He. rewrite He. reflexivity.
Qed.

End WholeDocument.

(** ** Deciding the side conditions *)

Fixpoint distinct (l : list string) : bool :=
  match l with
  | [] => true
  | x :: l' => negb (existsb (String.eqb x) l') && distinct l'
  end.

Definition well_formedb (d : dir) : bool :=
  distinct (map fst d)
  && forallb (fun e => negb (Str.contains "/" (fst e))) d.

Definition decodableb (d : dir) : bool :=
  forallb (fun e => implb (permanent e) (Str.utf8_valid (f_bytes (snd e)))) d.

Lemma distinct_nodup l : distinct l = true -> NoDup l.
Proof.
  induction l as [|x l IH]; simpl; [constructor|].
  intros H. apply andb_prop in H as [Hx Hl].
  constructor; [|now apply IH].
  intros Hin. apply negb_true_iff in Hx.
  assert (existsb (String.eqb x) l = true); [|congruence].
  apply existsb_exists. exists x. split; [exact Hin|apply String.eqb_refl].
Qed.

Lemma well_formedb_ok d : well_formedb d = true -> well_formed d.
Proof.
  unfold well_formedb, well_formed. intros H.
  apply andb_prop in H as [Hd Hs]. split; [now apply distinct_nodup|].
  rewrite forallb_forall in Hs. intros e He.
  now apply negb_true_iff, Hs.
Qed.

Lemma decodableb_ok d : decodableb d = true -> decodable d.
Proof.
  unfold decodableb, decodable. rewrite forallb_forall.
  intros H e He Hp. specialize (H e He). now rewrite Hp in H.
Qed.

Definition nameableb (directory : string) (w : world) : bool :=
  forallb (fun e =>
             implb (permanent e)
                   (speaks w "INFO" (MSending (Str.join directory (fst e)))))
          (w_dir w).

Lemma nameableb_ok directory w :
  nameableb directory w = true -> nameable directory w.
Proof.
  unfold nameableb, nameable. rewrite forallb_forall.
  intros H e He Hp. specialize (H e He). now rewrite Hp in H.
Qed.

(** * Worked cases *)

Module Cases.

Definition endpoint : string := "https://api.ilert.com".
Definition directory : string := "/tmp/ilert-icinga".
Definition port : Z := 443.
Definition url : string := "https://api.ilert.com:443/api/v1/events/icinga".

Definition a : string := "/tmp/ilert-icinga/a.ilert".
Definition b : string := "/tmp/ilert-icinga/b.ilert".
Definition c : string := "/tmp/ilert-icinga/c.ilert".

(** The service accepts the first request, cannot be reached for the
    second, and rejects what comes after. *)
Definition service (n : nat) (rq : request) : wire :=
  match n with
  | O => Response 200 "OK" ""
  | S O => Unreachable "Connection refused"
  | _ => Response 404 "Not Found" "unknown key"
  end.

Definition always_ok (n : nat) (rq : request) : wire := Response 200 "OK" "".

Definition file_a : file := mkfile "<event>a</event>" 3.
Definition file_b : file := mkfile "<event>b</event>" 5.
Definition file_c : file := mkfile "<event>c</event>" 7.
Definition file_d : file := mkfile "<event>d</event>" 9.

Definition queue : dir :=
  [("b.ilert", file_b); ("lockfile", mkfile "" 0); ("a.ilert", file_a);
   ("c.ilert", file_c); ("9f0c.tmp", mkfile "<eve" 8)].

Definition calm : world :=
  mkworld queue [] service 0 [] 100 None LockClosed None false.

(** The next call finds what was kept, and a newer event. *)
Definition later : world :=
  mkworld [("d.ilert", file_d); ("lockfile", mkfile "" 100);
           ("b.ilert", file_b); ("9f0c.tmp", mkfile "<eve" 8)]
          [] always_ok 0 [] 200 None LockClosed None false.

(** Another process removes [a.ilert] right after the listing. *)
Definition raced_at_sort : world :=
  mkworld queue [[]; [XRemove "a.ilert"]] service 0 [] 100 None LockClosed None false.

(** Another process removes [a.ilert] while its request is under way: the
    calls before are the listing, two modification times and the reading. *)
Definition raced_at_send : world :=
  mkworld [("a.ilert", file_a); ("b.ilert", file_b)]
          [[]; []; []; []; [XRemove "a.ilert"]]
          always_ok 0 [] 100 None LockClosed None false.

(** The oldest event file holds a byte that is no UTF-8. *)
Definition undecodable : world :=
  mkworld [("a.ilert", mkfile (String (ascii_of_nat 255) "") 3);
           ("b.ilert", file_b)]
          [] always_ok 0 [] 100 None LockClosed None false.

(** The service rejects the event, and the connection breaks before the
    body of its answer has arrived. *)
Definition cut_off : world :=
  mkworld [("a.ilert", file_a); ("b.ilert", file_b)] []
          (fun _ _ => Cut 404 "Not Found"
                          (OtherError "IncompleteRead(0 bytes read)"))
          0 [] 100 None LockClosed None false.







Definition event_payload : payload :=
  [("HOSTNAME", "web<1>"); ("STATE", "DOWN & out")].

End Cases.

Import Cases.

(** C1.  The statement fails on the code where the deletion or the reading of
    the answer fails.  In the first case the service accepts [a.ilert] with
    200 and another process has removed the file meanwhile: [os.remove]
    raises outside every handler, nothing is logged for the event and
    [flush] ends.  In the second case the service rejects [a.ilert] with 404
    and the body of its answer does not arrive: [e.read()] raises inside the
    handler, before the warning and before [os.remove], so the file the
    table deletes is kept, nothing is logged for it and [flush] ends.  (A
    turn that is completed follows the table, and nothing is deleted without
    its licence: [flush_event_completed], [flush_licensed].) *)
Theorem flush_departs_from_table :
  (let x := flush endpoint directory port raced_at_send in
   let answer := Response 200 "OK" "" in
   effects x
   = [EOpen a; ELog (Syslog LOG_INFO) "INFO" (MSending a);
      ESend a (mkrequest url "<event>a</event>" headers) answer; ERemove a]
   /\ table answer = (Delete, LogInfo)
   /\ result x = Raised (OSError a))
  /\ (let x := flush endpoint directory port cut_off in
      let answer :=
        Cut 404 "Not Found" (OtherError "IncompleteRead(0 bytes read)") in
      effects x
      = [EOpen a; ELog (Syslog LOG_INFO) "INFO" (MSending a);
         ESend a (mkrequest url "<event>a</event>" headers) answer]
      /\ table answer = (Delete, LogWarning)
      /\ result x = Raised (OtherError "IncompleteRead(0 bytes read)")
      /\ w_dir (after x) = w_dir cut_off).
Proof. vm_compute. repeat split. Qed.

(** C3.  The statement fails on the code.  Two event files are queued and the
    service accepts everything.  In the first case another process removes
    [a.ilert] while its request is under way: [os.remove] raises, outside
    every handler, [flush] ends with that [OSError], and [b.ilert] is never
    opened.  In the second case [a.ilert] does not hold UTF-8: reading it
    raises [UnicodeDecodeError], which [except IOError] does not catch, and
    [b.ilert] is never opened either. *)
Theorem flush_aborted_by_one_event :
  (let x := flush endpoint directory port raced_at_send in
   result x = Raised (OSError a)
   /\ opened (effects x) = [a]
   /\ In ("b.ilert", file_b) (w_dir (after x)))
  /\ (let x := flush endpoint directory port undecodable in
      result x = Raised UnicodeDecodeError
      /\ opened (effects x) = [a]
      /\ sends (effects x) = []).
Proof. vm_compute. repeat split; auto. Qed.

(** C6.  The statement fails on the code for a read that fails in decoding: the
    file is there, its bytes are no UTF-8, [f.read()] raises
    [UnicodeDecodeError], a [ValueError] and no [IOError]; [flush] ends with
    it and the next file is not taken up.  (A file that is missing is
    skipped: [flush_event_skips_missing].) *)
Theorem flush_aborts_on_undecodable_file :
  let x := flush endpoint directory port undecodable in
  result x = Raised UnicodeDecodeError
  /\ effects x = [EOpen a]
  /\ w_dir (after x) = w_dir undecodable.
Proof. vm_compute. repeat split. Qed.

(** C7.  The statement fails on the code for the API key: [create_xml] escapes
    the keys and values of the payload and puts the API key into the
    document as it is.  A key with an ampersand reference in it is read back
    as another key, and a key with [<] in it gives no document at all; the
    payload, which is escaped, is read back as it was (in general:
    [event_read_back]). *)
Theorem create_xml_leaves_apikey_unescaped :
  Reader.read_event (create_xml "k&amp;1" event_payload)
  = Some ("k&1", event_payload)
  /\ Reader.read_event (create_xml "k<1" event_payload) = None
  /\ Reader.read_event (create_xml "k1" event_payload)
     = Some ("k1", event_payload).
Proof. vm_compute. repeat split. Qed.



(** ** The theorems at work *)

(** C2 with no fault: the event file is published whole. *)
Lemma persist_publishes_atomically_witness :
  quiet calm
  /\ result (persist_event "key" directory event_payload "9f0c" calm) = Ok tt
  /\ In ("9f0c.ilert", mkfile (create_xml "key" event_payload) 100)
        (w_dir (after (persist_event "key" directory event_payload "9f0c" calm))).
Proof.
  split; [reflexivity|].
  pose proof (persist_publishes_atomically "key" directory event_payload "9f0c"
                calm eq_refl) as H.
  cbv zeta in H. destruct H as (_ & H2 & _ & _ & H5 & _).
  split; [apply H2; reflexivity | apply H5; reflexivity].
Defined.


(** C5 on a run in which [flush] raises. *)
Lemma lock_released_on_every_exit_path_witness :
  w_lock undecodable = LockClosed
  /\ w_lock (after ((open_lockfile directory (directory ++ "/lockfile") ;;
                     flock_ex) undecodable)) = LockHeld
  /\ result (lock_and_flush endpoint directory port undecodable)
     = Raised UnicodeDecodeError
  /\ w_lock (after (lock_and_flush endpoint directory port undecodable))
     = LockClosed.
Proof.
  split; [reflexivity|]. split; [reflexivity|]. split; [reflexivity|].
  exact (lock_released_on_every_exit_path endpoint directory port undecodable
           eq_refl).
Defined.


(** C9: [a.ilert] is listed and gone when its time is looked up. *)
Lemma flush_aborts_when_listed_file_vanishes_witness :
  In "a.ilert" (map fst (w_dir (tick raced_at_sort)))
  /\ Str.endswith "a.ilert" permanent_suffix = true
  /\ lookup directory (Str.join directory "a.ilert")
            (w_dir (tick (tick raced_at_sort))) = None
  /\ quiet (tick (tick raced_at_sort))
  /\ result (flush endpoint directory port raced_at_sort) = Raised (OSError a)
  /\ effects (flush endpoint directory port raced_at_sort) = [].
Proof.
  assert (Hin : In "a.ilert" (map fst (w_dir (tick raced_at_sort))))
    by (vm_compute; auto).
  pose proof (flush_aborts_when_listed_file_vanishes endpoint directory port
                raced_at_sort "a.ilert" Hin eq_refl eq_refl eq_refl) as H.
  cbv zeta in H. destruct H as (_ & H2 & _).
  split; [exact Hin|]. split; [reflexivity|]. split; [reflexivity|].
  split; [reflexivity|]. split; [reflexivity | exact H2].
Defined.

(** C10 on [calm]: the lock file and the temporary file stay. *)
Lemma flush_touches_only_event_files_witness :
  quiet calm
  /\ filter (fun e => negb (permanent e))
            (w_dir (after (flush endpoint directory port calm)))
     = [("lockfile", mkfile "" 0); ("9f0c.tmp", mkfile "<eve" 8)]
  /\ filter (fun e => negb (permanent e))
            (w_dir (after (flush endpoint directory port calm)))
     = filter (fun e => negb (permanent e)) (w_dir calm).
Proof.
  split; [reflexivity|]. split; [reflexivity|].
  exact (proj2 (flush_touches_only_event_files endpoint directory port
                  calm calm eq_refl)).
Defined.

(** * Further properties of the program *)

(** ** The selection and the order of [flush] *)

Section Selection.

Variable directory : string.

Lemma selected_names (names : list string) :
  filter (fun x => Str.endswith x ".ilert")
         (map (fun f => Str.join directory f) names)
  = map (fun f => Str.join directory f)
        (filter (fun n => Str.endswith n ".ilert") names).
Proof.
  induction names as [|n l IH]; simpl; [reflexivity|].
  pose proof (join_endswith directory n) as E. unfold permanent_suffix in E.
  rewrite E. destruct (Str.endswith n ".ilert"); simpl; now rewrite IH.
Qed.

(** X1.  The filter of [flush] tests the joined path: for every directory
    string and every listing it keeps exactly the entries whose own names end
    with [.ilert], whatever the directory is called. *)
Theorem filter_on_paths_is_filter_on_names (names : list string) :
  filter (fun x => Str.endswith x ".ilert")
         (map (fun f => Str.join directory f) names)
  = map (fun f => Str.join directory f)
        (filter (fun n => Str.endswith n ".ilert") names).
Proof. apply selected_names. Qed.

(** X2.  The sort of [flush] is stable: with no other process about, the
    event files that share a modification time are taken up in the order in
    which [os.listdir] gave them. *)
Theorem equal_mtimes_keep_listing_order w t :
  quiet w ->
  exists events,
    result (pending directory w) = Ok events
    /\ filter (fun p => mtime_of directory (w_dir w) p =? t) events
       = filter (fun p => mtime_of directory (w_dir w) p =? t)
                (filter (fun x => Str.endswith x ".ilert")
                        (map (fun f => Str.join directory f)
                             (map fst (w_dir w)))).
Proof.
  intros Q. rewrite (pending_quiet directory w Q).
  eexists. split; [reflexivity|]. apply by_key_filter.
Qed.

End Selection.

(** ** What a whole [flush] does to the queue *)

Section Queue.

Variables (endpoint directory : string) (port : Z).

Let url : string :=
  endpoint ++ ":" ++ Str.of_int port ++ "/api/v1/events/icinga".

Lemma flush_nothing_selected w :
  (forall name, In name (map fst (w_dir (tick w))) ->
                Str.endswith name ".ilert" = false) ->
  flush endpoint directory port w = (Ok tt, tick w, []).
Proof.
  intros H.
  assert (E : filter (fun n => Str.endswith n ".ilert")
                     (map fst (w_dir (tick w))) = []).
  { induction (map fst (w_dir (tick w))) as [|n l IH]; [reflexivity|].
    cbn [filter]. rewrite (H n (or_introl eq_refl)).
    apply IH. intros m Hm. apply H. now right. }
  unfold flush, pending. rewrite !bind_run. unfold listdir.
  cbv beta iota zeta.
  rewrite (selected_names directory), E. reflexivity.
Qed.

(** X3.  In any world, whatever other processes do: when no entry of the
    listing has a name ending with [.ilert], [flush] makes one call, the
    listing, and returns; it opens, sends, removes and logs nothing. *)
Theorem flush_without_event_files_is_a_no_op w :
  (forall name, In name (map fst (w_dir (tick w))) ->
                Str.endswith name ".ilert" = false) ->
  flush endpoint directory port w = (Ok tt, tick w, []).
Proof. apply flush_nothing_selected. Qed.


Lemma remove_first_kept (p : string * file -> bool) (d : dir) e :
  In e d -> In e (remove_first p d) \/ p e = true.
Proof.
  induction d as [|x d IH]; [intros []|].
  cbn [remove_first]. destruct (p x) eqn:Px.
  - intros [<-|H]; auto.
  - intros [<-|H]; [left; now left|].
    destruct (IH H) as [H'|H']; [left; now right | now right].
Qed.

Lemma for_each_loses_nothing l : forall w,
  quiet w ->
  let x := for_each l (flush_event directory url) w in
  forall e, In e (w_dir w) ->
    In e (w_dir (after x))
    \/ exists rq n,
         In (ESend (Str.join directory (fst e)) rq (w_net w n rq)) (effects x)
         /\ deleting (w_net w n rq) = true.
Proof.
  induction l as [|p l IH]; intros w Q; cbv zeta; [now left|].
  rewrite for_each_cons.
  pose proof (flush_event_frame directory url p w Q) as (S1 & Hd).
  unfold gone in Hd. cbn [w_dir with_dir] in Hd.
  destruct (flush_event directory url p w) as [[[[]|ex] w1] t1];
    unfold after, effects in *; cbn [fst snd] in *; intros e He.
  - assert (Q1 := stays_quiet _ _ S1 Q). destruct S1 as (_ & Hnet & _).
    assert (Hstep : In e (w_dir w1)
               \/ exists rq n,
                    In (ESend (Str.join directory (fst e)) rq (w_net w n rq)) t1
                    /\ deleting (w_net w n rq) = true).
    { destruct Hd as [Hd|[Hd [rq [Hin Hdel]]]]; [left; now rewrite Hd|].
      rewrite Hd.
      destruct (remove_first_kept (denotes directory p) (w_dir w) e He)
        as [Hk|Hk]; [now left|].
      right. apply denotes_spec in Hk. rewrite Hk. now exists rq, (w_nreq w). }
    specialize (IH w1 Q1). cbv zeta in IH.
    destruct (for_each l _ w1) as [[r w2] t2]. cbn [fst snd] in *.
    destruct Hstep as [Hin|[rq [n [Hin Hdel]]]].
    + destruct (IH e Hin) as [Hk|[rq [n [Hs Hdel]]]]; [now left|].
      right. exists rq, n. rewrite <- Hnet. split; [|exact Hdel].
      apply in_or_app. now right.
    + right. exists rq, n. split; [|exact Hdel]. apply in_or_app. now left.
  - destruct Hd as [Hd|[Hd [rq [Hin Hdel]]]]; [left; now rewrite Hd|].
    rewrite Hd.
    destruct (remove_first_kept (denotes directory p) (w_dir w) e He)
      as [Hk|Hk]; [now left|].
    right. apply denotes_spec in Hk. rewrite Hk. now exists rq, (w_nreq w).
Qed.

(** X5.  With no other process about, [flush] loses no event: an entry of
    the directory that is not there afterwards was sent in this call, and the
    answer was 2xx or a 4xx other than 429. *)
Theorem flush_loses_no_event w e :
  quiet w ->
  In e (w_dir w) ->
  In e (w_dir (after (flush endpoint directory port w)))
  \/ exists rq n,
       In (ESend (Str.join directory (fst e)) rq (w_net w n rq))
          (effects (flush endpoint directory port w))
       /\ fst (table (w_net w n rq)) = Delete.
Proof.
  intros Q He. rewrite flush_run. cbv zeta.
  rewrite (pending_quiet directory w Q).
  destruct (for_each_loses_nothing
              (by_key (mtime_of directory (w_dir w))
                      (selected directory (w_dir w))) w Q e He)
    as [H|[rq [n [H Hd]]]]; [now left|].
  right. exists rq, n. split; [exact H|].
  unfold deleting in Hd. now destruct (fst (table (w_net w n rq))).
Qed.


Lemma for_each_keeps_all l : forall w,
  quiet w ->
  (forall n rq, deleting (w_net w n rq) = false) ->
  w_dir (after (for_each l (flush_event directory url) w)) = w_dir w.
Proof.
  induction l as [|p l IH]; intros w Q Hnone; [reflexivity|].
  rewrite for_each_cons.
  pose proof (flush_event_frame directory url p w Q) as (S1 & Hd).
  assert (Hsame : w_dir (after (flush_event directory url p w)) = w_dir w).
  { destruct Hd as [Hd|[_ [rq [_ Hdel]]]]; [exact Hd|].
    rewrite Hnone in Hdel. discriminate. }
  clear Hd.
  destruct (flush_event directory url p w) as [[[[]|ex] w1] t1];
    unfold after in *; cbn [fst snd] in *; [|exact Hsame].
  assert (Q1 := stays_quiet _ _ S1 Q). destruct S1 as (_ & Hnet & _).
  specialize (IH w1 Q1). rewrite Hnet in IH. specialize (IH Hnone).
  destruct (for_each l _ w1) as [[r w2] t2]. cbn [fst snd] in *. congruence.
Qed.

(** X6.  With no other process about, when the service accepts nothing and
    rejects nothing for good (every answer is a 429, a status outside 2xx and
    4xx, or a failure), [flush] leaves the directory exactly as it was: every
    event stays queued for the next call. *)
Theorem flush_keeps_queue_when_nothing_is_settled w :
  quiet w ->
  (forall n rq, fst (table (w_net w n rq)) = Keep) ->
  w_dir (after (flush endpoint directory port w)) = w_dir w.
Proof.
  intros Q Hkeep. rewrite flush_run. cbv zeta.
  rewrite (pending_quiet directory w Q).
  apply for_each_keeps_all; [exact Q|].
  intros n rq. unfold deleting. now rewrite Hkeep.
Qed.

Definition distinct_paths (d : dir) : Prop :=
  NoDup (map (fun e => Str.join directory (fst e)) d).

Lemma well_formed_distinct_paths d : well_formed d -> distinct_paths d.
Proof.
  intros [Hnd Hslash]. unfold distinct_paths.
  rewrite <- (map_map fst (fun n => Str.join directory n)).
  apply NoDup_map_NoDup_ForallPairs; [|exact Hnd].
  intros x y Hx Hy.
  apply in_map_iff in Hx as [ex [<- Hex]], Hy as [ey [<- Hey]].
  apply join_injective; auto.
Qed.

Lemma remove_first_distinct_paths p d :
  distinct_paths d -> distinct_paths (remove_first p d).
Proof.
  unfold distinct_paths. induction d as [|e d IH]; [auto|].
  cbn [remove_first map]. intros H. inversion H as [|? ? Hn Hd]; subst.
  destruct (p e); [exact Hd|]. cbn [map]. constructor; [|now apply IH].
  intros Hin. apply Hn. apply in_map_iff in Hin as [x [Hx Hin]].
  apply in_map_iff. exists x. split; [exact Hx|].
  now apply remove_first_in in Hin.
Qed.

Lemma lookup_removed path d :
  distinct_paths d ->
  lookup directory path (remove_first (denotes directory path) d) = None.
Proof.
  unfold distinct_paths, lookup.
  induction d as [|e d IH]; [reflexivity|].
  cbn [remove_first map]. intros H. inversion H as [|? ? Hn Hd]; subst.
  destruct (denotes directory path e) eqn:De.
  - apply denotes_spec in De.
    destruct (find (denotes directory path) d) as [x|] eqn:F; [|reflexivity].
    apply find_some in F as [Hin Hx]. apply denotes_spec in Hx.
    exfalso. apply Hn. apply in_map_iff. exists x. split; [congruence|exact Hin].
  - cbn [find]. rewrite De. now apply IH.
Qed.

Lemma lookup_none_kept path (d d' : dir) :
  (forall e, In e d' -> In e d) ->
  lookup directory path d = None -> lookup directory path d' = None.
Proof.
  intros Hsub Hnone. unfold lookup in *.
  destruct (find (denotes directory path) d') as [x|] eqn:F; [|reflexivity].
  apply find_some in F as [Hin Hx].
  pose proof (find_none _ _ Hnone x (Hsub x Hin)) as H. congruence.
Qed.

Lemma for_each_settles_all l : forall w,
  quiet w -> w_faults w = [] -> NoDup l -> distinct_paths (w_dir w) ->
  (forall p, In p l -> exists e,
      lookup directory p (w_dir w) = Some e
      /\ Str.utf8_valid (f_bytes (snd e)) = true) ->
  (forall p, In p l -> speaks w "INFO" (MSending p) = true) ->
  (forall n rq, plain w (w_net w n rq) = true) ->
  (forall n rq, deleting (w_net w n rq) = true) ->
  forall p, In p l ->
    lookup directory p
      (w_dir (after (for_each l (flush_event directory url) w))) = None.
Proof.
  induction l as [|q l IH]; intros w Q F Hnd Hdp Hl Hsp Hpl Hall p Hp;
    [destruct Hp|].
  rewrite for_each_cons.
  destruct (Hl q (or_introl eq_refl)) as (e & Le & Ve).
  destruct (flush_event_quiet directory url q w e Q F Le Ve
              (Hsp q (or_introl eq_refl)) (Hpl _ _)) as (t & -> & _ & _).
  rewrite Hall. inversion Hnd as [|? ? Hnotin Hnd']; subst.
  set (w1 := gone directory q (with_nreq (S (w_nreq w)) w)).
  assert (Q1 : quiet w1) by exact Q.
  assert (F1 : w_faults w1 = []) by exact F.
  assert (Hdp1 : distinct_paths (w_dir w1))
    by (apply remove_first_distinct_paths; exact Hdp).
  assert (Hsame : forall r, In r l ->
            lookup directory r (w_dir w1) = lookup directory r (w_dir w)).
  { intros r Hr. apply lookup_remove_other. intros ->. contradiction. }
  assert (Hl1 : forall r, In r l -> exists e0,
             lookup directory r (w_dir w1) = Some e0
             /\ Str.utf8_valid (f_bytes (snd e0)) = true).
  { intros r Hr. rewrite (Hsame r Hr). apply Hl. now right. }
  assert (Hsp1 : forall r, In r l -> speaks w1 "INFO" (MSending r) = true).
  { intros r Hr. apply (Hsp r). now right. }
  pose proof (IH w1 Q1 F1 Hnd' Hdp1 Hl1 Hsp1 Hpl Hall) as IH'.
  pose proof (for_each_frame directory url l w1 Q1) as (_ & Hsub & _).
  destruct (for_each l _ w1) as [[r w2] t2].
  unfold after in *. cbn [fst snd] in *.
  destruct Hp as [<-|Hp]; [|now apply IH'].
  apply (lookup_none_kept q (w_dir w1) (w_dir w2) Hsub).
  apply lookup_removed. exact Hdp.
Qed.

Lemma filter_nil {A} (q : A -> bool) l :
  (forall x, In x l -> q x = false) -> filter q l = [].
Proof.
  induction l as [|x l IH]; intros H; [reflexivity|].
  cbn [filter]. rewrite (H x (or_introl eq_refl)).
  apply IH. intros y Hy. apply H. now right.
Qed.

(** X7.  With no other process about, no system call failing, distinct
    slash-free names, UTF-8 text in every event file, paths that can be
    logged and answers whose bodies can be read: when the service settles
    every request (2xx, or 4xx other than 429), [flush] returns with no
    event file left in the directory, and a [flush] called right after does
    nothing at all. *)
Theorem flush_empties_queue_when_all_is_settled w :
  quiet w -> w_faults w = [] ->
  well_formed (w_dir w) -> decodable (w_dir w) ->
  nameable directory w -> readable w ->
  (forall n rq, fst (table (w_net w n rq)) = Delete) ->
  let w' := after (flush endpoint directory port w) in
  result (flush endpoint directory port w) = Ok tt
  /\ filter permanent (w_dir w') = []
  /\ flush endpoint directory port w' = (Ok tt, w', []).
Proof.
  intros Q F Hwf Hdec Hn Hrd Hall. cbv zeta.
  destruct (flush_quiet endpoint directory port w Q F Hwf Hdec Hn Hrd)
    as (Hr & _ & _).
  split; [exact Hr|].
  assert (Hperm : forall e,
            In e (w_dir (after (flush endpoint directory port w))) ->
            permanent e = false).
  { rewrite flush_run. cbv zeta. rewrite (pending_quiet directory w Q).
    set (events := by_key _ _).
    pose proof (for_each_frame directory url events w Q) as (_ & Hsub & _).
    assert (Hsel : forall p, In p events ->
              exists x, lookup directory p (w_dir w) = Some x
                        /\ In x (w_dir w) /\ permanent x = true
                        /\ p = Str.join directory (fst x)).
    { intros p Hp. eapply Permutation_in in Hp; [|apply by_key_perm].
      apply selected_in in Hp as [name [Hin [-> Hend]]].
      destruct (lookup directory (Str.join directory name) (w_dir w))
        as [x|] eqn:E;
        [|exfalso; exact (lookup_listed directory _ _ Hin E)].
      exists x. split; [reflexivity|].
      apply lookup_some in E as [Hx Hj]. split; [exact Hx|].
      split; [|now symmetry].
      unfold permanent. pose proof (join_endswith directory (fst x)) as J.
      pose proof (join_endswith directory name) as J'.
      unfold permanent_suffix in *. congruence. }
    intros e He. destruct (permanent e) eqn:Pe; [|reflexivity]. exfalso.
    assert (Hev : In (Str.join directory (fst e)) events).
    { eapply Permutation_in; [symmetry; apply by_key_perm|].
      rewrite selected_spec. apply in_map, filter_In.
      split; [|exact Pe]. apply in_map. now apply Hsub. }
    assert (Hnone : lookup directory (Str.join directory (fst e))
                      (w_dir (after (for_each events
                                       (flush_event directory url) w))) = None).
    { apply for_each_settles_all;
        [exact Q | exact F | | | | | exact Hrd | | exact Hev].
      - eapply Permutation_NoDup; [symmetry; apply by_key_perm|].
        now apply selected_nodup.
      - now apply well_formed_distinct_paths.
      - intros p Hp. destruct (Hsel p Hp) as (x & L & Hx & Px & _).
        exists x. split; [exact L|]. now apply Hdec.
      - intros p Hp. destruct (Hsel p Hp) as (x & _ & Hx & Px & ->).
        now apply Hn.
      - intros n rq. unfold deleting. now rewrite Hall. }
    unfold lookup in Hnone. pose proof (find_none _ _ Hnone e He) as H.
    unfold denotes in H. now rewrite String.eqb_refl in H. }
  split; [now apply filter_nil|].
  assert (Q' : quiet (after (flush endpoint directory port w))).
  { rewrite flush_run. cbv zeta. rewrite (pending_quiet directory w Q).
    eapply stays_quiet; [|exact Q]. now apply for_each_frame. }
  rewrite flush_nothing_selected; rewrite (tick_quiet _ Q'); [reflexivity|].
  intros name Hin. apply in_map_iff in Hin as [e [<- He]].
  exact (Hperm e He).
Qed.

End Queue.

(** ** The table, turn by turn *)

Section Table.

Variables (endpoint directory : string) (port : Z).

Let url : string :=
  endpoint ++ ":" ++ Str.of_int port ++ "/api/v1/events/icinga".




End Table.

(** ** Taking the lock *)

(** The world in which [lock_and_flush] calls [flush]: the lock file created
    or truncated, two verdicts used, the lock held. *)
Definition holding (w : world) : world :=
  let w := snd (verdict (tick w)) in
  let w := with_dir (put "lockfile" (mkfile "" (w_clock w)) (w_dir w)) w in
  with_lock LockHeld (snd (verdict w)).

Section Locking.

Variables (endpoint directory : string) (port : Z).

Lemma verdict_clean w k :
  clean (S k) (w_faults w) = true ->
  fst (verdict w) = NoFault /\ clean k (w_faults (snd (verdict w))) = true.
Proof.
  unfold verdict, clean. destruct (w_faults w) as [|[| |n] l] eqn:F;
    cbn [firstn forallb fst snd w_faults with_faults andb];
    try discriminate; rewrite ?F; auto.
  now destruct k.
Qed.

Lemma verdict_dir w : w_dir (snd (verdict w)) = w_dir w.
Proof. unfold verdict. now destruct (w_faults w). Qed.

Lemma verdict_others w : w_others (snd (verdict w)) = w_others w.
Proof. unfold verdict. now destruct (w_faults w). Qed.

Lemma tick_faults w : w_faults (tick w) = w_faults w.
Proof. unfold tick. now destruct (w_others w). Qed.

Lemma lock_and_flush_run w :
  clean 2 (w_faults w) = true ->
  let y := flush endpoint directory port (holding w) in
  lock_and_flush endpoint directory port w
  = (result y, with_lock LockClosed (after y), effects y).
Proof.
  intros Hc. cbv zeta. unfold lock_and_flush, holding.
  rewrite bind_run. unfold open_lockfile.
  change (directory ++ "/lockfile") with (directory ++ "/" ++ "lockfile").
  rewrite name_of_path.
  rewrite <- tick_faults in Hc.
  destruct (verdict_clean _ _ Hc) as [Hv Hc1].
  destruct (verdict (tick w)) as [v w2]. cbn [fst snd] in *. subst v.
  unfold try_finally. rewrite bind_run. unfold flock_ex at 1.
  set (w3 := with_dir _ w2).
  assert (Hc3 : clean 1 (w_faults (with_lock LockOpen w3)) = true) by exact Hc1.
  destruct (verdict_clean _ _ Hc3) as [Hv3 _].
  assert (E : with_lock LockHeld (snd (verdict (with_lock LockOpen w3)))
              = with_lock LockHeld (snd (verdict w3))).
  { unfold verdict. cbn [w_faults with_lock].
    now destruct (w_faults w3). }
  destruct (verdict (with_lock LockOpen w3)) as [v4 w4].
  cbn [fst snd] in *. subst v4. rewrite E.
  destruct (flush endpoint directory port _) as [[r w5] t5].
  unfold close_lockfile, result, after, effects. cbn [fst snd app].
  now rewrite app_nil_r.
Qed.

(** X8.  Once the lock file is open and the lock taken (the two verdicts of
    the operating system are good), [lock_and_flush] does what [flush] does
    in a world where the lock is held, and nothing else: same result, same
    effects, and the descriptor closed at the end.  The event files [flush]
    starts from are those of the directory; the lock file is created or
    emptied. *)
Theorem lock_and_flush_is_flush_under_the_lock w :
  clean 2 (w_faults w) = true ->
  let y := flush endpoint directory port (holding w) in
  lock_and_flush endpoint directory port w
  = (result y, with_lock LockClosed (after y), effects y)
  /\ w_lock (holding w) = LockHeld
  /\ w_lock (after y) = LockHeld
  /\ filter permanent (w_dir (holding w)) = filter permanent (w_dir (tick w)).
Proof.
  intros Hc. cbv zeta. split; [now apply lock_and_flush_run|].
  split; [reflexivity|]. split; [now rewrite flush_keeps_lock|].
  unfold holding. cbn [w_dir with_lock]. rewrite verdict_dir.
  cbn [w_dir with_dir]. rewrite verdict_dir. now apply filter_put.
Qed.

(** X9.  When the lock file cannot be opened or the lock not taken,
    [lock_and_flush] leaves by an [OSError], having read, sent and removed
    nothing; the event files are what the other processes made of them, and
    the process holds no lock it did not hold. *)
Theorem lock_and_flush_gives_up_without_the_lock w :
  clean 2 (w_faults w) = false ->
  let x := lock_and_flush endpoint directory port w in
  (exists path, result x = Raised (OSError path))
  /\ effects x = []
  /\ filter permanent (w_dir (after x)) = filter permanent (w_dir (tick w)).
Proof.
  intros Hc. cbv zeta. unfold lock_and_flush.
  rewrite bind_run. unfold open_lockfile.
  change (directory ++ "/lockfile") with (directory ++ "/" ++ "lockfile").
  rewrite name_of_path.
  rewrite <- tick_faults in Hc.
  unfold verdict.
  destruct (w_faults (tick w)) as [|v l] eqn:F; [discriminate|].
  destruct v; cbn [fst snd];
    try (unfold result, effects, after; cbn [fst snd w_dir with_faults];
         split; [eexists; reflexivity|split; reflexivity]).
  unfold try_finally. rewrite bind_run. unfold flock_ex, verdict.
  cbn [w_faults with_lock with_dir with_faults].
  unfold clean in Hc. cbn [firstn forallb andb] in Hc.
  destruct l as [|v' l']; [discriminate|].
  destruct v'; [cbn in Hc; destruct l'; discriminate|..];
    unfold close_lockfile, result, effects, after; cbn [fst snd];
    (split; [eexists; reflexivity|split; [reflexivity|]]);
    cbn [w_dir with_lock with_dir with_faults];
    now apply filter_put.
Qed.

End Locking.

(** ** From [persist_event] to [flush] *)

(** No other process about and no fault to come. *)
Definition undisturbed (w : world) : Prop :=
  quiet w /\ w_faults w = [].

Section DirectorySteps.

Lemma put_names_nodup name f (d : dir) :
  NoDup (map fst d) -> NoDup (map fst (put name f d)).
Proof.
  induction d as [|e d IH]; cbn [put map]; intros H.
  - constructor; [intros []|constructor].
  - inversion H as [|? ? Hn Hd]; subst.
    destruct (has_name name e) eqn:E; cbn [map fst].
    + unfold has_name in E. apply String.eqb_eq in E. rewrite <- E.
      now constructor.
    + constructor; [|now apply IH].
      intros Hin. apply in_map_iff in Hin as [x [Hx Hin]].
      apply in_put in Hin as [->|Hin].
      * unfold has_name in E. cbn [fst] in Hx.
        rewrite Hx, String.eqb_refl in E. discriminate.
      * apply Hn. apply in_map_iff. now exists x.
Qed.

Lemma update_names name g (d : dir) : map fst (update name g d) = map fst d.
Proof.
  induction d as [|e d IH]; cbn [update map]; [reflexivity|].
  destruct (has_name name e); cbn [map fst]; [reflexivity|now rewrite IH].
Qed.

Lemma remove_first_names_nodup q (d : dir) :
  NoDup (map fst d) -> NoDup (map fst (remove_first q d)).
Proof.
  induction d as [|e d IH]; cbn [remove_first map]; intros H; [exact H|].
  inversion H as [|? ? Hn Hd]; subst.
  destruct (q e); [exact Hd|]. cbn [map]. constructor; [|now apply IH].
  intros Hin. apply Hn. apply in_map_iff in Hin as [x [Hx Hin]].
  apply in_map_iff. exists x. split; [exact Hx|].
  now apply remove_first_in in Hin.
Qed.

Lemma put_well_formed name f (d : dir) :
  Str.contains "/" name = false -> well_formed d -> well_formed (put name f d).
Proof.
  intros Hn [Hd Hs]. split; [now apply put_names_nodup|].
  intros e He. apply in_put in He as [->|He]; [exact Hn|now apply Hs].
Qed.

Lemma update_well_formed name g (d : dir) :
  well_formed d -> well_formed (update name g d).
Proof.
  intros [Hd Hs]. split; [now rewrite update_names|].
  intros e He.
  assert (Hin : In (fst e) (map fst d)).
  { rewrite <- (update_names name g). now apply in_map. }
  apply in_map_iff in Hin as [x [Hx Hin]]. rewrite <- Hx. now apply Hs.
Qed.

Lemma remove_first_well_formed q (d : dir) :
  well_formed d -> well_formed (remove_first q d).
Proof.
  intros [Hd Hs]. split; [now apply remove_first_names_nodup|].
  intros e He. apply Hs. now apply remove_first_in in He.
Qed.

Lemma put_decodable name f (d : dir) :
  (Str.endswith name ".ilert" = true -> Str.utf8_valid (f_bytes f) = true) ->
  decodable d -> decodable (put name f d).
Proof.
  intros Hf Hd e He Hp. apply in_put in He as [->|He]; [|now apply Hd].
  now apply Hf.
Qed.

Lemma update_decodable name g (d : dir) :
  Str.endswith name ".ilert" = false ->
  decodable d -> decodable (update name g d).
Proof.
  intros Hn Hd e He Hp. apply in_update in He as [He|He]; [|now apply Hd].
  unfold permanent in Hp. congruence.
Qed.

Lemma remove_first_decodable q (d : dir) :
  decodable d -> decodable (remove_first q d).
Proof.
  intros Hd e He. apply Hd. now apply remove_first_in in He.
Qed.

End DirectorySteps.

Section Saved.

Variables (api_key directory : string) (p : payload) (uid : string).

(** The directory after a run of [persist_event] in which nothing fails. *)
Definition saved (doc : string) (c : Z) (d : dir) : dir :=
  put (uid ++ ".ilert") (mkfile doc c)
    (remove_first (has_name (uid ++ ".tmp"))
       (update (uid ++ ".tmp") (fun old => mkfile (f_bytes old ++ doc) c)
          (put (uid ++ ".tmp") (mkfile "" c) d))).

Lemma persist_event_undisturbed w :
  undisturbed w ->
  let doc := create_xml api_key p in
  Str.utf8_valid doc = true ->
  speaks w "INFO" (MCreated (directory ++ "/" ++ uid ++ ".ilert")) = true ->
  persist_event api_key directory p uid w
  = (Ok tt, with_fd None (with_dir (saved doc (w_clock w) (w_dir w)) w),
     [ELog (sink_of w "INFO") "INFO" MWriting;
      ELog (sink_of w "INFO") "INFO" (MPayload p);
      ELog (sink_of w "INFO") "INFO"
           (MCreated (directory ++ "/" ++ uid ++ ".ilert"))]).
Proof.
  intros [Q F] doc V S. rewrite persist_event_run. fold doc.
  unfold try_except, try_except_else, publish, with_open.
  rewrite bind_run. unfold open_w. rewrite (tick_quiet w Q), name_of_path.
  unfold verdict at 1. rewrite F.
  unfold try_finally. rewrite bind_run.
  unfold fwrite. rewrite V. cbn [negb].
  match goal with |- context [tick ?x] =>
    replace (tick x) with x by (symmetry; apply tick_quiet; exact Q) end.
  unfold verdict at 1. cbn [w_faults with_fd with_dir]. rewrite F.
  rewrite bind_run. unfold fflush, verdict at 1.
  cbn [w_faults with_fd with_dir]. rewrite F.
  rewrite bind_run. unfold fclose at 1. cbn [w_fd with_fd with_dir].
  unfold verdict at 1. cbn [w_faults with_fd with_dir]. rewrite F.
  rewrite bind_run. unfold os_rename. rewrite !name_of_path.
  match goal with |- context [tick ?x] =>
    replace (tick x) with x by (symmetry; apply tick_quiet; exact Q) end.
  unfold verdict at 1. cbn [w_faults with_fd with_dir]. rewrite F.
  cbn [w_dir with_fd with_dir w_clock].
  rewrite find_update, find_put. cbn [option_map fst snd f_bytes append].
  rewrite log_run.
  match goal with |- context [speaks ?x "INFO" (MCreated ?m)] =>
    replace (speaks x "INFO" (MCreated m)) with true by (symmetry; exact S)
  end.
  unfold fclose. cbn [w_fd with_fd with_dir].
  unfold ret. cbn [app]. reflexivity.
Qed.

Lemma saved_well_formed doc c d :
  Str.contains "/" uid = false -> well_formed d -> well_formed (saved doc c d).
Proof.
  intros Hu Hd. unfold saved.
  apply put_well_formed; [now rewrite contains_app, Hu|].
  apply remove_first_well_formed, update_well_formed, put_well_formed;
    [now rewrite contains_app, Hu|exact Hd].
Qed.

Lemma saved_decodable doc c d :
  Str.utf8_valid doc = true -> decodable d -> decodable (saved doc c d).
Proof.
  intros V Hd. unfold saved.
  apply put_decodable; [intros _; exact V|].
  apply remove_first_decodable, update_decodable;
    [apply tmp_not_permanent|].
  apply put_decodable; [|exact Hd].
  intros H. now rewrite tmp_not_permanent in H.
Qed.

End Saved.

Section SaveAndSend.

Variables (endpoint directory : string) (port : Z).

Let url := endpoint ++ ":" ++ Str.of_int port ++ "/api/v1/events/icinga".

Lemma put_other_in name f (d : dir) e :
  In e d -> fst e <> name -> In e (put name f d).
Proof.
  intros He Hn. induction d as [|x d IH]; [destruct He|].
  cbn [put]. destruct (has_name name x) eqn:E.
  - destruct He as [->|He]; [|now right].
    unfold has_name in E. apply String.eqb_eq in E. contradiction.
  - destruct He as [->|He]; [now left|right; now apply IH].
Qed.

Lemma holding_undisturbed w :
  undisturbed w ->
  holding w
  = with_lock LockHeld
      (with_dir (put "lockfile" (mkfile "" (w_clock w)) (w_dir w)) w).
Proof.
  intros [Q F]. unfold holding. rewrite (tick_quiet w Q).
  unfold verdict. rewrite F. cbn [snd w_faults with_dir]. rewrite F.
  reflexivity.
Qed.

Lemma sends_app t1 t2 : sends (t1 ++ t2) = (sends t1 ++ sends t2)%list.
Proof. unfold sends. apply flat_map_app. Qed.

Lemma lock_and_flush_undisturbed w :
  undisturbed w -> well_formed (w_dir w) -> decodable (w_dir w) ->
  nameable directory w -> readable w ->
  let x := lock_and_flush endpoint directory port w in
  result x = Ok tt
  /\ w_lock (after x) = LockClosed
  /\ (forall name f, In (name, f) (w_dir w) ->
       Str.endswith name ".ilert" = true ->
       In (Str.join directory name,
           mkrequest url (Str.universal_newlines false (f_bytes f)) headers)
          (sends (effects x)))
  /\ (forall e, In e (w_dir (after x)) ->
       e = ("lockfile", mkfile "" (w_clock w)) \/ In e (w_dir w)).
Proof.
  intros U Hwf Hdec Hn Hrd. cbv zeta.
  rewrite lock_and_flush_run by (destruct U as [_ ->]; reflexivity).
  rewrite (holding_undisturbed w U). destruct U as [Q F].
  set (w1 := with_lock LockHeld _).
  assert (Q1 : quiet w1) by exact Q.
  assert (F1 : w_faults w1 = []) by exact F.
  assert (Hwf1 : well_formed (w_dir w1))
    by (apply put_well_formed; [reflexivity|exact Hwf]).
  assert (Hdec1 : decodable (w_dir w1))
    by (apply put_decodable; [discriminate|exact Hdec]).
  assert (Hn1 : nameable directory w1).
  { intros e He Pe. apply in_put in He as [->|He]; [discriminate Pe|].
    exact (Hn e He Pe). }
  assert (Hrd1 : readable w1) by exact Hrd.
  destruct (flush_quiet endpoint directory port w1 Q1 F1 Hwf1 Hdec1 Hn1 Hrd1)
    as (Hr & _ & _).
  unfold result, after, effects in *. cbn [fst snd].
  split; [exact Hr|].
  split; [reflexivity|]. split.
  - intros name f Hin Hend.
    apply (flush_sends_entry endpoint directory port w1 name f
             Q1 F1 Hwf1 Hdec1 Hn1 Hrd1);
      [|exact Hend].
    apply put_other_in; [exact Hin|]. cbn [fst]. intros ->. discriminate.
  - intros e He. cbn [w_dir with_lock] in He.
    pose proof (flush_run endpoint directory port w1) as E. cbv zeta in E.
    rewrite (pending_quiet directory w1 Q1) in E. rewrite E in He.
    match type of He with context [for_each ?l ?f w1] =>
      apply (proj1 (proj2 (for_each_frame directory _ l w1 Q1))) in He end.
    now apply in_put in He.
Qed.

End SaveAndSend.

(** ** What [persist_event] does and does not do *)

Definition is_log (e : effect) : Prop :=
  match e with ELog _ _ _ => True | _ => False end.

Definition logs_only {A} (m : M A) : Prop :=
  forall w, Forall is_log (effects (m w)).

Section LogsOnly.

Lemma logs_only_bind {A B} (m : M A) (k : A -> M B) :
  logs_only m -> (forall a, logs_only (k a)) -> logs_only (bind m k).
Proof.
  intros Hm Hk w. unfold bind. specialize (Hm w).
  destruct (m w) as [[[a|e] w1] t1]; [|exact Hm].
  specialize (Hk a w1). destruct (k a w1) as [[r w2] t2].
  unfold effects in *. cbn [snd] in *. apply Forall_app. now split.
Qed.

Lemma logs_only_finally {A} (body : M A) (final : M unit) :
  logs_only body -> logs_only final -> logs_only (try_finally body final).
Proof.
  intros Hb Hf w. unfold try_finally. specialize (Hb w).
  destruct (body w) as [[r w1] t1]. specialize (Hf w1).
  destruct (final w1) as [[[[]|e] w2] t2];
    unfold effects in *; cbn [snd] in *; apply Forall_app; now split.
Qed.

Lemma logs_only_except {A} (body : M A) (handler : exn -> option (M A)) :
  logs_only body ->
  (forall e h, handler e = Some h -> logs_only h) ->
  logs_only (try_except body handler).
Proof.
  intros Hb Hh w. unfold try_except, try_except_else. specialize (Hb w).
  destruct (body w) as [[[a|e] w1] t1].
  - unfold ret, effects in *. cbn [snd] in *. now rewrite app_nil_r.
  - destruct (handler e) as [h|] eqn:E; [|exact Hb].
    specialize (Hh e h E w1). destruct (h w1) as [[r w2] t2].
    unfold effects in *. cbn [snd] in *. apply Forall_app. now split.
Qed.

Lemma logs_only_log level m : logs_only (log level m).
Proof.
  intros w. rewrite log_run. destruct (speaks w level m); repeat constructor.
Qed.

Lemma logs_only_open_w directory path : logs_only (open_w directory path).
Proof.
  intros w. unfold open_w. destruct (verdict (tick w)) as [[| |n] w1];
    [destruct (name_of directory path)|..]; constructor.
Qed.

Lemma logs_only_fwrite f data : logs_only (fwrite f data).
Proof.
  intros w. unfold fwrite. destruct (negb (Str.utf8_valid data)); [constructor|].
  destruct (verdict (tick w)) as [[| |n] w1]; constructor.
Qed.

Lemma logs_only_fflush f : logs_only (fflush f).
Proof.
  intros w. unfold fflush. destruct (verdict w) as [[| |n] w1]; constructor.
Qed.

Lemma logs_only_fclose f : logs_only (fclose f).
Proof.
  intros w. unfold fclose. destruct (w_fd w); [|constructor].
  destruct (verdict w) as [[| |n] w1]; constructor.
Qed.

Lemma logs_only_os_rename directory src dst :
  logs_only (os_rename directory src dst).
Proof.
  intros w. unfold os_rename. destruct (verdict (tick w)) as [[| |n] w1];
    [destruct (name_of directory src); [destruct (name_of directory dst);
       [destruct (find _ _)|]|]|..]; constructor.
Qed.

Lemma logs_only_persist_event api_key directory p uid :
  logs_only (persist_event api_key directory p uid).
Proof.
  unfold persist_event.
  apply logs_only_bind; [apply logs_only_log|intros _].
  apply logs_only_bind; [apply logs_only_log|intros _].
  cbv zeta. apply logs_only_except.
  - unfold with_open. apply logs_only_bind; [apply logs_only_open_w|intros f].
    apply logs_only_finally; [|apply logs_only_fclose].
    apply logs_only_bind; [apply logs_only_fwrite|intros _].
    apply logs_only_bind; [apply logs_only_fflush|intros _].
    apply logs_only_bind; [apply logs_only_fclose|intros _].
    apply logs_only_bind; [apply logs_only_os_rename|intros _].
    apply logs_only_log.
  - intros e h. destruct (is_Exception e); [|discriminate].
    intros [= <-]. apply logs_only_bind; [apply logs_only_log|intros _].
    intros w. constructor.
Qed.

End LogsOnly.

Definition keeps_lock {A} (m : M A) : Prop :=
  forall w, w_lock (after (m w)) = w_lock w.

Section KeepsLock.

Lemma keeps_lock_bind {A B} (m : M A) (k : A -> M B) :
  keeps_lock m -> (forall a, keeps_lock (k a)) -> keeps_lock (bind m k).
Proof.
  intros Hm Hk w. unfold bind. specialize (Hm w).
  destruct (m w) as [[[a|e] w1] t1]; [|exact Hm].
  specialize (Hk a w1). destruct (k a w1) as [[r w2] t2].
  unfold after in *. cbn [fst snd] in *. congruence.
Qed.

Lemma keeps_lock_finally {A} (body : M A) (final : M unit) :
  keeps_lock body -> keeps_lock final -> keeps_lock (try_finally body final).
Proof.
  intros Hb Hf w. unfold try_finally. specialize (Hb w).
  destruct (body w) as [[r w1] t1]. specialize (Hf w1).
  destruct (final w1) as [[[[]|e] w2] t2];
    unfold after in *; cbn [fst snd] in *; congruence.
Qed.

Lemma keeps_lock_except {A} (body : M A) (handler : exn -> option (M A)) :
  keeps_lock body ->
  (forall e h, handler e = Some h -> keeps_lock h) ->
  keeps_lock (try_except body handler).
Proof.
  intros Hb Hh w. unfold try_except, try_except_else. specialize (Hb w).
  destruct (body w) as [[[a|e] w1] t1]; [exact Hb|].
  destruct (handler e) as [h|] eqn:E; [|exact Hb].
  specialize (Hh e h E w1). destruct (h w1) as [[r w2] t2].
  unfold after in *. cbn [fst snd] in *. congruence.
Qed.

Lemma keeps_lock_log level m : keeps_lock (log level m).
Proof. intros w. now rewrite log_after. Qed.

Lemma keeps_lock_open_w directory path : keeps_lock (open_w directory path).
Proof.
  intros w. unfold open_w. pose proof (verdict_lock (tick w)) as H.
  rewrite tick_lock in H.
  destruct (verdict (tick w)) as [[| |n] w1];
    [destruct (name_of directory path)|..]; exact H.
Qed.

Lemma keeps_lock_fwrite f data : keeps_lock (fwrite f data).
Proof.
  intros w. unfold fwrite.
  destruct (negb (Str.utf8_valid data)); [reflexivity|].
  pose proof (verdict_lock (tick w)) as H. rewrite tick_lock in H.
  destruct (verdict (tick w)) as [[| |n] w1]; exact H.
Qed.

Lemma keeps_lock_fflush f : keeps_lock (fflush f).
Proof.
  intros w. unfold fflush. pose proof (verdict_lock w) as H.
  destruct (verdict w) as [[| |n] w1]; exact H.
Qed.

Lemma keeps_lock_fclose f : keeps_lock (fclose f).
Proof.
  intros w. unfold fclose. destruct (w_fd w); [|reflexivity].
  pose proof (verdict_lock w) as H.
  destruct (verdict w) as [[| |n] w1]; exact H.
Qed.

Lemma keeps_lock_os_rename directory src dst :
  keeps_lock (os_rename directory src dst).
Proof.
  intros w. unfold os_rename. pose proof (verdict_lock (tick w)) as H.
  rewrite tick_lock in H.
  destruct (verdict (tick w)) as [[| |n] w1];
    [destruct (name_of directory src); [destruct (name_of directory dst);
       [destruct (find _ _)|]|]|..]; exact H.
Qed.

Lemma keeps_lock_persist_event api_key directory p uid :
  keeps_lock (persist_event api_key directory p uid).
Proof.
  unfold persist_event.
  apply keeps_lock_bind; [apply keeps_lock_log|intros _].
  apply keeps_lock_bind; [apply keeps_lock_log|intros _].
  cbv zeta. apply keeps_lock_except.
  - unfold with_open. apply keeps_lock_bind; [apply keeps_lock_open_w|intros f].
    apply keeps_lock_finally; [|apply keeps_lock_fclose].
    apply keeps_lock_bind; [apply keeps_lock_fwrite|intros _].
    apply keeps_lock_bind; [apply keeps_lock_fflush|intros _].
    apply keeps_lock_bind; [apply keeps_lock_fclose|intros _].
    apply keeps_lock_bind; [apply keeps_lock_os_rename|intros _].
    apply keeps_lock_log.
  - intros e h. destruct (is_Exception e); [|discriminate].
    intros [= <-]. apply keeps_lock_bind; [apply keeps_lock_log|intros _].
    intros w. reflexivity.
Qed.

End KeepsLock.

(** X11.  Whatever the state of the directory, the other processes and the
    operating system do: the only things [persist_event] lets out are log
    lines.  It reads no event file, sends nothing over the network, removes
    nothing through [os.remove], and leaves the lock alone. *)
Theorem persist_event_only_writes_and_logs api_key directory (p : payload)
    uid w :
  let x := persist_event api_key directory p uid w in
  Forall is_log (effects x) /\ sends (effects x) = []
  /\ opened (effects x) = []
  /\ existsb (fun e => match e with ERemove _ => true | _ => false end)
            (effects x) = false
  /\ w_lock (after x) = w_lock w.
Proof.
  cbv zeta. pose proof (logs_only_persist_event api_key directory p uid w) as H.
  split; [exact H|].
  pose proof (keeps_lock_persist_event api_key directory p uid w) as Hk.
  induction H as [|e t He Ht IH]; [repeat split; exact Hk|].
  destruct e; try destruct He. exact IH.
Qed.

(** ** What the service reads *)

(** X10.  Where the API key and the keys and values of the payload hold
    only characters XML allows (UTF-8 text without control characters other
    than tab, line feed and carriage return), for an API key without
    ampersand, less-than sign, carriage return and the sequence of two right
    brackets and [>], and payload values without carriage return, the
    document [create_xml] writes has no carriage return in it, so reading
    the file in text mode gives it unchanged; and what [flush] then sends is
    read back by the receiving side as the API key and the payload, keys and
    values as they were given. *)
Theorem submitted_document_reads_back apikey (p : payload) :
  Reader.legal apikey = true ->
  Str.contains Chr.amp apikey = false ->
  Str.contains Chr.lt apikey = false ->
  holds_section_end apikey = false ->
  Str.contains Chr.cr apikey = false ->
  (forall kv, In kv p ->
     Reader.legal (fst kv) = true /\ Reader.legal (snd kv) = true) ->
  (forall kv, In kv p -> Str.contains Chr.cr (snd kv) = false) ->
  let doc := create_xml apikey p in
  Str.universal_newlines false doc = doc
  /\ Reader.read_event (Str.universal_newlines false doc) = Some (apikey, p).
Proof.
  intros Hlegal Ha Hl Hg Hr Hlp Hp. cbv zeta.
  assert (E : Str.universal_newlines false (create_xml apikey p)
              = create_xml apikey p).
  { apply newlines_id. rewrite create_xml_shape.
    rewrite !contains_app, Hr, (contains_entries_cr p Hp). reflexivity. }
  rewrite E. split; [reflexivity|]. now apply event_read_back.
Qed.

(** * The entry point *)

(** [sub in s] on strings *)
Fixpoint isin (sub s : string) : bool :=
  if String.prefix sub s then true
  else match s with
       | EmptyString => false
       | String _ s' => isin sub s'
       end.

(** [s.split(sep, 1)]: one element when [sep] does not occur in [s], else
    what is before its first occurrence and what is after it. *)
Fixpoint split_once (sep : ascii) (s : string) : list string :=
  match s with
  | EmptyString => [EmptyString]
  | String c s' =>
      if Ascii.eqb c sep then [EmptyString; s']
      else match split_once sep s' with
           | head :: rest => String c head :: rest
           | [] => [String c EmptyString]
           end
  end.

(** [payload[key] = value]: a key that is there keeps its place. *)
Fixpoint dict_set (key value : string) (p : payload) : payload :=
  match p with
  | [] => [(key, value)]
  | e :: p' =>
      if String.eqb (fst e) key then (fst e, value) :: p'
      else e :: dict_set key value p'
  end.

(** [payload[key]], after [key in payload] *)
Definition dict_get (key : string) (p : payload) : option string :=
  option_map snd (find (fun e => String.eqb (fst e) key) p).

(** [payload.update(items)] with a list of lists: the items are set one by
    one; the first that has not two elements is a [ValueError]. *)
Fixpoint dict_update (items : list (list string)) (i : Z) (p : payload)
  : outcome payload :=
  match items with
  | [] => Ok p
  | [key; value] :: items' => dict_update items' (i + 1) (dict_set key value p)
  | item :: _ =>
      Raised (OtherError
                ("dictionary update sequence element #" ++ Str.of_int i
                 ++ " has length " ++ Str.of_int (Z.of_nat (length item))
                 ++ "; 2 is required"))
  end.

(** [choices=['icinga', 'save', 'cron', 'send']] *)
Inductive mode := Icinga | Save | Cron | Send.

(** What [parser.parse_args()] returns. *)
Record arguments := mkarguments {
  arg_mode : mode;
  arg_apikey : option string;
  arg_endpoint : string;
  arg_port : Z;
  arg_dir : string;
  arg_payload : list string
}.

(** The payload [main] builds: the plugin version, the environment variables
    with [ICINGA_] or [NOTIFY_] in their names, in the order of
    [os.environ], then the pairs of the command line. *)
Definition payload_of (environ : list (string * string)) (args : list string)
  : outcome payload :=
  let payload := [("PLUGIN_VERSION", PLUGIN_VERSION)] in
  let payload :=
    fold_left
      (fun payload env =>
         if isin "ICINGA_" (fst env) || isin "NOTIFY_" (fst env)
         then dict_set (fst env) (snd env) payload
         else payload)
      environ payload in
  dict_update (map (split_once "=") args) 0 payload.

Definition apikey_of (apikey : option string) (p : payload) : option string :=
  match apikey with
  | Some k => Some k
  | None =>
      match dict_get "ICINGA_CONTACTPAGER" p with
      | Some k => Some k
      | None => dict_get "CONTACTPAGER" p
      end
  end.

(** What the process does that can be seen from outside, [main] included. *)
Inductive process_effect :=
| Plugin (e : effect)          (* by [persist_event] and [lock_and_flush] *)
| EMakedirs (path : string)    (* [os.makedirs(path)] *)
| ELogRequired (to : sink)     (* [log("ERROR", error_msg)] *)
| EUsage.                      (* [parser.error(error_msg)] on the error stream *)

Definition P (A : Type) : Type :=
  world -> outcome A * world * list process_effect.

Definition and_then {A B} (m : P A) (k : A -> P B) : P B := fun w =>
  match m w with
  | (Ok a, w1, t1) => let '(r, w2, t2) := k a w1 in (r, w2, (t1 ++ t2)%list)
  | (Raised e, w1, t1) => (Raised e, w1, t1)
  end.

Definition lift {A} (m : M A) : P A := fun w =>
  let '(r, w1, t) := m w in (r, w1, map Plugin t).

Definition of_outcome {A} (r : outcome A) : P A := fun w => (r, w, []).

Definition p_result {A} (x : outcome A * world * list process_effect)
  : outcome A := fst (fst x).
Definition p_after {A} (x : outcome A * world * list process_effect)
  : world := snd (fst x).
Definition p_effects {A} (x : outcome A * world * list process_effect)
  : list process_effect := snd x.

(** [if not os.path.exists(path): os.makedirs(path)]; [present] says whether
    the directory is there.  A directory that is not there has no entries. *)
Definition ensure_dir (path : string) (present : bool) : P unit := fun w =>
  let w := tick w in
  if present then (Ok tt, w, [])
  else
    let w := tick w in
    let '(v, w) := verdict w in
    match v with
    | NoFault => (Ok tt, w, [EMakedirs path])
    | _ => (Raised (OSError path), w, [EMakedirs path])
    end.

(** [log("ERROR", error_msg); parser.error(error_msg)]: the line goes where
    [log] sends an error, then the usage and the message are printed and the
    process exits with status 2. *)
Definition apikey_required : P unit := fun w =>
  let docker_mode :=
    match w_docker_mode w with Some v => v | None => "false" end in
  let to :=
    if String.eqb docker_mode "yes" || String.eqb docker_mode "true"
       || String.eqb docker_mode "y"
    then Stderr else Syslog LOG_ERR in
  (Raised (SystemExit 2), w, [ELogRequired to; EUsage]).

(** [main()], from the parsed arguments on; [uid] is what [uuid.uuid4()]
    returns when [persist_event] asks for it.  [parser.error] does not
    return, so [persist_event] is reached with an API key only. *)
Definition main (args : arguments) (environ : list (string * string))
    (present : bool) (uid : string) : P unit :=
  and_then (of_outcome (payload_of environ (arg_payload args))) (fun payload =>
  let apikey := apikey_of (arg_apikey args) payload in
  and_then (ensure_dir (arg_dir args) present) (fun _ =>
  and_then
    match arg_mode args with
    | Icinga | Save =>
        match apikey with
        | None => apikey_required
        | Some apikey =>
            lift (persist_event apikey (arg_dir args) payload uid ;;
                  lock_and_flush (arg_endpoint args) (arg_dir args)
                                 (arg_port args))
        end
    | Cron | Send =>
        lift (lock_and_flush (arg_endpoint args) (arg_dir args) (arg_port args))
    end (fun _ =>
  lift (exit 0)))).

(** The effects of the plugin's own functions among those of the process. *)
Definition plugin (t : list process_effect) : list effect :=
  flat_map (fun e => match e with Plugin e => [e] | _ => [] end) t.

(** ** The payload *)

Section Payload.

Lemma split_once_nonempty sep s : split_once sep s <> [].
Proof.
  destruct s as [|c s]; cbn [split_once]; [discriminate|].
  destruct (Ascii.eqb c sep); [discriminate|].
  destruct (split_once sep s); discriminate.
Qed.

Lemma split_once_pair sep : forall s k v,
  split_once sep s = [k; v] <->
  s = k ++ String sep v /\ Str.contains sep k = false.
Proof.
  induction s as [|c s IH]; intros k v; cbn [split_once].
  - split; [discriminate|]. intros [H _].
    destruct k; cbn [append] in H; discriminate.
  - destruct (Ascii.eqb_spec c sep) as [->|Hc].
    + split.
      * intros [= <- <-]. now split.
      * intros [H Hk]. destruct k as [|c' k]; cbn [append] in H.
        -- now injection H as <-.
        -- injection H as <- _. cbn [Str.contains] in Hk.
           rewrite Ascii.eqb_refl in Hk. discriminate.
    + destruct (split_once sep s) as [|h [|h2 [|h3 rest]]] eqn:E.
      * now apply split_once_nonempty in E.
      * split; [discriminate|]. intros [H Hk].
        destruct k as [|c' k]; cbn [append] in H.
        -- injection H as H _. contradiction.
        -- injection H as <- H. cbn [Str.contains] in Hk.
           apply orb_false_iff in Hk as [_ Hk].
           assert (X : [h] = [k; v]) by (apply IH; now split).
           discriminate.
      * split.
        -- intros [= <- <-]. destruct (proj1 (IH h h2) eq_refl) as [-> Hk].
           split; [reflexivity|]. cbn [Str.contains].
           apply orb_false_iff. split; [|exact Hk].
           apply Ascii.eqb_neq. congruence.
        -- intros [H Hk]. destruct k as [|c' k]; cbn [append] in H.
           ++ injection H as H _. contradiction.
           ++ injection H as <- H. cbn [Str.contains] in Hk.
              apply orb_false_iff in Hk as [_ Hk].
              assert (X : [h; h2] = [k; v]) by (apply IH; now split).
              now injection X as <- <-.
      * split; [discriminate|]. intros [H Hk].
        destruct k as [|c' k]; cbn [append] in H.
        -- injection H as H _. contradiction.
        -- injection H as <- H. cbn [Str.contains] in Hk.
           apply orb_false_iff in Hk as [_ Hk].
           assert (X : h :: h2 :: h3 :: rest = [k; v]) by (apply IH; now split).
           discriminate.
Qed.

Lemma split_once_whole sep : forall s,
  Str.contains sep s = false -> split_once sep s = [s].
Proof.
  induction s as [|c s IH]; cbn [split_once Str.contains]; [reflexivity|].
  intros H. apply orb_false_iff in H as [Hc Hs].
  rewrite Ascii.eqb_sym in Hc. rewrite Hc, (IH Hs). reflexivity.
Qed.

End Payload.

Section Dict.

Lemma dict_set_in key value (p : payload) kv :
  In kv (dict_set key value p) -> kv = (key, value) \/ In kv p.
Proof.
  induction p as [|e p IH]; cbn [dict_set].
  - intros [<-|[]]. now left.
  - destruct (String.eqb_spec (fst e) key) as [E|E].
    + intros [<-|H]; [left; now rewrite E|right; now right].
    + intros [<-|H]; [right; now left|].
      destruct (IH H) as [->|H']; [now left|right; now right].
Qed.

Lemma dict_set_keys key value (p : payload) k :
  In k (map fst (dict_set key value p)) <-> k = key \/ In k (map fst p).
Proof.
  induction p as [|e p IH]; cbn [dict_set map fst].
  - cbn [In]. intuition.
  - destruct (String.eqb_spec (fst e) key) as [E|E]; cbn [map fst In].
    + rewrite E. intuition.
    + rewrite IH. intuition.
Qed.

Lemma dict_set_nodup key value (p : payload) :
  NoDup (map fst p) -> NoDup (map fst (dict_set key value p)).
Proof.
  induction p as [|e p IH]; cbn [dict_set map]; intros H.
  - constructor; [intros []|constructor].
  - inversion H as [|? ? Hn Hp]; subst.
    destruct (String.eqb_spec (fst e) key) as [E|E]; cbn [map fst].
    + now constructor.
    + constructor; [|now apply IH].
      rewrite dict_set_keys. intros [Heq|Hin]; [now apply E|contradiction].
Qed.

Lemma dict_get_set key value (p : payload) :
  dict_get key (dict_set key value p) = Some value.
Proof.
  unfold dict_get. induction p as [|e p IH]; cbn [dict_set find fst].
  - now rewrite String.eqb_refl.
  - destruct (String.eqb (fst e) key) eqn:E; cbn [find fst].
    + now rewrite E.
    + now rewrite E.
Qed.

Lemma dict_get_set_other key value (p : payload) k :
  k <> key -> dict_get k (dict_set key value p) = dict_get k p.
Proof.
  intros Hk. unfold dict_get.
  induction p as [|e p IH]; cbn [dict_set find fst].
  - apply String.eqb_neq in Hk. rewrite String.eqb_sym in Hk.
    now rewrite Hk.
  - destruct (String.eqb_spec (fst e) key) as [E|E]; cbn [find fst].
    + rewrite E. apply String.eqb_neq in Hk. rewrite String.eqb_sym in Hk.
      now rewrite Hk.
    + destruct (String.eqb (fst e) k); [reflexivity|exact IH].
Qed.

Lemma dict_update_in : forall items i p0 p,
  dict_update items i p0 = Ok p ->
  forall k v, In (k, v) p -> In (k, v) p0 \/ In [k; v] items.
Proof.
  induction items as [|item items IH]; intros i p0 p; cbn [dict_update].
  - intros [= <-] k v H. now left.
  - destruct item as [|key [|value [|x item]]]; try discriminate.
    intros H k v Hin. destruct (IH _ _ _ H k v Hin) as [H'|H'].
    + apply dict_set_in in H' as [[= -> ->]|H']; [right; now left|now left].
    + right. now right.
Qed.

Lemma dict_update_keys : forall items i p0 p,
  dict_update items i p0 = Ok p ->
  NoDup (map fst p0) ->
  NoDup (map fst p) /\ forall k, In k (map fst p0) -> In k (map fst p).
Proof.
  induction items as [|item items IH]; intros i p0 p; cbn [dict_update].
  - intros [= <-] H. now split.
  - destruct item as [|key [|value [|x item]]]; try discriminate.
    intros H Hnd.
    destruct (IH _ _ _ H (dict_set_nodup key value p0 Hnd)) as [H1 H2].
    split; [exact H1|]. intros k Hk. apply H2, dict_set_keys. now right.
Qed.

Lemma dict_update_app : forall l1 l2 i p0,
  dict_update (l1 ++ l2) i p0
  = match dict_update l1 i p0 with
    | Ok p1 => dict_update l2 (i + Z.of_nat (length l1)) p1
    | Raised e => Raised e
    end.
Proof.
  induction l1 as [|item l1 IH]; intros l2 i p0.
  - cbn [app dict_update length Z.of_nat]. now rewrite Z.add_0_r.
  - cbn [app]. destruct item as [|key [|value [|x item]]];
      cbn [dict_update]; try reflexivity.
    rewrite IH. cbn [length]. rewrite Nat2Z.inj_succ.
    replace (i + 1 + Z.of_nat (length l1)) with (i + Z.succ (Z.of_nat (length l1)))
      by lia.
    reflexivity.
Qed.

Lemma dict_update_get : forall items i p0 p k,
  dict_update items i p0 = Ok p ->
  (forall v, ~ In [k; v] items) ->
  dict_get k p = dict_get k p0.
Proof.
  induction items as [|item items IH]; intros i p0 p k; cbn [dict_update].
  - now intros [= <-] _.
  - destruct item as [|key [|value [|x item]]]; try discriminate.
    intros H Hno. rewrite (IH _ _ _ k H).
    + apply dict_get_set_other. intros ->. apply (Hno value). now left.
    + intros v Hin. apply (Hno v). now right.
Qed.

Lemma dict_update_short : forall items i p0 item,
  In item items -> length item <> 2%nat ->
  exists msg, dict_update items i p0 = Raised (OtherError msg).
Proof.
  induction items as [|x items IH]; intros i p0 item [].
  - subst x. intros Hl.
    destruct item as [|key [|value [|y item]]]; cbn [dict_update];
      try (eexists; reflexivity).
    now destruct Hl.
  - intros Hl. destruct x as [|key [|value [|y x]]]; cbn [dict_update];
      try (eexists; reflexivity).
    now apply (IH _ _ item).
Qed.

Lemma fold_environ_in (q : string -> bool) :
  forall (environ : list (string * string)) (p0 : payload) kv,
  In kv (fold_left
           (fun payload env =>
              if q (fst env) then dict_set (fst env) (snd env) payload
              else payload) environ p0) ->
  In kv p0 \/ (In kv environ /\ q (fst kv) = true).
Proof.
  induction environ as [|env environ IH]; intros p0 kv; cbn [fold_left].
  - now left.
  - intros H. destruct (IH _ _ H) as [H'|[H' Hq]]; [|right; split; [now right|exact Hq]].
    destruct (q (fst env)) eqn:E; [|now left].
    apply dict_set_in in H' as [->|H']; [|now left].
    right. split; [left; now destruct env|exact E].
Qed.

Lemma fold_environ_keys (q : string -> bool) :
  forall (environ : list (string * string)) (p0 : payload),
  NoDup (map fst p0) ->
  let p := fold_left
             (fun payload env =>
                if q (fst env) then dict_set (fst env) (snd env) payload
                else payload) environ p0 in
  NoDup (map fst p) /\ forall k, In k (map fst p0) -> In k (map fst p).
Proof.
  induction environ as [|env environ IH]; intros p0 Hnd; cbn [fold_left].
  - now split.
  - destruct (q (fst env)).
    + destruct (IH _ (dict_set_nodup (fst env) (snd env) p0 Hnd)) as [H1 H2].
      split; [exact H1|]. intros k Hk. apply H2, dict_set_keys. now right.
    + now apply IH.
Qed.

Lemma prefix_app p s : String.prefix p (p ++ s) = true.
Proof.
  induction p as [|ch p IH]; cbn [append String.prefix]; [now destruct s|].
  destruct (ascii_dec ch ch); [exact IH|contradiction].
Qed.

End Dict.

(** X12.  [arg.split('=', 1)] gives a pair exactly for an argument with an
    equals sign in it, and then splits it at the first one: the key is what
    stands before it and has no equals sign, the value all that follows,
    further equals signs included. *)
Theorem split_at_first_equals_sign (arg k v : string) :
  split_once "=" arg = [k; v]
  <-> arg = k ++ "=" ++ v /\ Str.contains "=" k = false.
Proof. apply split_once_pair. Qed.

(** X13.  The payload [main] builds is a dictionary: whatever the
    environment and the command line hold, no key occurs twice in it, and
    the key [PLUGIN_VERSION] is always there. *)
Theorem payload_keys_distinct environ args (p : payload) :
  payload_of environ args = Ok p ->
  NoDup (map fst p) /\ In "PLUGIN_VERSION" (map fst p).
Proof.
  unfold payload_of. intros H.
  set (q := fun n => isin "ICINGA_" n || isin "NOTIFY_" n).
  assert (H0 : NoDup (map fst [("PLUGIN_VERSION", PLUGIN_VERSION)]))
    by (constructor; [intros []|constructor]).
  destruct (fold_environ_keys q environ _ H0) as [H1 H2]. cbv zeta in *.
  destruct (dict_update_keys _ _ _ _ H H1) as [H3 H4].
  split; [exact H3|]. apply H4, H2. now left.
Qed.

(** X14.  Every entry of the payload has one of three origins: it is the
    plugin version; or an environment variable with [ICINGA_] or [NOTIFY_]
    in its name, with the value it has in the environment; or a pair
    [key=value] of the command line. *)
Theorem payload_entries_have_a_source environ args (p : payload) k v :
  payload_of environ args = Ok p ->
  In (k, v) p ->
  (k = "PLUGIN_VERSION" /\ v = PLUGIN_VERSION)
  \/ (In (k, v) environ /\ isin "ICINGA_" k || isin "NOTIFY_" k = true)
  \/ In (k ++ "=" ++ v) args.
Proof.
  unfold payload_of. intros H Hin.
  destruct (dict_update_in _ _ _ _ H k v Hin) as [H'|H'].
  - apply (fold_environ_in (fun n => isin "ICINGA_" n || isin "NOTIFY_" n))
      in H' as [[[= <- <-]|[]]|H']; [now left|right; now left].
  - right; right. apply in_map_iff in H' as [arg [Hs Harg]].
    apply split_once_pair in Hs as [-> _]. exact Harg.
Qed.

(** X15.  The command line has the last word: the value of a pair
    [key=value] on the command line is the value of [key] in the payload,
    whatever the environment and the earlier arguments say, provided no
    later argument sets the same key. *)
Theorem command_line_pair_overrides environ before later (p : payload) k v :
  payload_of environ (before ++ (k ++ "=" ++ v) :: later) = Ok p ->
  Str.contains "=" k = false ->
  (forall arg, In arg later -> String.prefix (k ++ "=") arg = false) ->
  dict_get k p = Some v.
Proof.
  unfold payload_of. rewrite map_app. cbn [map]. intros H Hk Hlater.
  rewrite dict_update_app in H.
  destruct (dict_update (map (split_once "=") before) 0 _) as [p1|e];
    [|discriminate].
  assert (Hs : split_once "=" (k ++ "=" ++ v) = [k; v])
    by (apply split_once_pair; now split).
  rewrite Hs in H. cbn [dict_update] in H.
  rewrite (dict_update_get _ _ _ _ k H); [apply dict_get_set|].
  intros v' Hin. apply in_map_iff in Hin as [arg [Hs' Harg]].
  apply split_once_pair in Hs' as [-> _].
  specialize (Hlater _ Harg).
  change (k ++ String "=" v') with (k ++ "=" ++ v') in Hlater.
  rewrite <- (append_assoc k "=" v') in Hlater.
  rewrite prefix_app in Hlater. discriminate.
Qed.

(** ** Runs of [main] *)

Section Main.

Variables (args : arguments) (environ : list (string * string))
          (present : bool) (uid : string).

Let url :=
  arg_endpoint args ++ ":" ++ Str.of_int (arg_port args)
  ++ "/api/v1/events/icinga".

Lemma plugin_lifted (t : list effect) : plugin (map Plugin t) = t.
Proof.
  unfold plugin. induction t as [|e t IH]; [reflexivity|].
  cbn [map flat_map app]. now rewrite IH.
Qed.

Lemma plugin_app t1 t2 : plugin (t1 ++ t2) = (plugin t1 ++ plugin t2)%list.
Proof. unfold plugin. apply flat_map_app. Qed.

Lemma ensure_dir_plugin path w :
  plugin (p_effects (ensure_dir path present w)) = [].
Proof.
  unfold ensure_dir. destruct present; [reflexivity|].
  destruct (verdict (tick (tick w))) as [[| |n] w1]; reflexivity.
Qed.

Lemma ensure_dir_quiet path w :
  quiet w ->
  quiet (p_after (ensure_dir path present w))
  /\ w_dir (p_after (ensure_dir path present w)) = w_dir w
  /\ w_lock (p_after (ensure_dir path present w)) = w_lock w.
Proof.
  intros Q. unfold ensure_dir. rewrite !(tick_quiet w Q).
  destruct present; [now repeat split|].
  pose proof (verdict_dir w) as Hd. pose proof (verdict_others w) as Ho.
  pose proof (verdict_lock w) as Hl.
  destruct (verdict w) as [[| |n] w1]; unfold p_after, quiet in *;
    cbn [fst snd] in *; repeat split; congruence.
Qed.

Lemma ensure_dir_undisturbed path w :
  undisturbed w ->
  ensure_dir path present w
  = (Ok tt, w, if present then [] else [EMakedirs path]).
Proof.
  intros [Q F]. unfold ensure_dir. rewrite !(tick_quiet w Q).
  destruct present; [reflexivity|]. unfold verdict. now rewrite F.
Qed.

Lemma persist_event_fails api_key directory (p : payload) w :
  quiet w ->
  Str.utf8_valid (create_xml api_key p) && clean 5 (w_faults w) = false ->
  let x := persist_event api_key directory p uid w in
  exit_status (result x) = 1
  /\ filter permanent (w_dir (after x)) = filter permanent (w_dir w).
Proof.
  intros Q Hbad. cbv zeta. rewrite persist_event_run.
  pose proof (publish_steps directory (uid ++ ".tmp") (uid ++ ".ilert")
                (create_xml api_key p) (w_clock w) (w_dir w) false
                (w_docker_mode w) (w_strict_stdout w)
                (tmp_not_permanent uid) w) as H.
  assert (H0 : on_track (create_xml api_key p) (w_clock w) false
                 (w_docker_mode w) (w_strict_stdout w) 5
                 (w_dir w) (w_fd w) w)
    by (unfold on_track; repeat split; auto).
  specialize (H H0). clear H0.
  unfold triple in H. unfold try_except, try_except_else.
  destruct (publish _ _ _ _ w) as [[[[]|e] w1] t1].
  - destruct H as ((_ & _ & Ht) & _). discriminate.
  - destruct H as [(He & Hsame & _)|(_ & (_ & _ & Ht) & _)];
      [|discriminate].
    rewrite He, persist_handler_run.
    destruct (speaks w1 "ERROR" _); unfold result, after; cbn [fst snd];
      now split.
Qed.

(** What [main] does once the payload is built and the directory there. *)
Definition dispatch (p : payload) : P unit :=
  match arg_mode args with
  | Icinga | Save =>
      match apikey_of (arg_apikey args) p with
      | None => apikey_required
      | Some apikey =>
          lift (persist_event apikey (arg_dir args) p uid ;;
                lock_and_flush (arg_endpoint args) (arg_dir args)
                               (arg_port args))
      end
  | Cron | Send =>
      lift (lock_and_flush (arg_endpoint args) (arg_dir args) (arg_port args))
  end.

Lemma main_run (p : payload) w :
  payload_of environ (arg_payload args) = Ok p ->
  main args environ present uid w
  = match ensure_dir (arg_dir args) present w with
    | (Ok _, w1, t1) =>
        let '(r, w2, t2) := dispatch p w1 in
        (match r with Ok _ => Raised (SystemExit 0) | Raised e => Raised e end,
         w2, (t1 ++ t2)%list)
    | (Raised e, w1, t1) => (Raised e, w1, t1)
    end.
Proof.
  intros Hp. unfold main, and_then at 1, of_outcome at 1. rewrite Hp.
  fold (dispatch p). unfold and_then.
  destruct (ensure_dir (arg_dir args) present w) as [[[[]|e] w1] t1];
    [|reflexivity].
  destruct (dispatch p w1) as [[[[]|e] w2] t2]; cbn [app];
    [|reflexivity].
  unfold lift, exit, raise. cbn [map]. now rewrite app_nil_r.
Qed.

(** X16.  An argument of the payload without an equals sign stops [main] at
    once, by an exception that is not an exit (status 1): nothing has been
    logged, no directory made, no file written and no request sent, and the
    world is as it was. *)
Theorem main_stops_at_argument_without_equals_sign arg w :
  In arg (arg_payload args) ->
  Str.contains "=" arg = false ->
  exists msg,
    main args environ present uid w = (Raised (OtherError msg), w, [])
    /\ exit_status (Raised (OtherError msg)) = 1.
Proof.
  intros Hin Hc. unfold main, and_then, of_outcome, payload_of.
  destruct (dict_update_short (map (split_once "=") (arg_payload args)) 0
              (fold_left
                 (fun payload env =>
                    if isin "ICINGA_" (fst env) || isin "NOTIFY_" (fst env)
                    then dict_set (fst env) (snd env) payload
                    else payload)
                 environ [("PLUGIN_VERSION", PLUGIN_VERSION)])
              [arg]) as [msg Hmsg].
  - apply in_map_iff. exists arg. split; [now apply split_once_whole|exact Hin].
  - discriminate.
  - exists msg. rewrite Hmsg. now split.
Qed.

(** X17.  In the modes [icinga] and [save], when no API key comes from the
    command line or from the payload, [main] calls none of the plugin's
    functions: no event is written and nothing is sent, in any world.  The
    exit status is not 0; it is 2 when the directory was there; and with no
    other process about the directory is left as it was. *)
Theorem main_saves_nothing_without_api_key (p : payload) w :
  arg_mode args = Icinga \/ arg_mode args = Save ->
  payload_of environ (arg_payload args) = Ok p ->
  apikey_of (arg_apikey args) p = None ->
  let x := main args environ present uid w in
  plugin (p_effects x) = []
  /\ exit_status (p_result x) <> 0
  /\ (present = true -> p_result x = Raised (SystemExit 2))
  /\ (quiet w -> w_dir (p_after x) = w_dir w).
Proof.
  intros Hmode Hp Hkey. cbv zeta. rewrite (main_run p w Hp).
  pose proof (ensure_dir_plugin (arg_dir args) w) as He.
  pose proof (ensure_dir_quiet (arg_dir args) w) as Hq.
  assert (Hpres : present = true ->
            exists w1, ensure_dir (arg_dir args) present w = (Ok tt, w1, [])).
  { intros ->. eexists. reflexivity. }
  assert (Hres : forall e, p_result (ensure_dir (arg_dir args) present w)
                           = Raised e -> exists path, e = OSError path).
  { unfold ensure_dir. destruct present; [discriminate|].
    destruct (verdict (tick (tick w))) as [[| |n] w1];
      unfold p_result; cbn [fst]; intros e [= <-]; eexists; reflexivity. }
  assert (Hm : dispatch p = apikey_required).
  { unfold dispatch. rewrite Hkey. destruct Hmode as [-> | ->]; reflexivity. }
  rewrite Hm.
  destruct (ensure_dir (arg_dir args) present w) as [[[[]|e] w1] t1];
    unfold apikey_required, p_result, p_effects, p_after in *;
    cbn [fst snd] in *.
  - rewrite plugin_app, He. repeat split; try discriminate.
    intros Q. now apply Hq.
  - destruct (Hres e eq_refl) as [path ->].
    repeat split; try discriminate; try exact He.
    + intros Hpr. destruct (Hpres Hpr) as [? ?]. discriminate.
    + intros Q. now apply Hq.
Qed.

(** X18.  In the modes [cron] and [send], with no other process about, no
    fault of the operating system, distinct slash-free names and UTF-8 text
    in the event files, paths that can be logged and answers whose bodies
    can be read: [main] submits every event file of the directory and ends
    by [exit(0)] whatever the service answers; it leaves the lock free and
    has added no file but the lock file. *)
Theorem main_send_mode_submits_every_event (p : payload) w :
  arg_mode args = Cron \/ arg_mode args = Send ->
  payload_of environ (arg_payload args) = Ok p ->
  undisturbed w -> well_formed (w_dir w) -> decodable (w_dir w) ->
  nameable (arg_dir args) w -> readable w ->
  let x := main args environ present uid w in
  p_result x = Raised (SystemExit 0)
  /\ (forall name f, In (name, f) (w_dir w) ->
        Str.endswith name ".ilert" = true ->
        In (Str.join (arg_dir args) name,
            mkrequest url (Str.universal_newlines false (f_bytes f)) headers)
           (sends (plugin (p_effects x))))
  /\ w_lock (p_after x) = LockClosed
  /\ (forall e, In e (w_dir (p_after x)) ->
        e = ("lockfile", mkfile "" (w_clock w)) \/ In e (w_dir w)).
Proof.
  intros Hmode Hp U Hwf Hdec Hn Hrd. cbv zeta. rewrite (main_run p w Hp).
  rewrite (ensure_dir_undisturbed _ w U).
  assert (Hm : dispatch p
               = lift (lock_and_flush (arg_endpoint args) (arg_dir args)
                                      (arg_port args)))
    by (unfold dispatch; destruct Hmode as [-> | ->]; reflexivity).
  rewrite Hm. unfold lift.
  destruct (lock_and_flush_undisturbed (arg_endpoint args) (arg_dir args)
              (arg_port args) w U Hwf Hdec Hn Hrd) as (Hr & Hl & Hs & Hd).
  destruct (lock_and_flush _ _ _ w) as [[r w1] t1].
  unfold result, after, effects, p_result, p_after, p_effects in *.
  cbn [fst snd] in *. subst r.
  rewrite plugin_app, plugin_lifted.
  replace (plugin (if present then [] else [EMakedirs (arg_dir args)]))
    with (@nil effect) by (destruct present; reflexivity).
  cbn [app]. repeat split; assumption.
Qed.

(** X19.  In the modes [icinga] and [save], with an API key, no other
    process about, no fault of the operating system, distinct slash-free
    names and UTF-8 text in the event files, a UUID without slash, a
    document that can be encoded, paths (of the event files and of the new
    one) that can be logged and answers whose bodies can be read: [main]
    submits the new event in the same run, the text of the request being the
    document [create_xml] made with its line ends translated as the reader
    does, and ends by [exit(0)] whatever the service answers, with the lock
    free. *)
Theorem main_save_mode_submits_the_new_event (p : payload) apikey w :
  arg_mode args = Icinga \/ arg_mode args = Save ->
  payload_of environ (arg_payload args) = Ok p ->
  apikey_of (arg_apikey args) p = Some apikey ->
  undisturbed w -> well_formed (w_dir w) -> decodable (w_dir w) ->
  Str.contains "/" uid = false ->
  Str.utf8_valid (create_xml apikey p) = true ->
  nameable (arg_dir args) w -> readable w ->
  speaks w "INFO" (MCreated (arg_dir args ++ "/" ++ uid ++ ".ilert")) = true ->
  speaks w "INFO" (MSending (Str.join (arg_dir args) (uid ++ ".ilert")))
  = true ->
  let x := main args environ present uid w in
  p_result x = Raised (SystemExit 0)
  /\ In (Str.join (arg_dir args) (uid ++ ".ilert"),
         mkrequest url (Str.universal_newlines false (create_xml apikey p))
                   headers)
        (sends (plugin (p_effects x)))
  /\ w_lock (p_after x) = LockClosed.
Proof.
  intros Hmode Hp Hkey U Hwf Hdec Hu V Hn Hrd Sc Ss. cbv zeta.
  rewrite (main_run p w Hp).
  rewrite (ensure_dir_undisturbed _ w U).
  assert (Hm : dispatch p
               = lift (persist_event apikey (arg_dir args) p uid ;;
                       lock_and_flush (arg_endpoint args) (arg_dir args)
                                      (arg_port args))).
  { unfold dispatch. rewrite Hkey. destruct Hmode as [-> | ->]; reflexivity. }
  rewrite Hm. unfold lift. rewrite bind_run.
  rewrite (persist_event_undisturbed apikey (arg_dir args) p uid w U V Sc).
  set (w1 := with_fd None _).
  assert (U1 : undisturbed w1) by exact U.
  assert (Hwf1 : well_formed (w_dir w1))
    by (now apply saved_well_formed).
  assert (Hdec1 : decodable (w_dir w1))
    by (now apply saved_decodable).
  assert (Hn1 : nameable (arg_dir args) w1).
  { intros e He Pe. unfold w1, saved in He. cbn [w_dir with_fd with_dir] in He.
    apply in_put in He as [->|He]; [exact Ss|].
    apply remove_first_in in He.
    apply in_update in He as [He|He].
    { unfold permanent in Pe. rewrite He, tmp_not_permanent in Pe.
      discriminate. }
    apply in_put in He as [->|He]; [|exact (Hn e He Pe)].
    unfold permanent in Pe. cbn [fst] in Pe.
    rewrite tmp_not_permanent in Pe. discriminate. }
  assert (Hrd1 : readable w1) by exact Hrd.
  destruct (lock_and_flush_undisturbed (arg_endpoint args) (arg_dir args)
              (arg_port args) w1 U1 Hwf1 Hdec1 Hn1 Hrd1) as (Hr & Hl & Hs & _).
  specialize (Hs (uid ++ ".ilert")
                 (mkfile (create_xml apikey p) (w_clock w))
                 (put_in _ _ _)).
  assert (Hend : Str.endswith (uid ++ ".ilert") ".ilert" = true).
  { apply endswith_spec. now exists uid. }
  specialize (Hs Hend). cbn [f_bytes] in Hs.
  destruct (lock_and_flush _ _ _ w1) as [[r w2] t2].
  unfold result, after, effects, p_result, p_after, p_effects in *.
  cbn [fst snd] in *. subst r.
  rewrite plugin_app, plugin_lifted.
  replace (plugin (if present then [] else [EMakedirs (arg_dir args)]))
    with (@nil effect) by (destruct present; reflexivity).
  cbn [app]. repeat split; assumption.
Qed.

(** X20.  In the modes [icinga] and [save], with an API key, the directory
    there and no other process about: when the document cannot be encoded or
    one of the five writing calls fails, [main] ends with exit status 1
    without going on to [lock_and_flush]: it has opened no event file, sent
    no request and removed nothing, and the event files are what they
    were. *)
Theorem main_does_not_send_when_saving_fails (p : payload) apikey w :
  arg_mode args = Icinga \/ arg_mode args = Save ->
  payload_of environ (arg_payload args) = Ok p ->
  apikey_of (arg_apikey args) p = Some apikey ->
  present = true -> quiet w ->
  Str.utf8_valid (create_xml apikey p) && clean 5 (w_faults w) = false ->
  let x := main args environ present uid w in
  exit_status (p_result x) = 1
  /\ Forall is_log (plugin (p_effects x))
  /\ filter permanent (w_dir (p_after x)) = filter permanent (w_dir w)
  /\ w_lock (p_after x) = w_lock w.
Proof.
  intros Hmode Hp Hkey Hpres Q Hbad. cbv zeta. rewrite (main_run p w Hp).
  unfold ensure_dir. rewrite Hpres, (tick_quiet w Q).
  assert (Hm : dispatch p
               = lift (persist_event apikey (arg_dir args) p uid ;;
                       lock_and_flush (arg_endpoint args) (arg_dir args)
                                      (arg_port args))).
  { unfold dispatch. rewrite Hkey. destruct Hmode as [-> | ->]; reflexivity. }
  rewrite Hm. unfold lift. rewrite bind_run.
  destruct (persist_event_fails apikey (arg_dir args) p w Q Hbad)
    as (Hr & Hd).
  pose proof (logs_only_persist_event apikey (arg_dir args) p uid w) as Hl.
  pose proof (keeps_lock_persist_event apikey (arg_dir args) p uid w) as Hk.
  destruct (persist_event apikey (arg_dir args) p uid w) as [[r w1] t1].
  unfold result, after, effects, p_result, p_after, p_effects in *.
  cbn [fst snd] in *.
  destruct r as [[]|e]; [discriminate Hr|]. cbn [fst snd app].
  rewrite plugin_lifted. repeat split; assumption.
Qed.

End Main.

(** ** The further properties at work *)

Module Runs.

(** Two event files written within the same tick of the clock, listed
    before an older one. *)
Definition tied : world :=
  mkworld [("n.ilert", mkfile "<event>n</event>" 5);
           ("m.ilert", mkfile "<event>m</event>" 5);
           ("k.ilert", mkfile "<event>k</event>" 3)]
          [] always_ok 0 [] 100 None LockClosed None false.

(** Nothing is queued. *)
Definition idle : world :=
  mkworld [("lockfile", mkfile "" 0); ("9f0c.tmp", mkfile "<eve" 8)]
          [] always_ok 0 [] 100 None LockClosed None false.

(** The service is over its limit. *)
Definition throttled (n : nat) (rq : request) : wire :=
  Response 429 "Too Many Requests" "slow down".

Definition busy : world :=
  mkworld queue [] throttled 0 [] 100 None LockClosed None false.

(** The service takes everything. *)
Definition served : world :=
  mkworld queue [] always_ok 0 [] 100 None LockClosed None false.

(** The lock cannot be taken. *)
Definition unlockable : world :=
  mkworld queue [] always_ok 0 [NoFault; Fault] 100 None LockClosed None false.

(** The disk is full when the event is written. *)
Definition disk_full : world :=
  mkworld queue [] always_ok 0 [NoFault; PartialFault 10] 100 None
          LockClosed None false.

Definition environ : list (string * string) :=
  [("HOME", "/var/spool/icinga"); ("ICINGA_HOSTNAME", "web1");
   ("ICINGA_CONTACTPAGER", "key-of-contact"); ("NOTIFY_WHAT", "HOST")].

Definition save_args : arguments :=
  mkarguments Save None endpoint port directory
              ["ICINGA_HOSTNAME=web2"; "NOTE=a=b"].

Definition send_args : arguments :=
  mkarguments Send None endpoint port directory [].

Definition bad_args : arguments :=
  mkarguments Save (Some "key") endpoint port directory ["HOSTNAME"].

End Runs.

Import Runs.

(** X2 on [tied]: the older file first, then the two of time 5 as listed. *)
Lemma equal_mtimes_keep_listing_order_witness :
  quiet tied
  /\ result (pending directory tied)
     = Ok [Str.join directory "k.ilert"; Str.join directory "n.ilert";
           Str.join directory "m.ilert"]
  /\ exists events,
       result (pending directory tied) = Ok events
       /\ filter (fun p => mtime_of directory (w_dir tied) p =? 5) events
          = filter (fun p => mtime_of directory (w_dir tied) p =? 5)
                   (filter (fun x => Str.endswith x ".ilert")
                           (map (fun f => Str.join directory f)
                                (map fst (w_dir tied)))).
Proof.
  split; [reflexivity|]. split; [reflexivity|].
  exact (equal_mtimes_keep_listing_order directory tied 5 eq_refl).
Defined.

(** X3 on [idle]: lock file and temporary file only. *)
Lemma flush_without_event_files_is_a_no_op_witness :
  (forall name, In name (map fst (w_dir (tick idle))) ->
                Str.endswith name ".ilert" = false)
  /\ flush endpoint directory port idle = (Ok tt, tick idle, []).
Proof.
  assert (H : forall name, In name (map fst (w_dir (tick idle))) ->
                           Str.endswith name ".ilert" = false).
  { intros name [<-|[<-|[]]]; reflexivity. }
  split; [exact H|].
  exact (flush_without_event_files_is_a_no_op endpoint directory port idle H).
Defined.


(** X5 on [calm]: [b.ilert], for which the service could not be reached, is
    still there. *)
Lemma flush_loses_no_event_witness :
  quiet calm /\ In ("b.ilert", file_b) (w_dir calm)
  /\ In ("b.ilert", file_b) (w_dir (after (flush endpoint directory port calm)))
  /\ (In ("b.ilert", file_b)
         (w_dir (after (flush endpoint directory port calm)))
      \/ exists rq n,
           In (ESend (Str.join directory "b.ilert") rq (w_net calm n rq))
              (effects (flush endpoint directory port calm))
           /\ fst (table (w_net calm n rq)) = Delete).
Proof.
  assert (Hin : In ("b.ilert", file_b) (w_dir calm)) by (vm_compute; auto).
  split; [reflexivity|]. split; [exact Hin|].
  split; [vm_compute; auto|].
  exact (flush_loses_no_event endpoint directory port calm ("b.ilert", file_b)
           eq_refl Hin).
Defined.

(** X6 on [busy]: every request is answered 429. *)
Lemma flush_keeps_queue_when_nothing_is_settled_witness :
  quiet busy
  /\ (forall n rq, fst (table (w_net busy n rq)) = Keep)
  /\ length (sends (effects (flush endpoint directory port busy))) = 3%nat
  /\ w_dir (after (flush endpoint directory port busy)) = w_dir busy.
Proof.
  split; [reflexivity|]. split; [reflexivity|]. split; [reflexivity|].
  exact (flush_keeps_queue_when_nothing_is_settled endpoint directory port busy
           eq_refl (fun n rq => eq_refl)).
Defined.

(** X7 on [served]: the queue is emptied, the other files stay. *)
Lemma flush_empties_queue_when_all_is_settled_witness :
  quiet served /\ w_faults served = []
  /\ well_formed (w_dir served) /\ decodable (w_dir served)
  /\ nameable directory served /\ readable served
  /\ (forall n rq, fst (table (w_net served n rq)) = Delete)
  /\ w_dir (after (flush endpoint directory port served))
     = [("lockfile", mkfile "" 0); ("9f0c.tmp", mkfile "<eve" 8)]
  /\ filter permanent (w_dir (after (flush endpoint directory port served)))
     = [].
Proof.
  split; [reflexivity|]. split; [reflexivity|].
  split; [apply well_formedb_ok; reflexivity|].
  split; [apply decodableb_ok; reflexivity|].
  split; [apply nameableb_ok; reflexivity|].
  split; [intros n rq; reflexivity|].
  split; [reflexivity|]. split; [reflexivity|].
  exact (proj1 (proj2
           (flush_empties_queue_when_all_is_settled endpoint directory port
              served eq_refl eq_refl (well_formedb_ok (w_dir served) eq_refl)
              (decodableb_ok (w_dir served) eq_refl)
              (nameableb_ok directory served eq_refl)
              (fun n rq => eq_refl)
              (fun n rq => eq_refl)))).
Defined.

(** X8 on [calm]. *)
Lemma lock_and_flush_is_flush_under_the_lock_witness :
  clean 2 (w_faults calm) = true
  /\ w_lock (holding calm) = LockHeld
  /\ effects (lock_and_flush endpoint directory port calm)
     = effects (flush endpoint directory port (holding calm)).
Proof.
  split; [reflexivity|]. split; [reflexivity|].
  pose proof (lock_and_flush_is_flush_under_the_lock endpoint directory port
                calm eq_refl) as H.
  cbv zeta in H. destruct H as (H & _).
  exact (f_equal snd H).
Defined.

(** X9 on [unlockable]: the lock file opens, the lock is refused. *)
Lemma lock_and_flush_gives_up_without_the_lock_witness :
  clean 2 (w_faults unlockable) = false
  /\ result (lock_and_flush endpoint directory port unlockable)
     = Raised (OSError "lockfile")
  /\ effects (lock_and_flush endpoint directory port unlockable) = [].
Proof.
  split; [reflexivity|]. split; [reflexivity|].
  exact (proj1 (proj2 (lock_and_flush_gives_up_without_the_lock
                         endpoint directory port unlockable eq_refl))).
Defined.

(** X10 on the payload of the cases. *)
Lemma submitted_document_reads_back_witness :
  Reader.legal "key" = true
  /\ Str.contains Chr.amp "key" = false
  /\ Str.contains Chr.lt "key" = false
  /\ holds_section_end "key" = false
  /\ Str.contains Chr.cr "key" = false
  /\ Reader.read_event
       (Str.universal_newlines false (create_xml "key" event_payload))
     = Some ("key", event_payload).
Proof.
  split; [reflexivity|]. split; [reflexivity|]. split; [reflexivity|].
  split; [reflexivity|]. split; [reflexivity|].
  refine (proj2 (submitted_document_reads_back "key" event_payload
                   eq_refl eq_refl eq_refl eq_refl eq_refl _ _)).
  - intros kv [<-|[<-|[]]]; split; reflexivity.
  - intros kv [<-|[<-|[]]]; reflexivity.
Defined.

(** X13 and X14 on the environment and the command line of [save_args]. *)
Lemma payload_keys_distinct_witness :
  payload_of environ (arg_payload save_args)
  = Ok [("PLUGIN_VERSION", "1.5"); ("ICINGA_HOSTNAME", "web2");
        ("ICINGA_CONTACTPAGER", "key-of-contact"); ("NOTIFY_WHAT", "HOST");
        ("NOTE", "a=b")]
  /\ NoDup ["PLUGIN_VERSION"; "ICINGA_HOSTNAME"; "ICINGA_CONTACTPAGER";
            "NOTIFY_WHAT"; "NOTE"].
Proof.
  split; [reflexivity|].
  exact (proj1 (payload_keys_distinct environ (arg_payload save_args) _
                  eq_refl)).
Defined.

Lemma payload_entries_have_a_source_witness :
  payload_of environ (arg_payload save_args)
  = Ok [("PLUGIN_VERSION", "1.5"); ("ICINGA_HOSTNAME", "web2");
        ("ICINGA_CONTACTPAGER", "key-of-contact"); ("NOTIFY_WHAT", "HOST");
        ("NOTE", "a=b")]
  /\ (("NOTE" = "PLUGIN_VERSION" /\ "a=b" = PLUGIN_VERSION)
      \/ (In ("NOTE", "a=b") environ
          /\ isin "ICINGA_" "NOTE" || isin "NOTIFY_" "NOTE" = true)
      \/ In ("NOTE" ++ "=" ++ "a=b") (arg_payload save_args)).
Proof.
  split; [reflexivity|].
  refine (payload_entries_have_a_source environ (arg_payload save_args) _
            "NOTE" "a=b" eq_refl _).
  do 4 right. now left.
Defined.

(** X15: the command line sets the host name the environment also gives. *)
Lemma command_line_pair_overrides_witness :
  Str.contains "=" "ICINGA_HOSTNAME" = false
  /\ dict_get "ICINGA_HOSTNAME"
       [("PLUGIN_VERSION", "1.5"); ("ICINGA_HOSTNAME", "web2");
        ("ICINGA_CONTACTPAGER", "key-of-contact"); ("NOTIFY_WHAT", "HOST");
        ("NOTE", "a=b")] = Some "web2".
Proof.
  split; [reflexivity|].
  refine (command_line_pair_overrides environ [] ["NOTE=a=b"] _
            "ICINGA_HOSTNAME" "web2" eq_refl eq_refl _).
  intros arg [<-|[]]. reflexivity.
Defined.

(** X16 on [bad_args]. *)
Lemma main_stops_at_argument_without_equals_sign_witness :
  In "HOSTNAME" (arg_payload bad_args)
  /\ Str.contains "=" "HOSTNAME" = false
  /\ exists msg,
       main bad_args environ true "9f0c" calm = (Raised (OtherError msg), calm, [])
       /\ exit_status (Raised (OtherError msg)) = 1.
Proof.
  split; [now left|]. split; [reflexivity|].
  exact (main_stops_at_argument_without_equals_sign bad_args environ true
           "9f0c" "HOSTNAME" calm (or_introl eq_refl) eq_refl).
Defined.

(** X17: [save_args] in an environment without the pager of the contact. *)
Lemma main_saves_nothing_without_api_key_witness :
  apikey_of None [("PLUGIN_VERSION", "1.5"); ("ICINGA_HOSTNAME", "web2");
                  ("NOTE", "a=b")] = None
  /\ p_result (main save_args [("HOME", "/root")] true "9f0c" calm)
     = Raised (SystemExit 2)
  /\ plugin (p_effects (main save_args [("HOME", "/root")] true "9f0c" calm))
     = [].
Proof.
  split; [reflexivity|]. split; [reflexivity|].
  exact (proj1 (main_saves_nothing_without_api_key save_args
                  [("HOME", "/root")] true "9f0c" _ calm
                  (or_intror eq_refl) eq_refl eq_refl)).
Defined.

(** X18 on [calm], where the service accepts, cannot be reached, rejects. *)
Lemma main_send_mode_submits_every_event_witness :
  undisturbed calm /\ well_formed (w_dir calm) /\ decodable (w_dir calm)
  /\ nameable directory calm /\ readable calm
  /\ map fst (sends (plugin (p_effects (main send_args environ true "9f0c" calm))))
     = [a; b; c]
  /\ p_result (main send_args environ true "9f0c" calm) = Raised (SystemExit 0).
Proof.
  assert (Hrd : readable calm) by (intros [|[|n]] rq; reflexivity).
  split; [split; reflexivity|].
  split; [apply well_formedb_ok; reflexivity|].
  split; [apply decodableb_ok; reflexivity|].
  split; [apply nameableb_ok; reflexivity|].
  split; [exact Hrd|].
  split; [reflexivity|].
  exact (proj1 (main_send_mode_submits_every_event send_args environ true
                  "9f0c" _ calm (or_intror eq_refl) eq_refl
                  (conj eq_refl eq_refl)
                  (well_formedb_ok (w_dir calm) eq_refl)
                  (decodableb_ok (w_dir calm) eq_refl)
                  (nameableb_ok directory calm eq_refl) Hrd)).
Defined.

(** X19 on [calm]: the API key is the pager of the contact; the new event
    goes out last, after the three that were queued. *)
Lemma main_save_mode_submits_the_new_event_witness :
  apikey_of (arg_apikey save_args)
    [("PLUGIN_VERSION", "1.5"); ("ICINGA_HOSTNAME", "web2");
     ("ICINGA_CONTACTPAGER", "key-of-contact"); ("NOTIFY_WHAT", "HOST");
     ("NOTE", "a=b")] = Some "key-of-contact"
  /\ undisturbed calm /\ Str.contains "/" "9f0c" = false
  /\ nameable directory calm /\ readable calm
  /\ map fst (sends (plugin (p_effects (main save_args environ true "9f0c" calm))))
     = [a; b; c; Str.join directory "9f0c.ilert"]
  /\ p_result (main save_args environ true "9f0c" calm) = Raised (SystemExit 0).
Proof.
  assert (Hrd : readable calm) by (intros [|[|n]] rq; reflexivity).
  split; [reflexivity|]. split; [split; reflexivity|].
  split; [reflexivity|].
  split; [apply nameableb_ok; reflexivity|]. split; [exact Hrd|].
  split; [reflexivity|].
  exact (proj1 (main_save_mode_submits_the_new_event save_args environ true
                  "9f0c" _ "key-of-contact" calm (or_intror eq_refl) eq_refl
                  eq_refl (conj eq_refl eq_refl)
                  (well_formedb_ok (w_dir calm) eq_refl)
                  (decodableb_ok (w_dir calm) eq_refl) eq_refl eq_refl
                  (nameableb_ok directory calm eq_refl) Hrd
                  eq_refl eq_refl)).
Defined.

(** X20 on [disk_full]: ten bytes are written, then the disk is full. *)
Lemma main_does_not_send_when_saving_fails_witness :
  quiet disk_full
  /\ Str.utf8_valid (create_xml "key-of-contact"
         [("PLUGIN_VERSION", "1.5"); ("ICINGA_HOSTNAME", "web2");
          ("ICINGA_CONTACTPAGER", "key-of-contact"); ("NOTIFY_WHAT", "HOST");
          ("NOTE", "a=b")])
     && clean 5 (w_faults disk_full) = false
  /\ In ("9f0c.tmp", mkfile "<?xml vers" 100)
        (w_dir (p_after (main save_args environ true "9f0c" disk_full)))
  /\ p_result (main save_args environ true "9f0c" disk_full)
     = Raised (SystemExit 1)
  /\ exit_status (p_result (main save_args environ true "9f0c" disk_full)) = 1.
Proof.
  split; [reflexivity|]. split; [reflexivity|].
  split; [vm_compute; auto 10|]. split; [reflexivity|].
  exact (proj1 (main_does_not_send_when_saving_fails save_args environ true
                  "9f0c" _ "key-of-contact" disk_full (or_intror eq_refl)
                  eq_refl eq_refl eq_refl eq_refl eq_refl)).
Defined.


